(** * help-chat: the document indexer and the retriever

    A shallow embedding of [help_chat/doc_indexer.py] (class [DocIndexer]),
    of the retrieval side of [help_chat/llm.py] (class [HelpChat]:
    [_retrieve_context], [_load_markdown_excerpt], [_resolve_markdown_path])
    and of [help_chat/debug_logger.py].

    Conventions of the embedding.
    - A resolved absolute path ([pathlib.Path(...).resolve()]) is the list of
      its components, outermost first; the record key [file_path] of the
      [embeddings] table is identified with the resolved path of that file.
    - A component (a file or directory name) is a [string]; the only
      characters the code inspects in a name are the dot and the ASCII
      letters of the fixed extension tables, so bytes and code points agree.
    - A text ([str] holding a document or a query) is a list of Unicode code
      points, so that [len], slicing and the one-character ellipsis behave as
      in Python. The strings of the configuration and the paths [os.walk]
      yields are texts as well.
    - The collaborators (converter, embedding model, process pools, clock,
      the commit of the SQLite connection, the file tree, numpy, [heapq]) are
      fields of a record or variables of a section; every theorem holds for
      every one of them.
    - An exception a method does not catch is a result of its own ([None],
      [Raised], [Escaped]); a swallowed one leaves the state as the code
      leaves it.

    The definitions come first, module by module ([Pathlib], [PyStr], [FS],
    [Indexer], [Trace], [Reasons], [Worlds], [TempDir], [Excerpt], [Scan],
    [Retrieval], [Config], [Observe], [DebugLog]); the facts about them
    follow in the modules named [...Facts]. *)

From stdpp Require Import gmap strings list fin_maps sorting.
From Stdlib Require Import Ascii DecimalString.

Local Open Scope Z_scope.

(** A resolved path: its components, outermost first. *)
Abbreviation path := (list string).

(* ===================================================================== *)
(** * pathlib: names, suffixes, relative paths *)
(* ===================================================================== *)

Module Pathlib.

(** [s[n:]] on a name. *)
Fixpoint sdrop (n : nat) (s : string) : string :=
  match n, s with
  | O, _ => s
  | S n', String _ s' => sdrop n' s'
  | S _, EmptyString => EmptyString
  end.

(** [s[:n]] on a name. *)
Fixpoint stake (n : nat) (s : string) : string :=
  match n, s with
  | O, _ => EmptyString
  | S n', String a s' => String a (stake n' s')
  | S _, EmptyString => EmptyString
  end.

(** [s.rfind(c)]: the index of the last occurrence, [None] for [-1]. *)
Fixpoint rfind (c : Ascii.ascii) (s : string) : option nat :=
  match s with
  | EmptyString => None
  | String a s' =>
      match rfind c s' with
      | Some i => Some (S i)
      | None => if Ascii.eqb a c then Some O else None
      end
  end.

(** [c in s]. *)
Fixpoint contains (c : Ascii.ascii) (s : string) : bool :=
  match s with
  | EmptyString => false
  | String a s' => Ascii.eqb a c || contains c s'
  end.

Definition dot : Ascii.ascii := "."%char.
Definition sep : Ascii.ascii := "/"%char.

(** [PurePath.name]: the last component, [""] for the root. *)
Definition name (p : path) : string := List.last p "".

(** [PurePath.parent]; the root is its own parent. *)
Definition parent (p : path) : path := removelast p.

(** [PurePath.suffix]:
    [i = name.rfind('.'); name[i:] if 0 < i < len(name) - 1 else ''].  *)
Definition suffix_of_name (nm : string) : string :=
  match rfind dot nm with
  | Some i =>
      if (0 <? i)%nat && (i <? String.length nm - 1)%nat then sdrop i nm else ""
  | None => ""
  end.

Definition suffix (p : path) : string := suffix_of_name (name p).

(** [PurePath.with_suffix(suffix)]; [None] is pathlib's [ValueError]
    (a separator in the suffix, a suffix that does not start with a dot or
    is a lone dot, or a path with an empty name). *)
Definition with_suffix (p : path) (suf : string) : option path :=
  if contains sep suf then None
  else if (negb (String.eqb suf "") && negb (String.prefix "." suf))
          || String.eqb suf "."
  then None
  else
    let nm := name p in
    if String.eqb nm "" then None
    else
      let old_suffix := suffix_of_name nm in
      let nm' :=
        if String.eqb old_suffix "" then nm +:+ suf
        else stake (String.length nm - String.length old_suffix) nm +:+ suf in
      Some (parent p ++ [nm']).

(** [p.relative_to(root)]; [None] is the [ValueError] raised when [root]
    is not a prefix of [p]. *)
Fixpoint relative_to (p root : path) {struct root} : option path :=
  match root, p with
  | [], _ => Some p
  | r :: root', c :: p' => if String.eqb r c then relative_to p' root' else None
  | _ :: _, [] => None
  end.

(** The snapshot name both [_generate_embedding] and
    [_delete_markdown_snapshot] build:
    [base.with_suffix(f"{source.suffix}.md")] when the source has a suffix,
    [base.with_suffix(".md")] otherwise. *)
Definition md_with_suffix (base source : path) : option path :=
  if negb (String.eqb (suffix source) "")
  then with_suffix base (suffix source +:+ ".md")
  else with_suffix base ".md".

(** The write side, [_generate_embedding] lines 494-506: outside [root] the
    relative path falls back to the bare file name. *)
Definition snapshot_write_path (file markdown_dir root : path) : option path :=
  let relative_path :=
    match relative_to file root with
    | Some rel => rel
    | None => if String.eqb (name file) "" then [] else [name file]
    end in
  md_with_suffix (markdown_dir ++ relative_path) file.

(** What [_delete_markdown_snapshot] and [_resolve_markdown_path] compute. *)
Inductive located :=
| Outside                 (* [relative_to] raised: the function returns *)
| Invalid                 (* [with_suffix] raised [ValueError] *)
| Snapshot (p : path).

(** The delete side, [_delete_markdown_snapshot] lines 373-383. *)
Definition snapshot_delete_path (file markdown_dir root : path) : located :=
  match relative_to file root with
  | None => Outside
  | Some relative =>
      match md_with_suffix (markdown_dir ++ relative) file with
      | Some p => Snapshot p
      | None => Invalid
      end
  end.

(** [LLM._resolve_markdown_path], lines 398-407 of llm.py. *)
Definition _resolve_markdown_path (file temp root : path) : located :=
  match relative_to file root with
  | None => Outside
  | Some relative =>
      match md_with_suffix ((temp ++ ["_markdown"]) ++ relative) file with
      | Some p => Snapshot p
      | None => Invalid
      end
  end.

(** A well-formed component: not empty, no separator. *)
Definition valid_name (nm : string) : bool :=
  negb (String.eqb nm "") && negb (contains sep nm).

(** The stem of a name: what [with_suffix] keeps. *)
Definition stem_of_name (nm : string) : string :=
  stake (String.length nm - String.length (suffix_of_name nm)) nm.

(** The suffix the snapshot gets: ['<original_suffix>.md'], or plain
    ['.md'] for a source without suffix. *)
Definition md_suffix (nm : string) : string :=
  if negb (String.eqb (suffix_of_name nm) "") then suffix_of_name nm +:+ ".md"
  else ".md".

End Pathlib.

(* ===================================================================== *)
(** * Python [str] values: texts as lists of code points *)
(* ===================================================================== *)

(** A text: the code points of a Python [str]. *)
Abbreviation text := (list N).

Module PyStr.

(** The characters [str.strip()] removes and [str.isspace()] accepts. *)
Definition isspace (c : N) : bool :=
  ((9 <=? c) && (c <=? 13) || (28 <=? c) && (c <=? 32) || (c =? 133) || (c =? 160)
   || (c =? 5760) || (8192 <=? c) && (c <=? 8202) || (c =? 8232) || (c =? 8233)
   || (c =? 8239) || (c =? 8287) || (c =? 12288))%N.

(** [s.lstrip()]. *)
Fixpoint lstrip (s : text) : text :=
  match s with
  | [] => []
  | c :: s' => if isspace c then lstrip s' else s
  end.

(** [s.rstrip()]. *)
Definition rstrip (s : text) : text := rev (lstrip (rev s)).

(** [s.strip()]. *)
Definition strip (s : text) : text := rstrip (lstrip s).

(** [s.replace("\r\n", "\n")]: carriage return 13, line feed 10. *)
Fixpoint replace_crlf (s : text) : text :=
  match s with
  | [] => []
  | c :: s' =>
      match s' with
      | d :: s'' =>
          if ((c =? 13) && (d =? 10))%N then 10%N :: replace_crlf s''
          else c :: replace_crlf s'
      | [] => [c]
      end
  end.

(** [s.startswith(sub)]. *)
Fixpoint startswith (sub s : text) : bool :=
  match sub, s with
  | [], _ => true
  | a :: sub', b :: s' => (a =? b)%N && startswith sub' s'
  | _ :: _, [] => false
  end.

(** [s.find(sub)]: the lowest index where [sub] starts, [None] for [-1]. *)
Fixpoint find (sub s : text) : option nat :=
  if startswith sub s then Some O
  else match s with
       | [] => None
       | _ :: s' => S <$> find sub s'
       end.

(** Python's index clamping of a slice bound. *)
Definition slice_bound (len i : Z) : Z :=
  if i <? 0 then Z.max 0 (len + i) else Z.min i len.

(** [s[a:b]]. *)
Definition slice (s : text) (a b : Z) : text :=
  let len := Z.of_nat (length s) in
  let a' := slice_bound len a in
  let b' := slice_bound len b in
  take (Z.to_nat (b' - a')) (drop (Z.to_nat a') s).

(** [s[:b]]. *)
Definition slice_to (s : text) (b : Z) : text := slice s 0 b.

(** [re.findall(r"\w+", s)] for a given classification of word
    characters: the maximal runs of word characters, left to right.
    [cur] is the run being read, innermost last character first. *)
Fixpoint findall_words (isword : N → bool) (s : text) (cur : text) : list text :=
  match s with
  | [] => match cur with [] => [] | _ => [rev cur] end
  | c :: s' =>
      if isword c then findall_words isword s' (c :: cur)
      else match cur with
           | [] => findall_words isword s' []
           | _ => rev cur :: findall_words isword s' []
           end
  end.

(** The ellipsis U+2026. *)
Definition ellipsis : N := 8230%N.

(** ASCII instances of the Unicode tables, exact on ASCII input. *)
Definition ascii_isalnum (c : N) : bool :=
  ((48 <=? c) && (c <=? 57) || (65 <=? c) && (c <=? 90) || (97 <=? c) && (c <=? 122))%N.

Definition ascii_lower_char (c : N) : N :=
  if ((65 <=? c) && (c <=? 90))%N then (c + 32)%N else c.

Definition ascii_lower (s : text) : text := map ascii_lower_char s.

(** The code points of an ASCII literal. *)
Definition of_string (s : string) : text :=
  map (λ a, N_of_ascii a) (String.list_ascii_of_string s).

End PyStr.

(* ===================================================================== *)
(** * The snapshot tree on disk *)
(* ===================================================================== *)

Module FS.
Import Pathlib.

(** What a path holds: a regular file with its text, or a directory. *)
Inductive node :=
| File (content : text)
| Dir.

#[export] Instance node_eq_dec : EqDecision node.
Proof. solve_decision. Defined.

(** A file system: the entries that exist, by resolved path. *)
Abbreviation fs := (gmap path node).

(** [Path.exists()]. *)
Definition exists_ (m : fs) (p : path) : bool :=
  match m !! p with Some _ => true | None => false end.

(** The entries directly inside [d]. *)
Definition children (m : fs) (d : path) : list path :=
  filter (λ q, q ≠ [] ∧ parent q = d) (elements (dom m)).

(** [Path.unlink()]: [None] is the [OSError] (missing, or a directory). *)
Definition unlink (m : fs) (p : path) : option fs :=
  match m !! p with
  | Some (File _) => Some (delete p m)
  | _ => None
  end.

(** [Path.rmdir()]: [None] is the [OSError] (missing, not a directory, or
    not empty). *)
Definition rmdir (m : fs) (d : path) : option fs :=
  match m !! d with
  | Some Dir => if decide (children m d = []) then Some (delete d m) else None
  | _ => None
  end.

(** [markdown_root != current_dir and markdown_root in current_dir.parents]:
    [markdown_root] is a proper ancestor of [current_dir]. *)
Definition below (markdown_root current_dir : path) : bool :=
  bool_decide (markdown_root ≠ current_dir ∧ markdown_root `prefix_of` current_dir).

(** The [while] loop of [_prune_empty_markdown_dirs], with the number of
    iterations bounded by [fuel]; every iteration shortens [current_dir]. *)
Fixpoint prune_loop (fuel : nat) (m : fs) (current_dir markdown_root : path) : fs :=
  match fuel with
  | O => m
  | S fuel' =>
      if below markdown_root current_dir then
        match rmdir m current_dir with
        | None => m                       (* except OSError: break *)
        | Some m' => prune_loop fuel' m' (parent current_dir) markdown_root
        end
      else m
  end.

(** [_prune_empty_markdown_dirs]: the loop stops before [current_dir] runs
    out of components, so its length is enough fuel. *)
Definition _prune_empty_markdown_dirs (m : fs) (current_dir markdown_root : path) : fs :=
  prune_loop (length current_dir) m current_dir markdown_root.

(** [_delete_markdown_snapshot]; [None] is the [ValueError] of
    [with_suffix], which the method does not catch. *)
Definition _delete_markdown_snapshot (m : fs) (file markdown_dir root : path) : option fs :=
  match snapshot_delete_path file markdown_dir root with
  | Outside => Some m                             (* except ValueError: return *)
  | Invalid => None
  | Snapshot snapshot =>
      if exists_ m snapshot then
        match unlink m snapshot with
        | Some m' => Some (_prune_empty_markdown_dirs m' (parent snapshot) markdown_dir)
        | None => Some m                          (* except OSError: pass *)
        end
      else Some m
  end.

(** The directories from [markdown_root ++ dirs] up to, and without,
    [markdown_root]: deepest first. *)
Fixpoint chain_aux (n : nat) (markdown_root : path) (dirs : list string) : list path :=
  match n with
  | O => []
  | S n' =>
      match dirs with
      | [] => []
      | _ => (markdown_root ++ dirs) :: chain_aux n' markdown_root (removelast dirs)
      end
  end.

Definition chain (markdown_root : path) (dirs : list string) : list path :=
  chain_aux (length dirs) markdown_root dirs.

(** Removing entries one after the other. *)
Definition delete_all (ps : list path) (m : fs) : fs :=
  foldl (λ m p, delete p m) m ps.

(** [Path.mkdir(parents=True, exist_ok=True)] below [base]: every missing
    directory on the way is created; [None] is the [OSError] raised when a
    component exists and is not a directory. *)
Fixpoint mkdir_from (m : fs) (base : path) (rest : list string) : option fs :=
  match rest with
  | [] => Some m
  | c :: rest' =>
      let d := base ++ [c] in
      match m !! d with
      | Some Dir => mkdir_from m d rest'
      | Some (File _) => None
      | None => mkdir_from (<[d := Dir]> m) d rest'
      end
  end.

Definition mkdir_parents (m : fs) (d : path) : option fs := mkdir_from m [] d.

(** [Path.write_text(text)]: [None] is the [OSError] (the target is a
    directory, or its parent is not one). *)
Definition write_text (m : fs) (p : path) (t : text) : option fs :=
  match m !! p with
  | Some Dir => None
  | _ =>
      match p with
      | [] => None
      | _ =>
          match parent p, m !! parent p with
          | [], _ | _, Some Dir => Some (<[p := File t]> m)
          | _, _ => None
          end
      end
  end.

End FS.

(* ===================================================================== *)
(** * DocIndexer: worker pools, embedding generation, the reindex pass *)
(* ===================================================================== *)

Module Indexer.
Import Pathlib FS.

(** ** Constants of the class *)

Definition _ARCHIVE_EXTENSIONS : list string := [".zip"; ".tar"; ".gz"; ".bz2"; ".xz"].
Definition _MAX_ARCHIVE_SIZE_BYTES : Z := 50 * 1024 * 1024.
Definition _CONVERSION_STARTUP_BUFFER : Z := 15.
Definition _EMBEDDING_STARTUP_BUFFER : Z := 20.
Definition fast_formats : list string :=
  [".txt"; ".md"; ".json"; ".csv"; ".html"; ".htm"; ".xml"].

(** ** Data *)

Abbreviation bytes := (list Byte.byte).

(** What [_convert_file_subprocess] and the inline [markitdown.convert]
    produce. *)
Inductive conversion :=
| ConvSuccess (text_content : text)
| ConvUnsupported (msg : string)
| ConvError (msg : string).

(** What [_encode_text_subprocess] returns. *)
Inductive encoding :=
| EncSuccess (embedding : bytes)
| EncError (msg : string).

(** [future.result(timeout=...)]: the task's value, [FuturesTimeoutError],
    or any other exception raised by [submit] or [result]. *)
Inductive waited (A : Type) :=
| Result (a : A)
| Timeout
| Exception.
Arguments Result {A} a.
Arguments Timeout {A}.
Arguments Exception {A}.

Inductive pool := ConversionPool | EmbeddingPool.

Inductive task :=
| Convert (file : path)
| Encode (text_content : text) (model_name : string).

(** A row of the [embeddings] table, without its key [file_path]. *)
Record row := mkRow {
  file_hash : string;
  embedding_vector : bytes;
  last_updated : string;
  file_extension : string;
}.

(** What the indexer does that an observer can see, oldest first. *)
Inductive event :=
| PoolCreated (k : pool) (max_workers : nat) (id : nat)
| Submitted (k : pool) (id : nat) (t : task) (timeout : Z)
| Progress (file : path)                    (* progress_callback(file_path) *)
| SqlDelete (file : path)                   (* cursor.execute("DELETE ...") *)
| SqlInsert (file : path) (r : row)         (* cursor.execute("INSERT ...") *)
| SqlUpdate (file : path) (r : row)         (* cursor.execute("UPDATE ...") *)
| Commit                                    (* conn.commit() returned *)
| Rollback.                                 (* conn.rollback() *)

(** The collaborators. A pool's answer may depend on everything that
    happened before ([list event]), on the pool it is submitted to and on
    the time the caller is willing to wait. *)
Record World := mkWorld {
  stat_size : path → option Z;                              (* None: OSError *)
  markitdown_convert : path → conversion;
  pool_convert : list event → nat → path → Z → waited conversion;
  pool_encode : list event → nat → text → string → Z → waited encoding;
  utc_now : list event → string;
  commit_succeeds : list event → bool;
  set_order : path → nat;            (* iteration order of a Python set *)
}.

(** The fields of [DocIndexer] the pass reads and writes; [events] is the
    observer's log. An executor is named by the number it was created
    with. *)
Record DocIndexer := mkIndexer {
  _conversion_warmup_used : bool;
  _conversion_executor : option nat;
  _embedding_warmup_used : bool;
  _embedding_executor : option nat;
  _embedding_model_name : string;
  events : list event;
}.

(** [DocIndexer.__init__]. *)
Definition __init__ : DocIndexer :=
  mkIndexer false None false None "all-MiniLM-L6-v2" [].

Definition log (e : event) (ix : DocIndexer) : DocIndexer :=
  mkIndexer (_conversion_warmup_used ix) (_conversion_executor ix)
            (_embedding_warmup_used ix) (_embedding_executor ix)
            (_embedding_model_name ix) (events ix ++ [e]).

Definition set_conversion (warm : bool) (ex : option nat) (ix : DocIndexer) : DocIndexer :=
  mkIndexer warm ex (_embedding_warmup_used ix) (_embedding_executor ix)
            (_embedding_model_name ix) (events ix).

Definition set_embedding (warm : bool) (ex : option nat) (ix : DocIndexer) : DocIndexer :=
  mkIndexer (_conversion_warmup_used ix) (_conversion_executor ix) warm ex
            (_embedding_model_name ix) (events ix).

(** ** The pools *)

(** [_ensure_conversion_executor]: [ProcessPoolExecutor(max_workers=2)]. *)
Definition _ensure_conversion_executor (ix : DocIndexer) : DocIndexer * nat :=
  match _conversion_executor ix with
  | Some ex => (ix, ex)
  | None =>
      let ex := length (events ix) in
      (log (PoolCreated ConversionPool 2 ex)
           (set_conversion (_conversion_warmup_used ix) (Some ex) ix), ex)
  end.

(** [_ensure_embedding_executor]: [ProcessPoolExecutor(max_workers=1)]. *)
Definition _ensure_embedding_executor (ix : DocIndexer) : DocIndexer * nat :=
  match _embedding_executor ix with
  | Some ex => (ix, ex)
  | None =>
      let ex := length (events ix) in
      (log (PoolCreated EmbeddingPool 1 ex)
           (set_embedding (_embedding_warmup_used ix) (Some ex) ix), ex)
  end.

Definition _shutdown_conversion_executor (ix : DocIndexer) : DocIndexer :=
  set_conversion (_conversion_warmup_used ix) None ix.

Definition _shutdown_embedding_executor (ix : DocIndexer) : DocIndexer :=
  set_embedding (_embedding_warmup_used ix) None ix.

(** [_convert_to_markdown]: the text, or [None] when the file is to be
    skipped. *)
Definition _convert_to_markdown (W : World) (ix : DocIndexer) (file : path) (timeout : Z)
  : DocIndexer * option text :=
  let '(ix, executor) := _ensure_conversion_executor ix in
  let effective_timeout :=
    if _conversion_warmup_used ix then timeout
    else timeout + _CONVERSION_STARTUP_BUFFER in
  let answer := pool_convert W (events ix) executor file effective_timeout in
  let ix := log (Submitted ConversionPool executor (Convert file) effective_timeout) ix in
  match answer with
  | Result (ConvSuccess data) => (set_conversion true (_conversion_executor ix) ix, Some data)
  | Result (ConvUnsupported _) => (ix, None)
  | Result (ConvError _) => (ix, None)
  | Timeout => (set_conversion false None ix, None)
  | Exception => (ix, None)
  end.

(** [_encode_with_timeout]: the embedding, or [None]. *)
Definition _encode_with_timeout (W : World) (ix : DocIndexer) (text_content : text) (timeout : Z)
  : DocIndexer * option bytes :=
  let '(ix, executor) := _ensure_embedding_executor ix in
  let effective_timeout :=
    if _embedding_warmup_used ix then timeout
    else timeout + _EMBEDDING_STARTUP_BUFFER in
  let answer :=
    pool_encode W (events ix) executor text_content (_embedding_model_name ix)
                effective_timeout in
  let ix := log (Submitted EmbeddingPool executor
                   (Encode text_content (_embedding_model_name ix)) effective_timeout) ix in
  match answer with
  | Result (EncSuccess data) => (set_embedding true (_embedding_executor ix) ix, Some data)
  | Result (EncError _) => (ix, None)
  | Timeout => (set_embedding false None ix, None)
  | Exception => (ix, None)
  end.

(** The text of the warm-up encoding. *)
Definition warmup_text : text := PyStr.of_string "warmup test".

(** [_warmup_process_pools]. The value the task returns is not looked at;
    a timeout or any other exception is logged and swallowed. *)
Definition _warmup_process_pools (W : World) (ix : DocIndexer) : DocIndexer :=
  let '(ix, embedding_executor) := _ensure_embedding_executor ix in
  let answer :=
    pool_encode W (events ix) embedding_executor warmup_text (_embedding_model_name ix)
                _EMBEDDING_STARTUP_BUFFER in
  let ix := log (Submitted EmbeddingPool embedding_executor
                   (Encode warmup_text (_embedding_model_name ix))
                   _EMBEDDING_STARTUP_BUFFER) ix in
  match answer with
  | Result _ => set_embedding true (_embedding_executor ix) ix
  | Timeout => ix
  | Exception => ix
  end.

(** ** One file: conversion, snapshot, embedding *)

(** [str.lower()] on the ASCII letters of a name. *)
Definition lower_ascii (a : Ascii.ascii) : Ascii.ascii :=
  let n := Ascii.nat_of_ascii a in
  if (65 <=? n)%nat && (n <=? 90)%nat then Ascii.ascii_of_nat (n + 32) else a.

Fixpoint lower_name (s : string) : string :=
  match s with
  | EmptyString => EmptyString
  | String a s' => String (lower_ascii a) (lower_name s')
  end.

(** What [_generate_embedding] hands back: the embedding, [None], or an
    exception it does not catch ([with_suffix], [mkdir]). *)
Inductive generated :=
| Embedding (embedding : bytes)
| NoEmbedding
| Raised.

(** Lines 531-548 of [_generate_embedding]: the inline conversion of the
    cheap formats, the conversion pool for everything else; [None] when the
    file is to be skipped. *)
Definition convert_file (W : World) (ix : DocIndexer) (file : path) (timeout : Z)
  : DocIndexer * option text :=
  if bool_decide (lower_name (suffix file) ∈ fast_formats) then
    match markitdown_convert W file with
    | ConvSuccess text_content => (ix, Some text_content)
    | ConvUnsupported _ => (ix, None)
    | ConvError _ => (ix, None)
    end
  else _convert_to_markdown W ix file timeout.

(** Lines 514-529: an archive above the size limit, or one whose size
    cannot be read. *)
Definition oversized_archive (W : World) (file : path) : bool :=
  let archive_size :=
    match stat_size W file with
    | Some size => size
    | None => _MAX_ARCHIVE_SIZE_BYTES + 1
    end in
  bool_decide (lower_name (suffix file) ∈ _ARCHIVE_EXTENSIONS)
  && (archive_size >? _MAX_ARCHIVE_SIZE_BYTES).

(** [_generate_embedding]. *)
Definition _generate_embedding (W : World) (ix : DocIndexer) (m : fs)
    (file markdown_dir root : path) (timeout : Z) : DocIndexer * fs * generated :=
  match snapshot_write_path file markdown_dir root with
  | None => (ix, m, Raised)
  | Some markdown_path =>
      match mkdir_parents m (parent markdown_path) with
      | None => (ix, m, Raised)
      | Some m =>
          if oversized_archive W file then (ix, m, NoEmbedding)
          else
            match convert_file W ix file timeout with
            | (ix, None) => (ix, m, NoEmbedding)
            | (ix, Some text_content) =>
                match PyStr.strip text_content with
                | [] => (ix, m, NoEmbedding)
                | _ =>
                    let m :=
                      match write_text m markdown_path text_content with
                      | Some m' => m'
                      | None => m                     (* except OSError: pass *)
                      end in
                    match _encode_with_timeout W ix text_content timeout with
                    | (ix, None) => (ix, m, NoEmbedding)
                    | (ix, Some embedding) => (ix, m, Embedding embedding)
                    end
                end
            end
      end
  end.

(** ** The vector store behind one connection *)

(** [persistent] is the table as committed; [staged] is the table as the
    connection's open transaction sees it. *)
Record connection := mkConn {
  persistent : gmap path row;
  staged : gmap path row;
}.

(** [sqlite3.connect(embeddings_path)]. *)
Definition connect (table : gmap path row) : connection := mkConn table table.

(** [DELETE FROM embeddings WHERE file_path = ?]. *)
Definition sql_delete (file : path) (c : connection) : connection :=
  mkConn (persistent c) (delete file (staged c)).

(** [INSERT INTO embeddings ...]; [None] is the [IntegrityError] of the
    primary key. *)
Definition sql_insert (file : path) (r : row) (c : connection) : option connection :=
  match staged c !! file with
  | Some _ => None
  | None => Some (mkConn (persistent c) (<[file := r]> (staged c)))
  end.

(** [UPDATE embeddings SET ... WHERE file_path = ?]. *)
Definition sql_update (file : path) (r : row) (c : connection) : connection :=
  match staged c !! file with
  | Some _ => mkConn (persistent c) (<[file := r]> (staged c))
  | None => c
  end.

(** ** The pass *)

Record state := mkState {
  indexer : DocIndexer;
  disk : fs;
  conn : connection;
}.

Definition note (e : event) (st : state) : state :=
  mkState (log e (indexer st)) (disk st) (conn st).

(** A scanned file: [(file_path, file_hash, file_extension)]. *)
Abbreviation scanned := (path * string * string)%type.

(** The body of the loop over [files_to_remove]; [None] when
    [_delete_markdown_snapshot] raises. *)
Definition remove_file (markdown_dir root : path) (st : state) (file : path) : option state :=
  let st := mkState (log (SqlDelete file) (indexer st)) (disk st)
                    (sql_delete file (conn st)) in
  match _delete_markdown_snapshot (disk st) file markdown_dir root with
  | Some m => Some (mkState (indexer st) m (conn st))
  | None => None
  end.

Fixpoint remove_files (markdown_dir root : path) (st : state) (files : list path)
  : state * bool :=
  match files with
  | [] => (st, true)
  | file :: files' =>
      match remove_file markdown_dir root st file with
      | Some st' => remove_files markdown_dir root st' files'
      | None => (st, false)
      end
  end.

(** The body of the loop over [file_list]; the flag is [false] when an
    exception leaves the loop. [callback] says whether a
    [progress_callback] was given. *)
Definition process_file (W : World) (db_file_hashes : gmap path string)
    (markdown_dir root : path) (conversion_timeout : Z) (callback : bool)
    (st : state) (entry : scanned) : state * bool :=
  let '(file_path, file_hash, file_ext) := entry in
  match db_file_hashes !! file_path with
  | None =>
      match _generate_embedding W (indexer st) (disk st) file_path markdown_dir root
                                conversion_timeout with
      | (ix, m, Raised) => (mkState ix m (conn st), false)
      | (ix, m, NoEmbedding) => (mkState ix m (conn st), true)          (* continue *)
      | (ix, m, Embedding embedding) =>
          let ix := if callback then log (Progress file_path) ix else ix in
          let timestamp := utc_now W (events ix) in
          let r := mkRow file_hash embedding timestamp file_ext in
          match sql_insert file_path r (conn st) with
          | Some c => (mkState (log (SqlInsert file_path r) ix) m c, true)
          | None => (mkState ix m (conn st), false)
          end
      end
  | Some db_hash =>
      if negb (String.eqb db_hash file_hash) then
        match _generate_embedding W (indexer st) (disk st) file_path markdown_dir root
                                  conversion_timeout with
        | (ix, m, Raised) => (mkState ix m (conn st), false)
        | (ix, m, NoEmbedding) => (mkState ix m (conn st), true)        (* continue *)
        | (ix, m, Embedding embedding) =>
            let ix := if callback then log (Progress file_path) ix else ix in
            let timestamp := utc_now W (events ix) in
            let r := mkRow file_hash embedding timestamp file_ext in
            (mkState (log (SqlUpdate file_path r) ix) m
                     (sql_update file_path r (conn st)), true)
        end
      else (st, true)
  end.

Fixpoint process_files (W : World) (db_file_hashes : gmap path string)
    (markdown_dir root : path) (conversion_timeout : Z) (callback : bool)
    (st : state) (file_list : list scanned) : state * bool :=
  match file_list with
  | [] => (st, true)
  | entry :: file_list' =>
      match process_file W db_file_hashes markdown_dir root conversion_timeout
                         callback st entry with
      | (st', true) =>
          process_files W db_file_hashes markdown_dir root conversion_timeout
                        callback st' file_list'
      | (st', false) => (st', false)
      end
  end.

(** How [_update_database] ends. *)
Inductive ending :=
| Completed          (* the commit went through *)
| CommitFailed       (* sqlite3.Error at commit: rolled back and re-raised *)
| Escaped.           (* an exception left a loop: no commit, no rollback;
                        the connection is dropped with its transaction *)

(** The order in which a Python set yields its elements. *)
Definition iterates_before (W : World) (a b : path) : Prop :=
  (set_order W a ≤ set_order W b)%nat.

#[export] Instance iterates_before_dec W a b : Decision (iterates_before W a b).
Proof. unfold iterates_before. apply _. Defined.

(** [set(db_file_hashes.keys()) - scanned_files], in the order the set
    iterates. *)
Definition files_to_remove (W : World) (db_file_hashes : gmap path string)
    (file_list : list scanned) : list path :=
  let scanned_files : gset path := list_to_set (file_list.*1.*1) in
  merge_sort (iterates_before W)
             (elements (dom db_file_hashes ∖ scanned_files)).

(** The [try: conn.commit() except sqlite3.Error: ... conn.rollback(); raise]. *)
Definition commit (W : World) (st : state) : state * ending :=
  if commit_succeeds W (events (indexer st)) then
    (mkState (log Commit (indexer st)) (disk st)
             (mkConn (staged (conn st)) (staged (conn st))), Completed)
  else
    (mkState (log Rollback (indexer st)) (disk st)
             (mkConn (persistent (conn st)) (persistent (conn st))), CommitFailed).

(** A connection dropped with an open transaction: nothing is written. *)
Definition drop_connection (st : state) : state :=
  mkState (indexer st) (disk st) (mkConn (persistent (conn st)) (persistent (conn st))).

(** [_update_database]. [table] is the content of the [embeddings] table
    when the connection is opened. *)
Definition _update_database (W : World) (ix : DocIndexer) (m : fs) (table : gmap path row)
    (file_list : list scanned) (markdown_dir root : path) (conversion_timeout : Z)
    (callback : bool) : state * ending :=
  let st := mkState ix m (connect table) in
  let db_file_hashes := file_hash <$> staged (conn st) in
  match remove_files markdown_dir root st (files_to_remove W db_file_hashes file_list) with
  | (st, false) => (drop_connection st, Escaped)
  | (st, true) =>
      let st := mkState (_warmup_process_pools W (indexer st)) (disk st) (conn st) in
      match process_files W db_file_hashes markdown_dir root conversion_timeout
                          callback st file_list with
      | (st, false) => (drop_connection st, Escaped)
      | (st, true) => commit W st
      end
  end.

(** Lines 240-251 of [reindex]: [_update_database] inside
    [try: ... finally:] with the two shutdowns; the ending is the caller's. *)
Definition reindex_update (W : World) (ix : DocIndexer) (m : fs) (table : gmap path row)
    (file_list : list scanned) (markdown_dir root : path) (conversion_timeout : Z)
    (callback : bool) : state * ending :=
  let '(st, e) := _update_database W ix m table file_list markdown_dir root
                                   conversion_timeout callback in
  (mkState (_shutdown_embedding_executor (_shutdown_conversion_executor (indexer st)))
           (disk st) (conn st), e).

End Indexer.

(* ===================================================================== *)
(** * Reading the observer's log *)
(* ===================================================================== *)

Module Trace.
Import Indexer.

(** Pool housekeeping, as opposed to what the caller and the store see. *)
Definition is_pool_event (e : event) : bool :=
  match e with
  | PoolCreated _ _ _ | Submitted _ _ _ _ => true
  | _ => false
  end.

(** The log without pool housekeeping. *)
Definition visible (evs : list event) : list event :=
  filter (λ e, is_pool_event e = false) evs.

(** The effect of one logged statement on a table. *)
Definition apply_sql (table : gmap path row) (e : event) : gmap path row :=
  match e with
  | SqlDelete file => delete file table
  | SqlInsert file r => <[file := r]> table
  | SqlUpdate file r =>
      match table !! file with
      | Some _ => <[file := r]> table
      | None => table
      end
  | _ => table
  end.

(** The table after all logged statements, oldest first. *)
Definition replay (evs : list event) (table : gmap path row) : gmap path row :=
  foldl apply_sql table evs.

(** [INSERT] for a new file, [UPDATE] for a changed one. *)
Inductive staging := Inserted | Updated.

Definition stage_event (k : staging) (file : path) (r : row) : event :=
  match k with
  | Inserted => SqlInsert file r
  | Updated => SqlUpdate file r
  end.

(** Whether the stored hash asks for an [INSERT], an [UPDATE] or nothing. *)
Definition needs (db_file_hashes : gmap path string) (file : path) (h : string)
  : option staging :=
  match db_file_hashes !! file with
  | None => Some Inserted
  | Some db_hash => if negb (String.eqb db_hash h) then Some Updated else None
  end.

(** Neither [Commit] nor [Rollback]. *)
Definition inside_transaction (e : event) : bool :=
  match e with
  | Commit | Rollback => false
  | _ => true
  end.

(** The callback and the statement of each staged file, in order. *)
Definition callback_then_statement (done : list (staging * path * row)) : list event :=
  flat_map (λ d, [Progress d.1.2; stage_event d.1.1 d.1.2 d.2]) done.

(** The events appended to a log of length [n]. *)
Definition since (n : nat) (evs : list event) : list event := drop n evs.

End Trace.

(* ===================================================================== *)
(** * Why a file is skipped *)
(* ===================================================================== *)

Module Reasons.
Import Pathlib Indexer.

(** The answer the conversion of [file] gets. A format of [fast_formats]
    is converted inline, and the answer is what [markitdown.convert] gives.
    Any other format goes as a task to the conversion pool, the one the
    indexer holds or a new one, and the answer is what that pool gives
    within the time the indexer waits: the base timeout, and the startup
    buffer on top while the pool is cold. *)
Definition conversion_answer (W : World) (ix : DocIndexer) (file : path) (timeout : Z)
  : waited conversion :=
  if bool_decide (lower_name (suffix file) ∈ fast_formats) then
    Result (markitdown_convert W file)
  else
    let '(ix0, executor) := _ensure_conversion_executor ix in
    pool_convert W (events ix0) executor file
      (if _conversion_warmup_used ix then timeout
       else timeout + _CONVERSION_STARTUP_BUFFER).

(** The answer the embedding pool gives to the task of encoding
    [text_content], within the time the indexer waits. *)
Definition embedding_answer (W : World) (ix : DocIndexer) (text_content : text)
    (timeout : Z) : waited encoding :=
  let '(ix0, executor) := _ensure_embedding_executor ix in
  pool_encode W (events ix0) executor text_content (_embedding_model_name ix)
    (if _embedding_warmup_used ix then timeout
     else timeout + _EMBEDDING_STARTUP_BUFFER).

(** A failure or timeout in conversion or embedding, for the file [file]
    handled by an indexer in state [ix], said by what the file and the
    workers do:
    - the file is an archive above the size limit, or one whose size
      cannot be read;
    - the conversion is not answered by a text: the format is unsupported,
      the converter reports an error, the pool runs into the timeout or
      raises;
    - the converted text is empty or only white space;
    - the embedding pool, asked once the conversion is over, does not
      answer by a vector: it reports an error, runs into the timeout or
      raises. *)
Inductive skip_reason (W : World) (ix : DocIndexer) (file : path) (timeout : Z) : Prop :=
| OversizedArchive :
    lower_name (suffix file) ∈ _ARCHIVE_EXTENSIONS →
    (∀ size, stat_size W file = Some size → size > _MAX_ARCHIVE_SIZE_BYTES) →
    skip_reason W ix file timeout
| ConversionFailed :
    (∀ text_content,
       conversion_answer W ix file timeout ≠ Result (ConvSuccess text_content)) →
    skip_reason W ix file timeout
| EmptyText (text_content : text) :
    conversion_answer W ix file timeout = Result (ConvSuccess text_content) →
    PyStr.strip text_content = [] →
    skip_reason W ix file timeout
| EmbeddingFailed (text_content : text) :
    conversion_answer W ix file timeout = Result (ConvSuccess text_content) →
    (∀ embedding,
       embedding_answer W (convert_file W ix file timeout).1 text_content timeout
       ≠ Result (EncSuccess embedding)) →
    skip_reason W ix file timeout.

End Reasons.

(* ===================================================================== *)
(** * Worlds to run the code in *)
(* ===================================================================== *)

Module Worlds.
Import Indexer.

(** [quiet_world] converts and encodes everything at once. *)
Definition quiet_world : World :=
  mkWorld (λ _, Some 10)
          (λ _, ConvSuccess (PyStr.of_string "hello"))
          (λ _ _ _ _, Result (ConvSuccess (PyStr.of_string "pdf text")))
          (λ _ _ _ _ _, Result (EncSuccess [Byte.x01]))
          (λ evs, "2026-01-01T00:00:00+00:00") (λ _, true) (λ _, 0%nat).

(** [stuck_world]: every pool task runs into its timeout. *)
Definition stuck_world : World :=
  mkWorld (λ _, Some 10)
          (λ _, ConvSuccess (PyStr.of_string "hello"))
          (λ _ _ _ _, Timeout)
          (λ _ _ _ _ _, Timeout)
          (λ evs, "2026-01-01T00:00:00+00:00") (λ _, true) (λ _, 0%nat).

(** [heavy_world]: as [quiet_world], with every file 60 MiB large. *)
Definition heavy_world : World :=
  mkWorld (λ _, Some (60 * 1024 * 1024))
          (λ _, ConvSuccess (PyStr.of_string "hello"))
          (λ _ _ _ _, Result (ConvSuccess (PyStr.of_string "pdf text")))
          (λ _ _ _ _ _, Result (EncSuccess [Byte.x01]))
          (λ evs, "2026-01-01T00:00:00+00:00") (λ _, true) (λ _, 0%nat).

(** A world whose inline converter rejects every file. *)
Definition picky_world : World :=
  mkWorld (λ _, Some 10)
          (λ _, ConvUnsupported "no converter")
          (λ _ _ _ _, Result (ConvSuccess (PyStr.of_string "pdf text")))
          (λ _ _ _ _ _, Result (EncSuccess [Byte.x01]))
          (λ evs, "2026-01-01T00:00:00+00:00") (λ _, true) (λ _, 0%nat).

End Worlds.

(* ===================================================================== *)
(** * The temporary workspace: [_prepare_temp_path] *)
(* ===================================================================== *)

Module TempDir.
Import Pathlib.

(** What a top-level entry of the temp directory is, as [os.path] sees it. *)
Inductive kind :=
| RegularFile
| Directory
| LinkToFile          (* a symlink to a regular file *)
| LinkToDirectory     (* a symlink to a directory *)
| BrokenLink          (* a symlink to nothing *)
| Special.            (* a FIFO, socket or device *)

#[export] Instance kind_eq_dec : EqDecision kind.
Proof. solve_decision. Defined.

(** [os.path.exists], [islink], [isfile], [isdir]. *)
Definition exists_ (k : kind) : bool :=
  match k with BrokenLink => false | _ => true end.
Definition islink (k : kind) : bool :=
  match k with LinkToFile | LinkToDirectory | BrokenLink => true | _ => false end.
Definition isfile (k : kind) : bool :=
  match k with RegularFile | LinkToFile => true | _ => false end.
Definition isdir (k : kind) : bool :=
  match k with Directory | LinkToDirectory => true | _ => false end.

(** The entries of a directory, by name. *)
Abbreviation entries := (gmap string kind).

(** What [temp_path] is when [_prepare_temp_path] is called, and after. *)
Inductive temp_state :=
| Absent
| NotADirectory
| IsDirectory (content : entries).

(** How [_prepare_temp_path] ends. *)
Inductive prepared :=
| MarkdownDir (markdown_dir : path)   (* the return value *)
| ValueError                          (* "Temp path must be a directory" *)
| RuntimeError                        (* "... is not managed by Help Chat" *)
| OSError.                            (* [os.makedirs] on [_markdown] *)

Definition sentinel_name : string := ".help_chat_temp".
Definition _LOG_FILE_NAME : string := "program_debug.log".
Definition markdown_name : string := "_markdown".

(** [os.listdir]. *)
Definition listdir (m : entries) : list string := (map_to_list m).*1.

(** [os.unlink] inside [try: ... except OSError: pass]: a directory (or a
    missing entry) makes it raise, and the entry stays. *)
Definition try_unlink (item : string) (m : entries) : entries :=
  match m !! item with
  | Some Directory | None => m
  | Some _ => delete item m
  end.

(** Lines 326-335: [os.unlink] for a link or a file, [shutil.rmtree] for a
    directory, nothing for anything else. *)
Definition remove_artifact (item : string) (m : entries) : entries :=
  match m !! item with
  | Some k =>
      if islink k then delete item m
      else if isfile k then delete item m
      else if isdir k then delete item m
      else m
  | None => m
  end.

(** Lines 303-307: [embeddings_abs.startswith(temp_abs + os.sep) or
    embeddings_abs == temp_abs], on normalised absolute paths. *)
Definition inside_temp (temp_abs embeddings_abs : path) : bool :=
  bool_decide (temp_abs ≠ [] ∧ temp_abs ≠ embeddings_abs
               ∧ temp_abs `prefix_of` embeddings_abs)
  || bool_decide (embeddings_abs = temp_abs).

(** [embeddings_basename]: [None] unless the store path is inside. *)
Definition embeddings_basename (temp_abs embeddings_abs : path) : option string :=
  if inside_temp temp_abs embeddings_abs then Some (name embeddings_abs) else None.

(** [embeddings_basename and item == embeddings_basename]. *)
Definition protected (basename : option string) (item : string) : bool :=
  match basename with
  | Some b => negb (String.eqb b "") && String.eqb item b
  | None => false
  end.

(** Whether the loop of lines 311-335 leaves an entry of that name and
    kind in place. *)
Definition survives (basename : option string) (item : string) (k : kind) : bool :=
  if String.eqb item sentinel_name || String.eqb item markdown_name then true
  else if String.eqb item _LOG_FILE_NAME then bool_decide (k = Directory)
  else if protected basename item then true
  else negb (islink k || isfile k || isdir k).

(** The body of the loop of lines 311-335. *)
Definition cleanup_item (basename : option string) (m : entries) (item : string) : entries :=
  if String.eqb item sentinel_name || String.eqb item markdown_name then m
  else if String.eqb item _LOG_FILE_NAME then try_unlink item m
  else if protected basename item then m
  else remove_artifact item m.

Definition cleanup (basename : option string) (items : list string) (m : entries) : entries :=
  foldl (cleanup_item basename) m items.

(** [os.makedirs(markdown_dir, exist_ok=True)]. *)
Definition makedirs_markdown (m : entries) : option entries :=
  match m !! markdown_name with
  | None => Some (<[markdown_name := Directory]> m)
  | Some k => if isdir k then Some m else None
  end.

(** [os.path.exists(sentinel_path)]. *)
Definition sentinel_exists (m : entries) : bool :=
  match m !! sentinel_name with
  | Some k => exists_ k
  | None => false
  end.

(** Lines 277-297: accepting the directory. [None] is the [RuntimeError]. *)
Definition accept_directory (m : entries) : option entries :=
  if sentinel_exists m then Some m
  else
    let existing_items := listdir m in
    let removable_items := filter (λ item, item = _LOG_FILE_NAME) existing_items in
    if negb (length removable_items =? length existing_items)%nat then None
    else
      let m := foldl (λ m item, try_unlink item m) m removable_items in
      Some (<[sentinel_name := RegularFile]> m).         (* Path.touch() *)

(** [_prepare_temp_path]: the state of [temp_path] afterwards and the way
    the call ends. [temp_abs] and [embeddings_abs] are the two
    [os.path.abspath] values. *)
Definition _prepare_temp_path (t : temp_state) (temp_abs embeddings_abs : path)
  : temp_state * prepared :=
  let accepted :=
    match t with
    | Absent => inr (Some ({[ sentinel_name := RegularFile ]} : entries))
    | NotADirectory => inl ValueError
    | IsDirectory m => inr (accept_directory m)
    end in
  match accepted with
  | inl e => (t, e)
  | inr None => (t, RuntimeError)
  | inr (Some m) =>
      let basename := embeddings_basename temp_abs embeddings_abs in
      let m := cleanup basename (listdir m) m in
      match makedirs_markdown m with
      | Some m => (IsDirectory m, MarkdownDir (temp_abs ++ [markdown_name]))
      | None => (IsDirectory m, OSError)
      end
  end.

(** Entries the cleanup can remove: no FIFO, socket or device, and no
    directory under the name of the legacy log. *)
Definition removable_entries (m : entries) : bool :=
  forallb (λ nk : string * kind,
             negb (bool_decide (nk.2 = Special))
             && negb (String.eqb nk.1 _LOG_FILE_NAME && bool_decide (nk.2 = Directory)))
          (map_to_list m).

(** Where the store is, for the cleanup: outside the temp directory, or
    directly inside it under a name that is neither empty nor the log's. *)
Definition store_placed (temp_abs embeddings_abs : path) : Prop :=
  temp_abs ≠ []
  ∧ (inside_temp temp_abs embeddings_abs = false
     ∨ ∃ b, embeddings_abs = temp_abs ++ [b] ∧ b ≠ "" ∧ b ≠ _LOG_FILE_NAME).

End TempDir.

(* ===================================================================== *)
(** * The excerpt loader of the retriever *)
(* ===================================================================== *)

Module Excerpt.
Import PyStr Pathlib FS.

(** The fields of [LLM] the loader reads. *)
Record LLM := mkLLM {
  root_path : option path;
  temp_path : option path;
}.

(** [limit: int = 1500]. *)
Definition default_limit : Z := 1500.

(** What [re.findall(r"\w+", s)] is to return, said without the scanner:
    reading [s] from the left, a character that is no word character is
    passed over, and a word is a run of word characters that cannot be made
    longer, because the text ends or goes on with another character. The
    words come in the order of the text. *)
Inductive word_runs (isword : N → bool) : text → list text → Prop :=
| runs_end : word_runs isword [] []
| runs_skip (c : N) (s : text) (tokens : list text) :
    isword c = false → word_runs isword s tokens →
    word_runs isword (c :: s) tokens
| runs_word (token s : text) (tokens : list text) :
    token ≠ [] → Forall (λ c, isword c = true) token →
    (∀ c, head s = Some c → isword c = false) →
    word_runs isword s tokens →
    word_runs isword (token ++ s) (token :: tokens).

Section UnicodeTables.

(** Python's Unicode tables: [str.lower] and the alphanumeric characters
    that, with the underscore, make up [\w]. *)
Variable lower : text → text.
Variable isalnum : N → bool.

(** A character [\w] matches. *)
Definition isword (c : N) : bool := isalnum c || (c =? 95)%N.

(** [[token for token in re.findall(r"\w+", query.lower()) if len(token) > 3]]. *)
Definition keywords (query : text) : list text :=
  filter (λ token : text, (3 < length token)%nat) (findall_words isword (lower query) []).

(** The [for keyword in keywords] loop: the index of the first keyword, in
    the order of the query, that occurs in the text. *)
Fixpoint first_match (lower_text : text) (kws : list text) : option nat :=
  match kws with
  | [] => None
  | keyword :: kws' =>
      match find keyword lower_text with
      | Some idx => Some idx
      | None => first_match lower_text kws'
      end
  end.

(** Lines 369-376: the window around [match_index] with its markers. *)
Definition window (normalized : text) (match_index : Z) (limit : Z) : text :=
  let half_window := Z.max (limit `div` 2) 1 in
  let start := Z.max 0 (match_index - half_window) in
  let end_ := Z.min (Z.of_nat (length normalized)) (match_index + half_window) in
  let excerpt := slice normalized start end_ in
  let excerpt := if start >? 0 then ellipsis :: excerpt else excerpt in
  if end_ <? Z.of_nat (length normalized) then excerpt ++ [ellipsis] else excerpt.

(** Lines 378-380: the final strip and cut. *)
Definition cap (excerpt : text) (limit : Z) : text :=
  let excerpt := strip excerpt in
  if Z.of_nat (length excerpt) >? limit
  then rstrip (slice_to excerpt limit) ++ [ellipsis]
  else excerpt.

(** Lines 351-382 of [_load_markdown_excerpt]: from the text read to the
    excerpt. *)
Definition excerpt_of (raw_text query : text) (limit : Z) : text :=
  match strip raw_text with
  | [] => []
  | text0 =>
      let normalized := replace_crlf text0 in
      let lower_text := lower normalized in
      let excerpt :=
        match first_match lower_text (keywords query) with
        | None => slice_to normalized (limit * 2)
        | Some match_index => window normalized (Z.of_nat match_index) limit
        end in
      cap excerpt limit
  end.

(** [_load_markdown_excerpt]; [None] is the [ValueError] of [with_suffix],
    which nothing catches. A snapshot that is missing or cannot be read (a
    directory) gives the empty string. *)
Definition _load_markdown_excerpt (self : LLM) (m : fs) (file : path) (query : text)
    (limit : Z) : option text :=
  match root_path self, temp_path self with
  | Some root, Some temp =>
      match _resolve_markdown_path file temp root with
      | Outside => Some []
      | Invalid => None
      | Snapshot markdown_path =>
          match m !! markdown_path with
          | Some (File raw_text) => Some (excerpt_of raw_text query limit)
          | Some Dir => Some []
          | None => Some []
          end
      end
  | _, _ => Some []
  end.

End UnicodeTables.

End Excerpt.

(* ===================================================================== *)
(** * Scanning the source tree: extensions, hashes, the file list *)
(* ===================================================================== *)

(** [_parse_supported_extensions], [_calculate_file_hash] and [_scan_files]
    work on Python strings as they come from the configuration and from
    [os.walk]: here a file path is a text, not yet a resolved path. The
    path functions are those of [posixpath]. *)
Module Scan.
Import PyStr.

Definition comma : N := 44%N.
Definition extsep : N := 46%N.       (* "." *)
Definition sep : N := 47%N.          (* "/" *)

(** [s.split(c)] for a separator of one character: never empty. *)
Fixpoint split (c : N) (s : text) : list text :=
  match s with
  | [] => [[]]
  | a :: s' =>
      if (a =? c)%N then [] :: split c s'
      else match split c s' with
           | token :: tokens => (a :: token) :: tokens
           | [] => [[a]]
           end
  end.

(** [s.rfind(c)]: the index of the last occurrence, [None] for [-1]. *)
Fixpoint rfind (c : N) (s : text) : option nat :=
  match s with
  | [] => None
  | a :: s' =>
      match rfind c s' with
      | Some i => Some (S i)
      | None => if (a =? c)%N then Some O else None
      end
  end.

Definition index_or_minus_one (i : option nat) : Z :=
  match i with Some i => Z.of_nat i | None => -1 end.

(** [os.path.splitext(p)] ([genericpath._splitext] with ["/"] and ["."]):
    the extension starts at the last dot of the last component, unless only
    dots come before it in that component. *)
Definition splitext (p : text) : text * text :=
  let sepIndex := index_or_minus_one (rfind sep p) in
  let dotIndex := index_or_minus_one (rfind extsep p) in
  if dotIndex >? sepIndex then
    let filenameIndex := sepIndex + 1 in
    (* while filenameIndex < dotIndex: a character that is no dot ends
       the loop with the split *)
    if existsb (λ a, negb (a =? extsep)%N) (slice p filenameIndex dotIndex)
    then (slice p 0 dotIndex, drop (Z.to_nat dotIndex) p)
    else (p, [])
  else (p, []).

(** [s.endswith("/")]. *)
Definition ends_with_sep (s : text) : bool :=
  match last s with
  | Some a => (a =? sep)%N
  | None => false
  end.

(** [os.path.join(a, b)]. *)
Definition join (a b : text) : text :=
  if startswith [sep] b then b
  else if bool_decide (a = []) || ends_with_sep a then a ++ b
  else a ++ sep :: b.

(** The size of the blocks [_calculate_file_hash] reads. *)
Definition block_size : nat := 4096%nat.

(** [iter(lambda: f.read(4096), b"")] on a file holding [rest] from the
    current position on: the blocks read until the empty one. Every read
    of a non-empty block moves the position, so the length of the content
    plus one is enough [fuel]. *)
Fixpoint read_blocks (fuel : nat) (rest : list Byte.byte) : list (list Byte.byte) :=
  match fuel with
  | O => []
  | S fuel' =>
      match take block_size rest with
      | [] => []
      | byte_block => byte_block :: read_blocks fuel' (drop block_size rest)
      end
  end.

(** One directory of [os.walk]: [(root, dirs, files)]. *)
Abbreviation walked := (text * list text * list text)%type.

(** The source tree as the scan sees it. *)
Record Tree := mkTree {
  os_walk : text → list walked;
  open_rb : text → option (list Byte.byte);     (* None: OSError *)
}.

(** An entry of the file list: [(file_path, file_hash, file_extension)]. *)
Abbreviation entry := (text * string * text)%type.

Section Tables.

(** Python's [str.lower] and [hashlib.sha256(data).hexdigest()]. *)
Variable lower : text → text.
Variable sha256_hexdigest : list Byte.byte → string.

(** [token if token.startswith(".") else f".{token}"]. *)
Definition dotted (token : text) : text :=
  if startswith [extsep] token then token else extsep :: token.

(** [_parse_supported_extensions]; [None] is the [ValueError] (nothing
    given, or nothing but blank entries). *)
Definition _parse_supported_extensions (supported_extensions : option text)
  : option (gset text) :=
  match supported_extensions with
  | None => None
  | Some s =>
      let tokens :=
        (λ token, lower (strip token))
          <$> filter (λ token : text, token ≠ [] ∧ strip token ≠ []) (split comma s) in
      let normalized : gset text := list_to_set (dotted <$> tokens) in
      if decide (normalized = ∅) then None else Some normalized
  end.

(** The extensions a configuration string stands for: none when it is
    rejected. *)
Definition configured (supported_extensions : text) : gset text :=
  default ∅ (_parse_supported_extensions (Some supported_extensions)).

(** [_calculate_file_hash]: the hash object is fed block by block;
    feeding blocks one after the other is feeding their concatenation.
    [None] is the [OSError] of [open] or [read]. *)
Definition _calculate_file_hash (t : Tree) (file_path : text) : option string :=
  match open_rb t file_path with
  | Some content =>
      let fed := foldl (λ fed byte_block, fed ++ byte_block) []
                       (read_blocks (S (length content)) content) in
      Some (sha256_hexdigest fed)
  | None => None
  end.

(** The body of the inner loop of [_scan_files]. *)
Definition scan_file (t : Tree) (extensions_set : gset text) (root : text)
    (file_list : list entry) (file : text) : list entry :=
  let file_path := join root file in
  let file_ext := lower (splitext file).2 in
  if decide (file_ext ∈ extensions_set) then
    match _calculate_file_hash t file_path with
    | Some file_hash => file_list ++ [(file_path, file_hash, file_ext)]
    | None => file_list                        (* except (OSError, IOError): continue *)
    end
  else file_list.

(** [_scan_files]. *)
Definition _scan_files (t : Tree) (root_path : text) (extensions_set : gset text)
  : list entry :=
  foldl (λ file_list (w : walked), foldl (scan_file t extensions_set w.1.1) file_list w.2)
        [] (os_walk t root_path).

End Tables.

(** A tree for examples: [/r] holds [a.TXT], [README], [.hidden] and the
    unreadable [locked.txt]; [/r/sub] holds [b.tar.gz]. *)
Definition example_tree : Tree :=
  mkTree
    (λ _, [(of_string "/r", [of_string "sub"],
            [of_string "a.TXT"; of_string "README"; of_string ".hidden";
             of_string "locked.txt"]);
           (of_string "/r/sub", [], [of_string "b.tar.gz"])])
    (λ p, if bool_decide (p = of_string "/r/locked.txt") then None
          else Some [Byte.x68; Byte.x69]).

(** A stand-in for SHA-256 in examples: the number of bytes, in unary. *)
Definition example_digest (data : list Byte.byte) : string :=
  String.string_of_list_ascii (replicate (length data) "#"%char).

End Scan.

(* ===================================================================== *)
(** * The retriever: the documents most similar to a query *)
(* ===================================================================== *)

(** [HelpChat._retrieve_context] of [help_chat/llm.py]. The arithmetic on
    embeddings is numpy's and the priority queue is [heapq]'s: both are
    parameters, the first as the outcome for each stored vector, the second
    as the two operations the method calls. The method's own part is the
    selection: which rows enter the queue, which leave it, and what is
    returned. *)
Module Retrieval.

(** What lines 263-268 give for one stored vector and the query. *)
Inductive scored (score : Type) :=
| ZeroNorm                            (* stored_norm == 0.0: continue *)
| Similarity (similarity : score)
| Malformed.                          (* np.frombuffer or np.dot raises *)
Arguments ZeroNorm {score}.
Arguments Similarity {score} similarity.
Arguments Malformed {score}.

Section Heap.

(** The similarities ([float]) with Python's [>]. *)
Context {score : Type}.
Variable gt : score → score → bool.

(** An entry of the queue: [(similarity, file_path)]. *)
Abbreviation item := (score * text)%type.

(** [heapq.heappush], [heapq.heapreplace] and
    [sorted(heap, key=lambda item: item[0], reverse=True)]. *)
Variable heappush : list item → item → list item.
Variable heapreplace : list item → item → list item.
Variable sorted_by_score : list item → list item.

(** Lines 263-268 for the query at hand. *)
Variable compare_with_query : list Byte.byte → scored score.

(** Lines 270-273: the queue takes the row while it is not full, and
    afterwards only in place of its least entry, when the row is more
    similar than that one. *)
Definition offer (candidate_limit : Z) (heap : list item) (file_path : text)
    (similarity : score) : list item :=
  if Z.of_nat (length heap) <? candidate_limit then
    heappush heap (similarity, file_path)
  else
    match heap with
    | least :: _ =>
        if gt similarity least.1 then heapreplace heap (similarity, file_path)
        else heap
    | [] => heap               (* not reached: [candidate_limit] is at least 1 *)
    end.

(** The loop over the cursor; [None] when a row makes numpy raise. *)
Fixpoint rank_rows (candidate_limit : Z) (heap : list item)
    (rows : list (text * list Byte.byte)) : option (list item) :=
  match rows with
  | [] => Some heap
  | (file_path, embedding_blob) :: rows' =>
      match compare_with_query embedding_blob with
      | ZeroNorm => rank_rows candidate_limit heap rows'
      | Similarity similarity =>
          rank_rows candidate_limit (offer candidate_limit heap file_path similarity)
                    rows'
      | Malformed => None
      end
  end.

(** [_retrieve_context]. [rows] is what the [SELECT] yields, [None] when
    it raises; the result is [None] when an exception leaves the method. *)
Definition _retrieve_context (query_norm_is_zero : bool)
    (rows : option (list (text * list Byte.byte))) (top_k : option Z)
    (context_documents : Z) : option (list (text * score)) :=
  if query_norm_is_zero then Some []
  else
    match rows with
    | None => None
    | Some rows =>
        let limit := match top_k with Some k => k | None => context_documents end in
        if limit <=? 0 then Some []
        else
          let candidate_limit := Z.max limit 1 in
          match rank_rows candidate_limit [] rows with
          | None => None
          | Some [] => Some []
          | Some heap =>
              let ranked := sorted_by_score heap in
              Some ((λ it : item, (it.2, it.1)) <$> take (Z.to_nat limit) ranked)
          end
    end.

(** The rows that have a similarity, as queue entries, in cursor order. *)
Definition candidates (rows : list (text * list Byte.byte)) : list item :=
  omap (λ row : text * list Byte.byte,
          match compare_with_query row.2 with
          | Similarity similarity => Some (similarity, row.1)
          | _ => None
          end) rows.

End Heap.

(** ** An instance to run the method: integer scores, a sorted list as
    the queue *)

Definition score_le (a b : Z * text) : Prop := a.1 ≤ b.1.
Definition score_ge (a b : Z * text) : Prop := b.1 ≤ a.1.

#[export] Instance score_le_dec a b : Decision (score_le a b).
Proof. unfold score_le. apply _. Defined.
#[export] Instance score_ge_dec a b : Decision (score_ge a b).
Proof. unfold score_ge. apply _. Defined.

Definition list_heappush (heap : list (Z * text)) (x : Z * text) : list (Z * text) :=
  merge_sort score_le (x :: heap).
Definition list_heapreplace (heap : list (Z * text)) (x : Z * text) : list (Z * text) :=
  merge_sort score_le (x :: tail heap).
Definition list_sorted (heap : list (Z * text)) : list (Z * text) :=
  merge_sort score_ge heap.

(** A stored vector of one byte stands for its own similarity; the empty
    one has norm zero, a longer one has the wrong dimension. *)
Definition byte_score (embedding_blob : list Byte.byte) : scored Z :=
  match embedding_blob with
  | [] => ZeroNorm
  | [b] => Similarity (Z.of_N (Byte.to_N b))
  | _ => Malformed
  end.

End Retrieval.

(* ===================================================================== *)
(** * The parameters of [reindex] *)
(* ===================================================================== *)

(** Lines 168-201 of [DocIndexer.reindex]: the parameters come from the
    configuration dictionary or from the arguments, and are validated. *)
Module Config.
Import PyStr.

(** A value of the configuration dictionary. Whatever is neither [None],
    a [bool], an [int] nor a [str] is given by what [str()], [int()] and
    [bool()] make of it, [None] when they raise. *)
Inductive value :=
| VNone
| VBool (b : bool)
| VInt (n : Z)
| VStr (s : text)
| VOther (as_str : option text) (as_int : option Z) (as_bool : option bool).

(** [str(n)] for an [int]. *)
Definition decimal (n : Z) : text :=
  of_string (DecimalString.NilZero.string_of_int (Z.to_int n)).

(** [str(v)]; [None] when it raises. *)
Definition py_str (v : value) : option text :=
  match v with
  | VNone => Some (of_string "None")
  | VBool true => Some (of_string "True")
  | VBool false => Some (of_string "False")
  | VInt n => Some (decimal n)
  | VStr s => Some s
  | VOther as_str _ _ => as_str
  end.

(** [bool(v)], the truth value [if v] tests; [None] when it raises. *)
Definition py_bool (v : value) : option bool :=
  match v with
  | VNone => Some false
  | VBool b => Some b
  | VInt n => Some (negb (n =? 0))
  | VStr s => Some (negb (bool_decide (s = [])))
  | VOther _ _ as_bool => as_bool
  end.

(** The arguments of [reindex] other than [config] and the callback. *)
Record parameters := mkParameters {
  root_path : option text;
  temp_path : option text;
  embeddings_path : option text;
  conversion_timeout : Z;
  supported_extensions : option text;
  embedding_model : option text;
  enable_debug_log : bool;
}.

(** The defaults of the signature. *)
Definition no_arguments : parameters :=
  mkParameters None None None 5 None None false.

(** [config.get(key)] and [config.get(key, default)]. *)
Definition get (config : gmap string value) (key : string) : value :=
  default VNone (config !! key).

Definition get_or (config : gmap string value) (key : string) (d : value) : value :=
  default d (config !! key).

Section Parsing.

(** [int(s)] for a [str]: Python's integer literals; [None] when it
    raises. *)
Variable int_of_str : text → option Z.

(** [int(v)]; [None] when it raises. *)
Definition py_int (v : value) : option Z :=
  match v with
  | VNone => None
  | VBool b => Some (if b then 1 else 0)
  | VInt n => Some n
  | VStr s => int_of_str s
  | VOther _ as_int _ => as_int
  end.

(** Lines 168-200: with a configuration that is not empty every parameter
    is read from it, each inside its own [try]; the arguments are not
    looked at. *)
Definition from_config (config : gmap string value) : parameters :=
  mkParameters
    (py_str (get config "root_path"))
    (py_str (get config "temp_path"))
    (py_str (get config "embeddings_path"))
    (default 5 (py_int (get_or config "conversion_timeout" (VInt 5))))
    (py_str (get config "supported_extensions"))
    (match py_bool (get config "embedding_model") with
     | Some true => py_str (get config "embedding_model")
     | _ => None
     end)
    (default false (py_bool (get_or config "enable_debug_log" (VBool false)))).

(** [not s] for an optional string. *)
Definition missing (s : option text) : bool :=
  match s with
  | Some (_ :: _) => false
  | _ => true
  end.

(** Lines 168-201 of [reindex]: the parameters the rest of the method
    works with, or [None] for the [ValueError]. *)
Definition reindex_parameters (config : option (gmap string value))
    (given : parameters) : option parameters :=
  let p :=
    match config with
    | Some config => if decide (config = ∅) then given else from_config config
    | None => given
    end in
  if missing (root_path p) || missing (temp_path p) || missing (embeddings_path p)
  then None
  else Some p.

End Parsing.

(** [int(s)] on plain decimal digits, for examples. *)
Definition digits_only (s : text) : option Z :=
  foldl (λ acc c, n ← acc;
                  if ((48 <=? c) && (c <=? 57))%N then Some (10 * n + Z.of_N (c - 48))
                  else None)
        (if bool_decide (s = []) then None else Some 0) s.

End Config.

(* ===================================================================== *)
(** * Counting the pools a pass creates *)
(* ===================================================================== *)

Module Observe.
Import Indexer.

(** The event is the creation of a pool of kind [k]. *)
Definition creates (k : pool) (e : event) : bool :=
  match e, k with
  | PoolCreated ConversionPool _ _, ConversionPool => true
  | PoolCreated EmbeddingPool _ _, EmbeddingPool => true
  | _, _ => false
  end.

(** How many pools of kind [k] a log shows being created. *)
Definition pools_created (k : pool) (evs : list event) : nat :=
  length (filter (λ e, creates k e = true) evs).

(** 1 when the indexer holds a pool of kind [k], 0 otherwise. *)
Definition has_pool (k : pool) (ix : DocIndexer) : nat :=
  match (match k with
         | ConversionPool => _conversion_executor ix
         | EmbeddingPool => _embedding_executor ix
         end) with
  | Some _ => 1%nat
  | None => 0%nat
  end.

(** A step from [ix] to [ix'] that only adds to the log and abandons no
    pool: every pool created is one the indexer did not have and holds
    afterwards. *)
Definition keeps_pools (ix ix' : DocIndexer) : Prop :=
  ∃ new, events ix' = events ix ++ new
         ∧ ∀ k, (pools_created k new + has_pool k ix)%nat = has_pool k ix'.

End Observe.

(* ===================================================================== *)
(** * The debug log *)
(* ===================================================================== *)

(** [help_chat/debug_logger.py]: the class [DebugLogger] keeps its state
    in class attributes, shared by every caller in the process. *)
Module DebugLog.
Import PyStr Scan.

(** The class attributes. *)
Record DebugLogger := mkLogger {
  _enabled : bool;
  _log_path : option text;
  _initialized : bool;
}.

(** The attributes when the module is loaded. *)
Definition loaded : DebugLogger := mkLogger false None false.

(** What the logger meets: whether [os.makedirs] succeeds for a directory,
    whether a path can be opened and written, and
    [datetime.utcnow().isoformat()] at each reading of the clock. *)
Record Host := mkHost {
  makedirs_ok : text → bool;
  open_ok : text → bool;
  isoformat : nat → text;
}.

(** The class, the text files on disk, the readings of the clock so far. *)
Record state := mkState {
  cls : DebugLogger;
  files : gmap text text;
  clock : nat;
}.

Definition log_name : text := of_string "program_debug.log".

(** ["=== Debug Log Started: {now}Z ===\n"]. *)
Definition header (now : text) : text :=
  of_string "=== Debug Log Started: " ++ now ++ of_string "Z ===" ++ [10%N].

(** ["[{timestamp}Z] {message}\n"]. *)
Definition entry (timestamp message : text) : text :=
  of_string "[" ++ timestamp ++ of_string "Z] " ++ message ++ [10%N].

(** [DebugLogger.initialize]. Any exception of [makedirs], [open] or
    [write] disables the logger. *)
Definition initialize (host : Host) (st : state) (enabled : bool)
    (log_directory : text) : state :=
  if enabled then
    let path := join log_directory log_name in
    if makedirs_ok host log_directory && open_ok host path then
      mkState (mkLogger true (Some path) true)
              (<[path := header (isoformat host (clock st))]> (files st))
              (S (clock st))
    else mkState (mkLogger false None true) (files st) (clock st)
  else mkState (mkLogger false (_log_path (cls st)) true) (files st) (clock st).

(** [DebugLogger.log]. The clock is read before the file is opened; an
    exception is swallowed. *)
Definition log (host : Host) (st : state) (message : text) : state :=
  match _enabled (cls st), _log_path (cls st) with
  | true, Some (c :: p) =>
      let path := c :: p in
      let timestamp := isoformat host (clock st) in
      if open_ok host path then
        mkState (cls st)
                (<[path := default [] (files st !! path) ++ entry timestamp message]>
                   (files st))
                (S (clock st))
      else mkState (cls st) (files st) (S (clock st))
  | _, _ => st
  end.

(** The lines [messages] become when the first is stamped at the [n]-th
    reading of the clock. *)
Fixpoint transcript (host : Host) (n : nat) (messages : list text) : text :=
  match messages with
  | [] => []
  | message :: messages' =>
      entry (isoformat host n) message ++ transcript host (S n) messages'
  end.

(** A host where everything can be written and the clock shows its count. *)
Definition plain_host : Host :=
  mkHost (λ _, true) (λ _, true) (λ n, replicate n 49%N).

End DebugLog.
(* ===================================================================== *)
(** * Facts about pathlib names and the snapshot mapping *)
(* ===================================================================== *)

Module PathlibFacts.
Import Pathlib.

(** ** Facts about names *)

Lemma append_cons a s t : String a s +:+ t = String a (s +:+ t).
Proof. reflexivity. Qed.

Lemma append_nil_l t : "" +:+ t = t.
Proof. reflexivity. Qed.

Ltac str_simpl := simpl; rewrite ?append_cons, ?append_nil_l.

Lemma stake_sdrop n s : stake n s +:+ sdrop n s = s.
Proof.
  revert s; induction n as [|n IH]; intros [|a s]; str_simpl; try reflexivity.
  now rewrite IH.
Qed.

Lemma length_sdrop n s : String.length (sdrop n s) = (String.length s - n)%nat.
Proof.
  revert s; induction n as [|n IH]; intros [|a s]; simpl; auto with lia.
Qed.

Lemma rfind_lt c s i : rfind c s = Some i → (i < String.length s)%nat.
Proof.
  revert i; induction s as [|a s IH]; simpl; intros i; [discriminate|].
  destruct (rfind c s) as [j|].
  - intros [= <-]. specialize (IH j eq_refl). lia.
  - destruct (Ascii.eqb a c); [intros [= <-]; lia | discriminate].
Qed.

Lemma rfind_sdrop c s i :
  rfind c s = Some i → ∃ t, sdrop i s = String c t.
Proof.
  revert i; induction s as [|a s IH]; simpl; intros i; [discriminate|].
  destruct (rfind c s) as [j|].
  - intros [= <-]. simpl. now apply IH.
  - destruct (Ascii.eqb a c) eqn:E; [|discriminate].
    intros [= <-]. apply Ascii.eqb_eq in E as ->. now exists s.
Qed.

Lemma contains_sdrop c n s : contains c s = false → contains c (sdrop n s) = false.
Proof.
  revert s; induction n as [|n IH]; intros [|a s]; simpl; auto.
  intros [_ H]%orb_false_iff. now apply IH.
Qed.

Lemma contains_app c s t : contains c (s +:+ t) = contains c s || contains c t.
Proof. induction s as [|a s IH]; str_simpl; [reflexivity|]. simpl. now rewrite IH, orb_assoc. Qed.

Lemma append_nil_r s : s +:+ "" = s.
Proof. induction s as [|a s IH]; str_simpl; congruence. Qed.

Lemma append_assoc' s t u : (s +:+ t) +:+ u = s +:+ (t +:+ u).
Proof. induction s as [|a s IH]; str_simpl; congruence. Qed.

Lemma stake_all s : stake (String.length s) s = s.
Proof. induction s as [|a s IH]; simpl; congruence. Qed.

(** A name is its stem followed by its suffix. *)
Lemma stem_suffix nm : stem_of_name nm +:+ suffix_of_name nm = nm.
Proof.
  unfold stem_of_name, suffix_of_name.
  destruct (rfind dot nm) as [i|] eqn:Hi.
  - destruct ((0 <? i)%nat && (i <? String.length nm - 1)%nat) eqn:Hc.
    + rewrite length_sdrop. apply rfind_lt in Hi.
      replace (String.length nm - (String.length nm - i))%nat with i by lia.
      apply stake_sdrop.
    + change (String.length "") with 0%nat.
      now rewrite Nat.sub_0_r, stake_all, append_nil_r.
  - change (String.length "") with 0%nat.
    now rewrite Nat.sub_0_r, stake_all, append_nil_r.
Qed.

Lemma suffix_starts_with_dot nm :
  suffix_of_name nm = "" ∨ ∃ t, suffix_of_name nm = String dot t.
Proof.
  unfold suffix_of_name. destruct (rfind dot nm) as [i|] eqn:Hi; [|now left].
  destruct (_ && _); [right; now apply rfind_sdrop | now left].
Qed.

Lemma suffix_no_sep nm : contains sep nm = false → contains sep (suffix_of_name nm) = false.
Proof.
  intros H. unfold suffix_of_name. destruct (rfind dot nm); [|reflexivity].
  destruct (_ && _); [now apply contains_sdrop | reflexivity].
Qed.

Lemma valid_name_spec nm :
  valid_name nm = true ↔ nm ≠ "" ∧ contains sep nm = false.
Proof.
  unfold valid_name. rewrite andb_true_iff, !negb_true_iff.
  split; intros [H1 H2]; split; auto.
  - intros ->. discriminate.
  - destruct (String.eqb_spec nm ""); congruence.
Qed.

(** [with_suffix] on a base whose name is a valid [nm]: the stem stays and
    the suffix becomes [md_suffix nm]. *)
Lemma with_md_suffix base nm :
  name base = nm → valid_name nm = true →
  with_suffix base (md_suffix nm) = Some (parent base ++ [stem_of_name nm +:+ md_suffix nm]).
Proof.
  intros Hn [Hne Hsep]%valid_name_spec. unfold with_suffix, md_suffix.
  pose proof (suffix_no_sep nm Hsep) as Hs.
  destruct (suffix_starts_with_dot nm) as [E|[t E]]; rewrite E in *; simpl.
  - rewrite Hn. destruct (String.eqb_spec nm ""); [done|].
    rewrite E. simpl. unfold stem_of_name. rewrite E. simpl.
    rewrite Nat.sub_0_r.
    pose proof (stem_suffix nm) as Hst. unfold stem_of_name in Hst.
    rewrite E, Nat.sub_0_r, append_nil_r in Hst. now rewrite Hst.
  - simpl in Hs. rewrite contains_app, Hs. simpl.
    assert ((t +:+ ".md" =? "")%string = false) as -> by now destruct t.
    assert (String.prefix "" (t +:+ ".md") = true) as -> by now destruct t.
    simpl. rewrite Hn. destruct (String.eqb_spec nm ""); [done|].
    rewrite E. simpl. unfold stem_of_name. now rewrite E.
Qed.

Lemma md_with_suffix_eq base source :
  md_with_suffix base source = with_suffix base (md_suffix (name source)).
Proof. unfold md_with_suffix, md_suffix, suffix. now destruct (negb _). Qed.

(** ['<stem><suffix>.md'] is the source's name followed by ['.md']. *)
Lemma stem_md_suffix nm : stem_of_name nm +:+ md_suffix nm = nm +:+ ".md".
Proof.
  unfold md_suffix. destruct (String.eqb_spec (suffix_of_name nm) ""); simpl.
  - rewrite <- (stem_suffix nm) at 2. now rewrite e, append_nil_r.
  - now rewrite <- append_assoc', stem_suffix.
Qed.

(** ** Facts about paths *)

Lemma relative_to_Some p root rel : relative_to p root = Some rel ↔ p = root ++ rel.
Proof.
  revert p; induction root as [|r root IH]; intros p; simpl.
  - split; [intros [= ->] | intros ->]; reflexivity.
  - destruct p as [|c p]; [split; discriminate|].
    destruct (String.eqb_spec r c) as [->|Hne].
    + rewrite IH. split; [intros -> | intros [= ->]]; reflexivity.
    + split; [discriminate | intros [= ? _]; congruence].
Qed.

Lemma relative_to_None p root :
  relative_to p root = None ↔ ¬ root `prefix_of` p.
Proof.
  split.
  - intros H [rel Hp]. apply relative_to_Some in Hp. congruence.
  - intros H. destruct (relative_to p root) as [rel|] eqn:E; [|reflexivity].
    apply relative_to_Some in E. destruct H. now exists rel.
Qed.

Lemma name_app base rel : rel ≠ [] → name (base ++ rel) = name rel.
Proof.
  intros H. unfold name. revert H. induction base as [|b base IH]; [done|].
  intros H. simpl. destruct (base ++ rel) eqn:E; [|auto].
  apply app_eq_nil in E as [_ ?]. done.
Qed.

Lemma parent_app base rel : rel ≠ [] → parent (base ++ rel) = base ++ parent rel.
Proof. intros H. unfold parent. now apply removelast_app. Qed.

(** Inside [root] the write side and the delete side build the same path:
    the markdown root, the directories of the relative path, and the
    source's stem with the suffix ['<original_suffix>.md'] (or ['.md']). *)
Lemma snapshot_inside file markdown_dir root rel :
  valid_name (name file) = true →
  relative_to file root = Some rel → rel ≠ [] →
  md_with_suffix (markdown_dir ++ rel) file
  = Some (markdown_dir ++ parent rel
            ++ [stem_of_name (name file) +:+ md_suffix (name file)]).
Proof.
  intros Hv Hrel Hne. rewrite md_with_suffix_eq.
  apply relative_to_Some in Hrel.
  assert (name (markdown_dir ++ rel) = name file) as Hn.
  { rewrite Hrel, !name_app; auto. }
  rewrite (with_md_suffix _ _ Hn Hv), parent_app, <- app_assoc; auto.
Qed.

Lemma valid_name_nonempty nm : valid_name nm = true → (nm =? "")%string = false.
Proof. intros [H _]%valid_name_spec. now destruct (String.eqb_spec nm ""). Qed.

(** Outside [root] the write side uses the bare file name. *)
Lemma snapshot_write_outside file markdown_dir root :
  valid_name (name file) = true →
  relative_to file root = None →
  snapshot_write_path file markdown_dir root
  = Some (markdown_dir ++ [stem_of_name (name file) +:+ md_suffix (name file)]).
Proof.
  intros Hv Hrel. unfold snapshot_write_path. rewrite Hrel, (valid_name_nonempty _ Hv).
  rewrite md_with_suffix_eq.
  assert (name (markdown_dir ++ [name file]) = name file) as Hn.
  { now rewrite name_app. }
  rewrite (with_md_suffix _ _ Hn Hv), parent_app; [|done].
  now rewrite app_nil_r.
Qed.

(** C9 (as amended). For a source with a well-formed name:
    - inside [root] (a non-empty relative path), the write side
      ([_generate_embedding]), the delete side ([_delete_markdown_snapshot])
      and the excerpt side ([_resolve_markdown_path]) all resolve to the
      markdown root joined with the relative path, the file name's suffix
      changed to ['<original_suffix>.md'], or to ['.md'] when the source has
      no suffix; that name is the source's name followed by ['.md'];
    - outside [root], the write side falls back to the bare file name below
      the markdown root, while the delete side and the excerpt side resolve
      to no location at all: they return without touching anything. *)
Theorem snapshot_location (file markdown_dir temp root : path) :
  valid_name (name file) = true →
  let snapshot_name := stem_of_name (name file) +:+ md_suffix (name file) in
  snapshot_name = name file +:+ ".md"
  ∧ (∀ rel, relative_to file root = Some rel → rel ≠ [] →
       snapshot_write_path file markdown_dir root
       = Some (markdown_dir ++ parent rel ++ [snapshot_name])
       ∧ snapshot_delete_path file markdown_dir root
         = Snapshot (markdown_dir ++ parent rel ++ [snapshot_name])
       ∧ _resolve_markdown_path file temp root
         = Snapshot ((temp ++ ["_markdown"]) ++ parent rel ++ [snapshot_name]))
  ∧ (relative_to file root = None →
       snapshot_write_path file markdown_dir root
       = Some (markdown_dir ++ [snapshot_name])
       ∧ snapshot_delete_path file markdown_dir root = Outside
       ∧ _resolve_markdown_path file temp root = Outside).
Proof.
  intros Hv. cbv zeta. split; [apply stem_md_suffix|]. split.
  - intros rel Hrel Hne.
    unfold snapshot_write_path, snapshot_delete_path, _resolve_markdown_path.
    rewrite Hrel, !(snapshot_inside _ _ _ _ Hv Hrel Hne). auto.
  - intros Hrel. split; [now apply snapshot_write_outside|].
    unfold snapshot_delete_path, _resolve_markdown_path. now rewrite Hrel.
Qed.

(** The theorem at [/r/docs/archive.tar.gz] with root [/r], and at
    [/elsewhere/notes] outside it. *)
Lemma snapshot_location_witness :
  (snapshot_write_path ["r"; "docs"; "archive.tar.gz"] ["t"; "_markdown"] ["r"]
   = Some ["t"; "_markdown"; "docs"; "archive.tar.gz.md"]
   ∧ snapshot_delete_path ["r"; "docs"; "archive.tar.gz"] ["t"; "_markdown"] ["r"]
     = Snapshot ["t"; "_markdown"; "docs"; "archive.tar.gz.md"])
  ∧ (snapshot_write_path ["elsewhere"; "notes"] ["t"; "_markdown"] ["r"]
     = Some ["t"; "_markdown"; "notes.md"]
     ∧ snapshot_delete_path ["elsewhere"; "notes"] ["t"; "_markdown"] ["r"] = Outside).
Proof.
  split.
  - pose proof (snapshot_location ["r"; "docs"; "archive.tar.gz"] ["t"; "_markdown"]
                  ["t"] ["r"] eq_refl) as (_ & H & _).
    destruct (H ["docs"; "archive.tar.gz"] eq_refl ltac:(discriminate)) as (Hw & Hd & _).
    split; [exact Hw | exact Hd].
  - pose proof (snapshot_location ["elsewhere"; "notes"] ["t"; "_markdown"]
                  ["t"] ["r"] eq_refl) as (_ & _ & H).
    destruct (H eq_refl) as (Hw & Hd & _).
    split; [exact Hw | exact Hd].
Defined.

(** C9 as stated fails outside [root]: for [/elsewhere/a.txt] and root [/r]
    the write side resolves to [_markdown/a.txt.md] and the delete side to
    nothing, so a snapshot written there stays on disk when its row is
    removed. *)
Lemma snapshot_location_counterexample :
  snapshot_write_path ["elsewhere"; "a.txt"] ["t"; "_markdown"] ["r"]
  = Some ["t"; "_markdown"; "a.txt.md"]
  ∧ snapshot_delete_path ["elsewhere"; "a.txt"] ["t"; "_markdown"] ["r"] = Outside
  ∧ FS._delete_markdown_snapshot
      {[ ["t"; "_markdown"; "a.txt.md"] := FS.File [104%N; 105%N] ]}
      ["elsewhere"; "a.txt"] ["t"; "_markdown"] ["r"]
    = Some {[ ["t"; "_markdown"; "a.txt.md"] := FS.File [104%N; 105%N] ]}.
Proof. repeat split. Qed.

End PathlibFacts.

(* ===================================================================== *)
(** * The worker pools: timeout budget, warm flag, abandonment, warm-up *)
(* ===================================================================== *)

Module PoolFacts.
Import Pathlib FS Indexer Worlds.

(** ** Creating a pool *)

Lemma ensure_conversion_events ix :
  let '(ix0, ex) := _ensure_conversion_executor ix in
  _conversion_executor ix0 = Some ex
  ∧ _conversion_warmup_used ix0 = _conversion_warmup_used ix
  ∧ _embedding_executor ix0 = _embedding_executor ix
  ∧ _embedding_warmup_used ix0 = _embedding_warmup_used ix
  ∧ _embedding_model_name ix0 = _embedding_model_name ix
  ∧ events ix0
    = events ix ++ match _conversion_executor ix with
                   | Some _ => []
                   | None => [PoolCreated ConversionPool 2 (length (events ix))]
                   end.
Proof.
  unfold _ensure_conversion_executor.
  destruct (_conversion_executor ix) eqn:E; simpl; rewrite ?app_nil_r; auto 10.
Qed.

Lemma ensure_embedding_events ix :
  let '(ix0, ex) := _ensure_embedding_executor ix in
  _embedding_executor ix0 = Some ex
  ∧ _embedding_warmup_used ix0 = _embedding_warmup_used ix
  ∧ _conversion_executor ix0 = _conversion_executor ix
  ∧ _conversion_warmup_used ix0 = _conversion_warmup_used ix
  ∧ _embedding_model_name ix0 = _embedding_model_name ix
  ∧ events ix0
    = events ix ++ match _embedding_executor ix with
                   | Some _ => []
                   | None => [PoolCreated EmbeddingPool 1 (length (events ix))]
                   end.
Proof.
  unfold _ensure_embedding_executor.
  destruct (_embedding_executor ix) eqn:E; simpl; rewrite ?app_nil_r; auto 10.
Qed.

(** ** One conversion task *)

Lemma convert_to_markdown_budget W ix file timeout :
  let '(ix0, ex) := _ensure_conversion_executor ix in
  let budget :=
    if _conversion_warmup_used ix then timeout
    else timeout + _CONVERSION_STARTUP_BUFFER in
  let answer := pool_convert W (events ix0) ex file budget in
  let ix' := (_convert_to_markdown W ix file timeout).1 in
  events ix' = events ix0 ++ [Submitted ConversionPool ex (Convert file) budget]
  ∧ (∀ data, answer = Result (ConvSuccess data) →
       (_convert_to_markdown W ix file timeout).2 = Some data
       ∧ _conversion_warmup_used ix' = true ∧ _conversion_executor ix' = Some ex)
  ∧ (answer = Timeout →
       (_convert_to_markdown W ix file timeout).2 = None
       ∧ _conversion_warmup_used ix' = false ∧ _conversion_executor ix' = None)
  ∧ ((∀ data, answer ≠ Result (ConvSuccess data)) → answer ≠ Timeout →
       (_convert_to_markdown W ix file timeout).2 = None
       ∧ _conversion_warmup_used ix' = _conversion_warmup_used ix
       ∧ _conversion_executor ix' = Some ex).
Proof.
  unfold _convert_to_markdown.
  pose proof (ensure_conversion_events ix) as H.
  destruct (_ensure_conversion_executor ix) as [ix0 ex].
  destruct H as (Hex & Hw & _ & _ & _ & _). rewrite Hw.
  destruct (pool_convert W (events ix0) ex file _) as [[data|msg|msg]| |] eqn:Ha;
    simpl; (split; [reflexivity|]); repeat split;
    try congruence; try (intros; congruence); try (intros ? [= <-]; done).
  all: intros H; exfalso; eapply H; eauto.
Qed.

(** After an abandonment the next conversion creates a pool and waits the
    base timeout plus the startup buffer. *)
Lemma convert_after_abandon W ix file timeout :
  _conversion_executor ix = None → _conversion_warmup_used ix = false →
  events (_convert_to_markdown W ix file timeout).1
  = events ix ++ [PoolCreated ConversionPool 2 (length (events ix));
                  Submitted ConversionPool (length (events ix)) (Convert file)
                            (timeout + _CONVERSION_STARTUP_BUFFER)].
Proof.
  intros He Hw.
  pose proof (convert_to_markdown_budget W ix file timeout) as H.
  unfold _ensure_conversion_executor in H. rewrite He in H. cbv zeta in H.
  destruct H as (H & _). rewrite H. simpl. rewrite Hw, <- app_assoc. reflexivity.
Qed.

(** ** One embedding task *)

Lemma encode_with_timeout_budget W ix text_content timeout :
  let '(ix0, ex) := _ensure_embedding_executor ix in
  let budget :=
    if _embedding_warmup_used ix then timeout
    else timeout + _EMBEDDING_STARTUP_BUFFER in
  let answer :=
    pool_encode W (events ix0) ex text_content (_embedding_model_name ix) budget in
  let ix' := (_encode_with_timeout W ix text_content timeout).1 in
  events ix'
  = events ix0 ++ [Submitted EmbeddingPool ex
                     (Encode text_content (_embedding_model_name ix)) budget]
  ∧ (∀ data, answer = Result (EncSuccess data) →
       (_encode_with_timeout W ix text_content timeout).2 = Some data
       ∧ _embedding_warmup_used ix' = true ∧ _embedding_executor ix' = Some ex)
  ∧ (answer = Timeout →
       (_encode_with_timeout W ix text_content timeout).2 = None
       ∧ _embedding_warmup_used ix' = false ∧ _embedding_executor ix' = None)
  ∧ ((∀ data, answer ≠ Result (EncSuccess data)) → answer ≠ Timeout →
       (_encode_with_timeout W ix text_content timeout).2 = None
       ∧ _embedding_warmup_used ix' = _embedding_warmup_used ix
       ∧ _embedding_executor ix' = Some ex).
Proof.
  unfold _encode_with_timeout.
  pose proof (ensure_embedding_events ix) as H.
  destruct (_ensure_embedding_executor ix) as [ix0 ex].
  destruct H as (Hex & Hw & _ & _ & Hm & _). rewrite Hw, Hm.
  destruct (pool_encode W (events ix0) ex text_content _ _) as [[data|msg]| |] eqn:Ha;
    simpl; (split; [reflexivity|]); repeat split;
    try congruence; try (intros; congruence); try (intros ? [= <-]; done).
  all: intros H; exfalso; eapply H; eauto.
Qed.

Lemma encode_after_abandon W ix text_content timeout :
  _embedding_executor ix = None → _embedding_warmup_used ix = false →
  events (_encode_with_timeout W ix text_content timeout).1
  = events ix ++ [PoolCreated EmbeddingPool 1 (length (events ix));
                  Submitted EmbeddingPool (length (events ix))
                            (Encode text_content (_embedding_model_name ix))
                            (timeout + _EMBEDDING_STARTUP_BUFFER)].
Proof.
  intros He Hw.
  pose proof (encode_with_timeout_budget W ix text_content timeout) as H.
  unfold _ensure_embedding_executor in H. rewrite He in H. cbv zeta in H.
  destruct H as (H & _). rewrite H. simpl. rewrite Hw, <- app_assoc. reflexivity.
Qed.

(** ** The warm-up *)

Lemma warmup_effect W ix :
  let '(ix0, ex) := _ensure_embedding_executor ix in
  let answer :=
    pool_encode W (events ix0) ex warmup_text (_embedding_model_name ix)
                _EMBEDDING_STARTUP_BUFFER in
  let ix' := _warmup_process_pools W ix in
  events ix'
  = events ix0 ++ [Submitted EmbeddingPool ex
                     (Encode warmup_text (_embedding_model_name ix))
                     _EMBEDDING_STARTUP_BUFFER]
  ∧ _conversion_executor ix' = _conversion_executor ix
  ∧ _conversion_warmup_used ix' = _conversion_warmup_used ix
  ∧ _embedding_executor ix' = Some ex
  ∧ _embedding_warmup_used ix'
    = match answer with Result _ => true | _ => _embedding_warmup_used ix end.
Proof.
  unfold _warmup_process_pools.
  pose proof (ensure_embedding_events ix) as H.
  destruct (_ensure_embedding_executor ix) as [ix0 ex].
  destruct H as (Hex & Hw & Hce & Hcw & Hm & _). rewrite Hm.
  destruct (pool_encode W (events ix0) ex warmup_text _ _); simpl; auto 10.
Qed.

(** C6 (as amended). For each pool, every per-file task (the ones
    [_convert_to_markdown] and [_encode_with_timeout] submit) is waited on
    for the base timeout plus that pool's startup buffer (15 s for
    conversion, 20 s for embedding) while the warm flag is false, and for
    the base timeout alone once it is true. A successful task sets the
    flag and keeps the pool. A timeout resets the flag and drops the
    handle, so that the next submission creates a new pool and waits the
    base timeout plus the buffer again. The warm-up task is different: it
    is waited on for the embedding buffer alone, whatever the flag and the
    base timeout, any returned value sets the flag, and its timeout leaves
    flag and handle as they were. *)
Theorem pool_timeout_budget (W : World) (ix : DocIndexer) (file : path)
    (text_content : text) (timeout : Z) :
  (let '(ix0, ex) := _ensure_conversion_executor ix in
   let budget :=
     if _conversion_warmup_used ix then timeout
     else timeout + _CONVERSION_STARTUP_BUFFER in
   let answer := pool_convert W (events ix0) ex file budget in
   let ix' := (_convert_to_markdown W ix file timeout).1 in
   events ix' = events ix0 ++ [Submitted ConversionPool ex (Convert file) budget]
   ∧ (∀ data, answer = Result (ConvSuccess data) →
        _conversion_warmup_used ix' = true ∧ _conversion_executor ix' = Some ex)
   ∧ (answer = Timeout →
        _conversion_warmup_used ix' = false ∧ _conversion_executor ix' = None
        ∧ ∀ W2 file2 timeout2,
            events (_convert_to_markdown W2 ix' file2 timeout2).1
            = events ix' ++ [PoolCreated ConversionPool 2 (length (events ix'));
                             Submitted ConversionPool (length (events ix'))
                               (Convert file2)
                               (timeout2 + _CONVERSION_STARTUP_BUFFER)]))
  ∧ (let '(ix0, ex) := _ensure_embedding_executor ix in
     let budget :=
       if _embedding_warmup_used ix then timeout
       else timeout + _EMBEDDING_STARTUP_BUFFER in
     let answer :=
       pool_encode W (events ix0) ex text_content (_embedding_model_name ix) budget in
     let ix' := (_encode_with_timeout W ix text_content timeout).1 in
     events ix'
     = events ix0 ++ [Submitted EmbeddingPool ex
                        (Encode text_content (_embedding_model_name ix)) budget]
     ∧ (∀ data, answer = Result (EncSuccess data) →
          _embedding_warmup_used ix' = true ∧ _embedding_executor ix' = Some ex)
     ∧ (answer = Timeout →
          _embedding_warmup_used ix' = false ∧ _embedding_executor ix' = None
          ∧ ∀ W2 text2 timeout2,
              events (_encode_with_timeout W2 ix' text2 timeout2).1
              = events ix' ++ [PoolCreated EmbeddingPool 1 (length (events ix'));
                               Submitted EmbeddingPool (length (events ix'))
                                 (Encode text2 (_embedding_model_name ix'))
                                 (timeout2 + _EMBEDDING_STARTUP_BUFFER)]))
  ∧ (let '(ix0, ex) := _ensure_embedding_executor ix in
     let answer :=
       pool_encode W (events ix0) ex warmup_text (_embedding_model_name ix)
                   _EMBEDDING_STARTUP_BUFFER in
     let ix' := _warmup_process_pools W ix in
     events ix'
     = events ix0 ++ [Submitted EmbeddingPool ex
                        (Encode warmup_text (_embedding_model_name ix))
                        _EMBEDDING_STARTUP_BUFFER]
     ∧ _embedding_executor ix' = Some ex
     ∧ _embedding_warmup_used ix'
       = match answer with Result _ => true | _ => _embedding_warmup_used ix end).
Proof.
  split; [|split].
  - pose proof (convert_to_markdown_budget W ix file timeout) as H.
    destruct (_ensure_conversion_executor ix) as [ix0 ex]. cbv zeta in *.
    destruct H as (Hev & Hok & Hto & _). split; [exact Hev|]. split.
    + intros data Ha. destruct (Hok data Ha) as (_ & ? & ?). auto.
    + intros Ha. destruct (Hto Ha) as (_ & Hw & He). repeat split; auto.
      intros W2 file2 timeout2. now apply convert_after_abandon.
  - pose proof (encode_with_timeout_budget W ix text_content timeout) as H.
    destruct (_ensure_embedding_executor ix) as [ix0 ex]. cbv zeta in *.
    destruct H as (Hev & Hok & Hto & _). split; [exact Hev|]. split.
    + intros data Ha. destruct (Hok data Ha) as (_ & ? & ?). auto.
    + intros Ha. destruct (Hto Ha) as (_ & Hw & He). repeat split; auto.
      intros W2 text2 timeout2. now apply encode_after_abandon.
  - pose proof (warmup_effect W ix) as H.
    destruct (_ensure_embedding_executor ix) as [ix0 ex]. cbv zeta in *.
    destruct H as (Hev & _ & _ & He & Hw). auto.
Qed.

(** C6 as stated fails on the warm-up task. A pass with base timeout 5 on
    a new indexer, in a world whose pools never answer: the task submitted
    to the cold embedding pool is waited on for 20 s, not 5 + 20, and the
    timeout it runs into leaves the pool handle in place. *)
Lemma pool_timeout_budget_counterexample :
  events (indexer (_update_database stuck_world __init__ ∅ ∅ []
                     ["t"; "_markdown"] ["r"] 5 true).1)
  = [PoolCreated EmbeddingPool 1 0;
     Submitted EmbeddingPool 0 (Encode warmup_text "all-MiniLM-L6-v2") 20;
     Commit]
  ∧ pool_encode stuck_world [PoolCreated EmbeddingPool 1 0] 0 warmup_text
      "all-MiniLM-L6-v2" 20 = Timeout
  ∧ _embedding_executor
      (indexer (_update_database stuck_world __init__ ∅ ∅ []
                  ["t"; "_markdown"] ["r"] 5 true).1) = Some 0%nat
  ∧ _embedding_warmup_used __init__ = false.
Proof. repeat split. Qed.

(** C5: what the code does. The warm-up submits one task, to the embedding
    pool; it creates no conversion pool, submits nothing to it and leaves
    its warm flag alone. It never raises. *)
Theorem warmup_skips_conversion_pool (W : World) (ix : DocIndexer) :
  let ix' := _warmup_process_pools W ix in
  _conversion_executor ix' = _conversion_executor ix
  ∧ _conversion_warmup_used ix' = _conversion_warmup_used ix
  ∧ ∃ ex, events ix'
          = events ix
            ++ match _embedding_executor ix with
               | Some _ => []
               | None => [PoolCreated EmbeddingPool 1 ex]
               end
            ++ [Submitted EmbeddingPool ex
                  (Encode warmup_text (_embedding_model_name ix))
                  _EMBEDDING_STARTUP_BUFFER].
Proof.
  cbv zeta. pose proof (warmup_effect W ix) as H.
  pose proof (ensure_embedding_events ix) as H0.
  destruct (_ensure_embedding_executor ix) as [ix0 ex] eqn:E. cbv zeta in *.
  destruct H as (Hev & Hce & Hcw & _). destruct H0 as (_ & _ & _ & _ & _ & Hev0).
  repeat split; auto. exists ex. rewrite Hev, Hev0, <- app_assoc.
  unfold _ensure_embedding_executor in E.
  destruct (_embedding_executor ix); [reflexivity|].
  now injection E as <- <-.
Qed.

(** C5 on a concrete pass: a new indexer, one PDF to index, base timeout 5.
    After the warm-up only the embedding pool exists; the conversion pool is
    created by the first file and that file's conversion is waited on for
    5 + 15 s. *)
Example warmup_then_first_pdf :
  events (indexer (_update_database quiet_world __init__ ∅ ∅
                     [(["r"; "b.pdf"], "h", ".pdf")]
                     ["t"; "_markdown"] ["r"] 5 false).1)
  = [PoolCreated EmbeddingPool 1 0;
     Submitted EmbeddingPool 0 (Encode warmup_text "all-MiniLM-L6-v2") 20;
     PoolCreated ConversionPool 2 2;
     Submitted ConversionPool 2 (Convert ["r"; "b.pdf"]) 20;
     Submitted EmbeddingPool 0
       (Encode (PyStr.of_string "pdf text") "all-MiniLM-L6-v2") 5;
     SqlInsert ["r"; "b.pdf"]
       (mkRow "h" [Byte.x01] "2026-01-01T00:00:00+00:00" ".pdf");
     Commit].
Proof. reflexivity. Qed.

End PoolFacts.

(* ===================================================================== *)
(** * The reindex pass: skipped files, the transaction, the callback *)
(* ===================================================================== *)

Module PassFacts.
Import Pathlib FS Indexer Trace Reasons Worlds PoolFacts.

(** ** What a file's processing adds to the log *)

Lemma convert_events W ix file timeout :
  ∃ evs, events (_convert_to_markdown W ix file timeout).1 = events ix ++ evs
         ∧ forallb is_pool_event evs = true.
Proof.
  pose proof (convert_to_markdown_budget W ix file timeout) as H.
  pose proof (ensure_conversion_events ix) as H0.
  destruct (_ensure_conversion_executor ix) as [ix0 ex]. cbv zeta in *.
  destruct H as (-> & _). destruct H0 as (_ & _ & _ & _ & _ & ->).
  rewrite <- app_assoc. eexists; split; [reflexivity|].
  now destruct (_conversion_executor ix).
Qed.

Lemma encode_events W ix text_content timeout :
  ∃ evs, events (_encode_with_timeout W ix text_content timeout).1 = events ix ++ evs
         ∧ forallb is_pool_event evs = true.
Proof.
  pose proof (encode_with_timeout_budget W ix text_content timeout) as H.
  pose proof (ensure_embedding_events ix) as H0.
  destruct (_ensure_embedding_executor ix) as [ix0 ex]. cbv zeta in *.
  destruct H as (-> & _). destruct H0 as (_ & _ & _ & _ & _ & ->).
  rewrite <- app_assoc. eexists; split; [reflexivity|].
  now destruct (_embedding_executor ix).
Qed.

Lemma warmup_events W ix :
  ∃ evs, events (_warmup_process_pools W ix) = events ix ++ evs
         ∧ forallb is_pool_event evs = true.
Proof.
  pose proof (warmup_effect W ix) as H.
  pose proof (ensure_embedding_events ix) as H0.
  destruct (_ensure_embedding_executor ix) as [ix0 ex]. cbv zeta in *.
  destruct H as (-> & _). destruct H0 as (_ & _ & _ & _ & _ & ->).
  rewrite <- app_assoc. eexists; split; [reflexivity|].
  now destruct (_embedding_executor ix).
Qed.

Lemma pool_events_nil ix : ∃ evs : list event,
  events ix = events ix ++ evs ∧ forallb is_pool_event evs = true.
Proof. exists []. now rewrite app_nil_r. Qed.

Lemma pool_events_trans (a b c : list event) :
  (∃ evs, b = a ++ evs ∧ forallb is_pool_event evs = true) →
  (∃ evs, c = b ++ evs ∧ forallb is_pool_event evs = true) →
  ∃ evs, c = a ++ evs ∧ forallb is_pool_event evs = true.
Proof.
  intros (e1 & -> & H1) (e2 & -> & H2). exists (e1 ++ e2).
  now rewrite app_assoc, forallb_app, H1, H2.
Qed.

Lemma convert_file_events W ix file timeout :
  ∃ evs, events (convert_file W ix file timeout).1 = events ix ++ evs
         ∧ forallb is_pool_event evs = true.
Proof.
  unfold convert_file. destruct (bool_decide _); [|apply convert_events].
  destruct (markitdown_convert W file); apply pool_events_nil.
Qed.

(** [_generate_embedding] only adds pool housekeeping to the log. *)
Lemma generate_embedding_events W ix m file markdown_dir root timeout :
  ∃ evs,
    events (_generate_embedding W ix m file markdown_dir root timeout).1.1
    = events ix ++ evs
    ∧ forallb is_pool_event evs = true.
Proof.
  unfold _generate_embedding.
  destruct (snapshot_write_path _ _ _); [|apply pool_events_nil].
  destruct (mkdir_parents _ _); [|apply pool_events_nil].
  destruct (oversized_archive _ _); [apply pool_events_nil|].
  pose proof (convert_file_events W ix file timeout) as Hc.
  destruct (convert_file _ _ _ _) as [ix1 [text_content|]]; [|exact Hc].
  destruct (PyStr.strip _); [exact Hc|].
  pose proof (encode_events W ix1 text_content timeout) as He.
  destruct (_encode_with_timeout _ _ _ _) as [ix2 [e|]];
    exact (pool_events_trans _ _ _ Hc He).
Qed.

(** ** When a conversion gives no text *)

(** The conversion step gives no text exactly when the inline converter
    reports an unsupported format or an error, or when the pool's answer is
    anything but a success: unsupported, error, timeout, exception. *)
Lemma convert_file_None W ix file timeout :
  (convert_file W ix file timeout).2 = None ↔
  if bool_decide (lower_name (suffix file) ∈ fast_formats)
  then ∀ text_content, markitdown_convert W file ≠ ConvSuccess text_content
  else ∀ text_content,
      (let '(ix0, ex) := _ensure_conversion_executor ix in
       pool_convert W (events ix0) ex file
         (if _conversion_warmup_used ix then timeout
          else timeout + _CONVERSION_STARTUP_BUFFER))
      ≠ Result (ConvSuccess text_content).
Proof.
  unfold convert_file. destruct (bool_decide _).
  - destruct (markitdown_convert W file); simpl; split; try done.
    intros H. now destruct (H text_content).
  - pose proof (convert_to_markdown_budget W ix file timeout) as H.
    destruct (_ensure_conversion_executor ix) as [ix0 ex]. cbv zeta in *.
    destruct H as (_ & Hok & Hto & Hother).
    destruct (pool_convert W (events ix0) ex file _) as [[data|msg|msg]| |] eqn:Ha.
    + destruct (Hok data eq_refl) as (-> & _). split; [done|].
      intros H. now destruct (H data).
    + destruct Hother as (-> & _); done.
    + destruct Hother as (-> & _); done.
    + destruct (Hto eq_refl) as (-> & _). done.
    + destruct Hother as (-> & _); done.
Qed.

(** ** The answers of the workers and what the indexer makes of them *)

Lemma convert_file_answer W ix file timeout :
  (convert_file W ix file timeout).2
  = match conversion_answer W ix file timeout with
    | Result (ConvSuccess text_content) => Some text_content
    | _ => None
    end.
Proof.
  unfold convert_file, conversion_answer. destruct (bool_decide _).
  - now destruct (markitdown_convert W file).
  - pose proof (convert_to_markdown_budget W ix file timeout) as H.
    destruct (_ensure_conversion_executor ix) as [ix0 ex]. cbv zeta in H.
    destruct H as (_ & Hok & Hto & Hother).
    destruct (pool_convert W (events ix0) ex file _) as [[data|msg|msg]| |] eqn:Ha.
    + now destruct (Hok data eq_refl) as (-> & _).
    + destruct Hother as (-> & _); done.
    + destruct Hother as (-> & _); done.
    + now destruct (Hto eq_refl) as (-> & _).
    + destruct Hother as (-> & _); done.
Qed.

Lemma encode_answer W ix text_content timeout :
  (_encode_with_timeout W ix text_content timeout).2
  = match embedding_answer W ix text_content timeout with
    | Result (EncSuccess embedding) => Some embedding
    | _ => None
    end.
Proof.
  unfold embedding_answer.
  pose proof (encode_with_timeout_budget W ix text_content timeout) as H.
  destruct (_ensure_embedding_executor ix) as [ix0 ex]. cbv zeta in H.
  destruct H as (_ & Hok & Hto & Hother).
  destruct (pool_encode W (events ix0) ex text_content _ _) as [[data|msg]| |] eqn:Ha.
  - now destruct (Hok data eq_refl) as (-> & _).
  - destruct Hother as (-> & _); done.
  - now destruct (Hto eq_refl) as (-> & _).
  - destruct Hother as (-> & _); done.
Qed.

(** ** The outcome of [_generate_embedding] *)

Lemma oversized_archive_true W file :
  lower_name (suffix file) ∈ _ARCHIVE_EXTENSIONS →
  (∀ size, stat_size W file = Some size → size > _MAX_ARCHIVE_SIZE_BYTES) →
  oversized_archive W file = true.
Proof.
  intros Hext Hsize. unfold oversized_archive.
  rewrite bool_decide_eq_true_2 by done. simpl.
  destruct (stat_size W file) as [size|]; [|reflexivity].
  specialize (Hsize size eq_refl). apply Z.gtb_gt. lia.
Qed.

(** Once the snapshot's directory is in place, a failure or timeout in
    conversion or embedding makes [_generate_embedding] return [None]. *)
Lemma generate_embedding_skips W ix m file markdown_dir root timeout markdown_path m1 :
  snapshot_write_path file markdown_dir root = Some markdown_path →
  mkdir_parents m (parent markdown_path) = Some m1 →
  skip_reason W ix file timeout →
  (_generate_embedding W ix m file markdown_dir root timeout).2 = NoEmbedding.
Proof.
  intros Hp Hm Hs. unfold _generate_embedding. rewrite Hp, Hm.
  destruct (oversized_archive W file) eqn:Ho; [reflexivity|].
  pose proof (convert_file_answer W ix file timeout) as Hc.
  destruct (convert_file W ix file timeout) as [ix1 [t|]] eqn:Hcf; [|reflexivity].
  cbn [snd] in Hc.
  assert (conversion_answer W ix file timeout = Result (ConvSuccess t)) as Ha.
  { destruct (conversion_answer W ix file timeout) as [[t'|msg|msg]| |];
      congruence. }
  destruct Hs as [Hext Hsize|Hfail|text_content Hconv Hblank|text_content Hconv Hfail].
  - now rewrite oversized_archive_true in Ho.
  - now destruct (Hfail t).
  - assert (text_content = t) as -> by congruence. now rewrite Hblank.
  - assert (text_content = t) as -> by congruence.
    destruct (PyStr.strip t); [reflexivity|].
    pose proof (encode_answer W ix1 t timeout) as He.
    rewrite Hcf in Hfail. cbn [fst] in Hfail.
    destruct (_encode_with_timeout W ix1 t timeout) as [ix2 [e|]]; [|reflexivity].
    cbn [snd] in He.
    destruct (embedding_answer W ix1 t timeout) as [[e'|msg]| |]; try congruence.
    now destruct (Hfail e').
Qed.

(** Conversely, [None] is returned for one of these reasons only. *)
Lemma generate_embedding_None_reason W ix m file markdown_dir root timeout :
  (_generate_embedding W ix m file markdown_dir root timeout).2 = NoEmbedding →
  skip_reason W ix file timeout.
Proof.
  unfold _generate_embedding.
  destruct (snapshot_write_path _ _ _); [|done].
  destruct (mkdir_parents _ _); [|done].
  destruct (oversized_archive W file) eqn:Ho.
  - intros _. unfold oversized_archive in Ho.
    apply andb_true_iff in Ho as [Hext Hsize]. apply bool_decide_eq_true in Hext.
    apply OversizedArchive; [done|]. intros size Hst. rewrite Hst in Hsize.
    apply Z.gtb_gt in Hsize. lia.
  - pose proof (convert_file_answer W ix file timeout) as Hc.
    destruct (convert_file W ix file timeout) as [ix1 [t|]] eqn:Hcf; cbn [snd] in Hc.
    + assert (conversion_answer W ix file timeout = Result (ConvSuccess t)) as Ha.
      { destruct (conversion_answer W ix file timeout) as [[t'|msg|msg]| |];
          congruence. }
      destruct (PyStr.strip t) eqn:Hb.
      * intros _. now apply (EmptyText _ _ _ _ t).
      * pose proof (encode_answer W ix1 t timeout) as He.
        destruct (_encode_with_timeout W ix1 t timeout) as [ix2 [e|]]; [done|].
        cbn [snd] in He. intros _. apply (EmbeddingFailed _ _ _ _ t); [done|].
        rewrite Hcf. cbn [fst]. intros e' He'. rewrite He' in He. done.
    + intros _. apply ConversionFailed. intros t Ht. rewrite Ht in Hc. done.
Qed.

(** ** One iteration of the loop over [file_list] *)

Lemma process_file_unfold W hashes markdown_dir root timeout callback st file h x :
  process_file W hashes markdown_dir root timeout callback st (file, h, x)
  = match needs hashes file h with
    | None => (st, true)
    | Some k =>
        let g := _generate_embedding W (indexer st) (disk st) file markdown_dir root
                                     timeout in
        match g.2 with
        | Raised => (mkState g.1.1 g.1.2 (conn st), false)
        | NoEmbedding => (mkState g.1.1 g.1.2 (conn st), true)
        | Embedding e =>
            let ix := if callback then log (Progress file) g.1.1 else g.1.1 in
            let r := mkRow h e (utc_now W (events ix)) x in
            match k with
            | Inserted =>
                match sql_insert file r (conn st) with
                | Some c => (mkState (log (SqlInsert file r) ix) g.1.2 c, true)
                | None => (mkState ix g.1.2 (conn st), false)
                end
            | Updated =>
                (mkState (log (SqlUpdate file r) ix) g.1.2
                         (sql_update file r (conn st)), true)
            end
        end
    end.
Proof.
  unfold process_file, needs.
  destruct (hashes !! file) as [db_hash|].
  - destruct (negb _); [|reflexivity].
    destruct (_generate_embedding _ _ _ _ _ _ _) as [[ix m] [e| |]]; reflexivity.
  - destruct (_generate_embedding _ _ _ _ _ _ _) as [[ix m] [e| |]]; reflexivity.
Qed.

(** ** Replaying the log *)

Lemma replay_app evs1 evs2 table :
  replay (evs1 ++ evs2) table = replay evs2 (replay evs1 table).
Proof. unfold replay. apply foldl_app. Qed.

Lemma replay_pool_events evs table :
  forallb is_pool_event evs = true → replay evs table = table.
Proof.
  revert table; induction evs as [|e evs IH]; intros table; [done|].
  simpl. intros [He Hevs]%andb_true_iff.
  change (replay evs (apply_sql table e) = table).
  rewrite IH by done. now destruct e.
Qed.

Lemma pool_events_inside evs :
  forallb is_pool_event evs = true → forallb inside_transaction evs = true.
Proof.
  induction evs as [|e evs IH]; [done|]. simpl.
  intros [He Hevs]%andb_true_iff. rewrite IH by done. now destruct e.
Qed.

Lemma visible_pool_events evs :
  forallb is_pool_event evs = true → visible evs = [].
Proof.
  induction evs as [|e evs IH]; [done|]. simpl.
  intros [He Hevs]%andb_true_iff. unfold visible in *.
  rewrite filter_cons, IH by done. now rewrite decide_False by (rewrite He; done).
Qed.

Lemma visible_app evs1 evs2 : visible (evs1 ++ evs2) = visible evs1 ++ visible evs2.
Proof. apply filter_app. Qed.

Lemma since_app (evs new : list event) : since (length evs) (evs ++ new) = new.
Proof. unfold since. now rewrite drop_app_length. Qed.

(** What one iteration does: it adds pool housekeeping, then possibly the
    callback and the statement that stages the row; the connection changes
    by that statement only. *)
Lemma process_file_summary W hashes markdown_dir root timeout callback st file h x :
  let res := process_file W hashes markdown_dir root timeout callback st (file, h, x) in
  ∃ pool_evs vis,
    events (indexer res.1) = events (indexer st) ++ pool_evs ++ vis
    ∧ forallb is_pool_event pool_evs = true
    ∧ persistent (conn res.1) = persistent (conn st)
    ∧ staged (conn res.1) = replay vis (staged (conn st))
    ∧ (vis = []
       ∨ (∃ k r, res.2 = true
                 ∧ vis = (if callback then [Progress file] else [])
                         ++ [stage_event k file r])
       ∨ (res.2 = false ∧ vis = if callback then [Progress file] else [])).
Proof.
  cbv zeta. rewrite process_file_unfold.
  destruct (needs hashes file h) as [k|].
  2:{ exists [], []. rewrite !app_nil_r. auto 10. }
  cbv zeta.
  destruct (generate_embedding_events W (indexer st) (disk st) file markdown_dir root
              timeout) as (pool_evs & Hev & Hpool).
  destruct (_generate_embedding _ _ _ _ _ _ _) as [[ix m] [e| |]]; simpl in *.
  3:{ exists pool_evs, []. rewrite app_nil_r. auto 10. }
  2:{ exists pool_evs, []. rewrite app_nil_r. auto 10. }
  set (ix' := if callback then log (Progress file) ix else ix).
  assert (events ix' = events ix ++ (if callback then [Progress file] else [])) as Hix.
  { unfold ix'. destruct callback; simpl; [done | now rewrite app_nil_r]. }
  set (r := mkRow h e (utc_now W (events ix')) x).
  assert (∀ t : gmap path row,
             replay (if callback then [Progress file] else []) t = t) as Hcb.
  { intros t. now destruct callback. }
  destruct k.
  - unfold sql_insert. destruct (staged (conn st) !! file) eqn:Hl; simpl.
    + exists pool_evs, (if callback then [Progress file] else []).
      rewrite Hix, Hev, <- app_assoc, Hcb. auto 10.
    + exists pool_evs, ((if callback then [Progress file] else [])
                         ++ [stage_event Inserted file r]).
      rewrite Hix, Hev, <- !app_assoc, replay_app, Hcb.
      repeat split; auto. right; left. now exists Inserted, r.
  - simpl. exists pool_evs, ((if callback then [Progress file] else [])
                              ++ [stage_event Updated file r]).
    rewrite Hix, Hev, <- !app_assoc, replay_app, Hcb.
    repeat split; auto.
    + unfold sql_update. simpl. now destruct (staged (conn st) !! file).
    + unfold sql_update. simpl. now destruct (staged (conn st) !! file).
    + right; left. now exists Updated, r.
Qed.

(** ** The two loops *)

Lemma remove_files_summary markdown_dir root st files :
  let res := remove_files markdown_dir root st files in
  ∃ done,
    events (indexer res.1) = events (indexer st) ++ (SqlDelete <$> done)
    ∧ done `prefix_of` files
    ∧ (res.2 = true → done = files)
    ∧ persistent (conn res.1) = persistent (conn st)
    ∧ staged (conn res.1) = replay (SqlDelete <$> done) (staged (conn st)).
Proof.
  cbv zeta. revert st; induction files as [|file files IH]; intros st; simpl.
  - exists []. rewrite app_nil_r. auto.
  - unfold remove_file. simpl.
    destruct (_delete_markdown_snapshot (disk st) file markdown_dir root) as [m|].
    + set (st1 := mkState _ m _).
      destruct (IH st1) as (done & Hev & Hpre & Hall & Hper & Hst).
      exists (file :: done). rewrite Hev, Hper, Hst. simpl. rewrite <- app_assoc.
      repeat split; auto.
      * now apply prefix_cons.
      * intros H. now rewrite Hall.
    + exists []. simpl. rewrite app_nil_r. repeat split; auto.
      * apply prefix_nil.
      * done.
Qed.

Lemma process_files_cons W hashes markdown_dir root timeout callback st entry file_list :
  process_files W hashes markdown_dir root timeout callback st (entry :: file_list)
  = match process_file W hashes markdown_dir root timeout callback st entry with
    | (st', true) =>
        process_files W hashes markdown_dir root timeout callback st' file_list
    | (st', false) => (st', false)
    end.
Proof. reflexivity. Qed.

Lemma process_files_summary W hashes markdown_dir root timeout callback st file_list :
  let res := process_files W hashes markdown_dir root timeout callback st file_list in
  ∃ evs,
    events (indexer res.1) = events (indexer st) ++ evs
    ∧ forallb inside_transaction evs = true
    ∧ persistent (conn res.1) = persistent (conn st)
    ∧ staged (conn res.1) = replay evs (staged (conn st))
    ∧ (callback = true → res.2 = true →
       ∃ done, visible evs = callback_then_statement done
               ∧ done.*1.*2 `sublist_of` file_list.*1.*1).
Proof.
  cbv zeta. revert st; induction file_list as [|[[file h] x] file_list IH]; intros st.
  - exists []. simpl. rewrite app_nil_r. repeat split; auto.
    intros _ _. exists []. split; [done | constructor].
  - rewrite process_files_cons.
    destruct (process_file_summary W hashes markdown_dir root timeout callback st
                file h x) as (pool_evs & vis & Hev & Hpool & Hper & Hst & Hvis).
    destruct (process_file _ _ _ _ _ _ st (file, h, x)) as [st1 ok].
    cbn [fst snd] in *.
    assert (forallb inside_transaction vis = true) as Hin.
    { destruct Hvis as [->|[(k & r & _ & ->)|(_ & ->)]]; [done| |].
      - destruct callback, k; done.
      - destruct callback; done. }
    destruct ok.
    + destruct (IH st1) as (evs & Hev' & Hins & Hper' & Hst' & Hdone).
      exists (pool_evs ++ vis ++ evs).
      rewrite Hev', Hev, Hper', Hper, Hst', Hst, <- !app_assoc.
      rewrite !forallb_app, (pool_events_inside _ Hpool), Hin, Hins.
      rewrite !replay_app, (replay_pool_events _ _ Hpool).
      repeat split; auto.
      intros Hcb Hok. destruct (Hdone Hcb Hok) as (done & Hv & Hsub).
      rewrite !visible_app, (visible_pool_events _ Hpool), Hv. simpl.
      destruct Hvis as [->|[(k & r & _ & ->)|(? & _)]]; [| |done].
      * exists done. split; [done|]. now constructor.
      * rewrite Hcb. exists ((k, file, r) :: done). split.
        -- destruct k; reflexivity.
        -- simpl. now constructor.
    + exists (pool_evs ++ vis). cbn [fst snd].
      rewrite Hev, Hper, Hst, forallb_app, (pool_events_inside _ Hpool), Hin.
      rewrite replay_app, (replay_pool_events _ _ Hpool).
      repeat split; auto. done.
Qed.

(** ** Skipped files *)

(** A new or changed file of the batch whose conversion or embedding fails
    or times out (oversized archive, unsupported format, conversion error
    or timeout, empty or white-space-only text, embedding error or
    timeout), once the directory of its snapshot is in place: the iteration
    leaves the connection as it was, so the file's row, if there is one,
    keeps its hash, embedding, timestamp and extension, both as staged and
    as committed; neither the callback nor a statement is logged; and the
    loop goes on with the remaining files. *)
Theorem failed_file_is_skipped (W : World) (hashes : gmap path string)
    (markdown_dir root : path) (timeout : Z) (callback : bool) (st : state)
    (file : path) (h x : string) (rest : list scanned)
    (markdown_path : path) (m1 : fs) :
  snapshot_write_path file markdown_dir root = Some markdown_path →
  mkdir_parents (disk st) (parent markdown_path) = Some m1 →
  skip_reason W (indexer st) file timeout →
  let st' := (process_file W hashes markdown_dir root timeout callback st
                (file, h, x)).1 in
  conn st' = conn st
  ∧ staged (conn st') !! file = staged (conn st) !! file
  ∧ persistent (conn st') !! file = persistent (conn st) !! file
  ∧ visible (since (length (events (indexer st))) (events (indexer st'))) = []
  ∧ process_files W hashes markdown_dir root timeout callback st
      ((file, h, x) :: rest)
    = process_files W hashes markdown_dir root timeout callback st' rest.
Proof.
  intros Hp Hm Hs. cbv zeta.
  pose proof (generate_embedding_skips _ _ _ _ _ _ _ _ _ Hp Hm Hs) as Hg.
  pose proof (generate_embedding_events W (indexer st) (disk st) file markdown_dir
                root timeout) as (evs & Hev & Hpool).
  rewrite process_files_cons, process_file_unfold.
  destruct (needs hashes file h) as [k|]; cbv zeta.
  - rewrite Hg. cbn [fst snd indexer conn]. rewrite Hev, since_app.
    rewrite (visible_pool_events _ Hpool). auto.
  - cbn [fst snd]. unfold since. rewrite drop_all. auto.
Qed.

(** The theorem on a changed text file that the converter rejects: the old
    row stays. *)
Lemma failed_file_is_skipped_witness :
  let old := mkRow "old" [Byte.x07] "2025-06-01T00:00:00+00:00" ".txt" in
  let st := mkState __init__ ∅ (connect {[ ["r"; "a.txt"] := old ]}) in
  let st' := (process_file picky_world {[ ["r"; "a.txt"] := "old" ]}
                ["t"; "_markdown"] ["r"] 5 true st (["r"; "a.txt"], "new", ".txt")).1 in
  staged (conn st') !! ["r"; "a.txt"] = Some old
  ∧ persistent (conn st') !! ["r"; "a.txt"] = Some old.
Proof.
  cbv zeta.
  assert (skip_reason picky_world __init__ ["r"; "a.txt"] 5) as Hreason.
  { apply ConversionFailed. intros text_content H. vm_compute in H. discriminate. }
  pose proof (failed_file_is_skipped picky_world {[ ["r"; "a.txt"] := "old" ]}
                ["t"; "_markdown"] ["r"] 5 true
                (mkState __init__ ∅
                   (connect {[ ["r"; "a.txt"]
                               := mkRow "old" [Byte.x07] "2025-06-01T00:00:00+00:00"
                                        ".txt" ]}))
                ["r"; "a.txt"] "new" ".txt" []
                ["t"; "_markdown"; "a.txt.md"]
                {[ ["t"] := Dir; ["t"; "_markdown"] := Dir ]}
                eq_refl eq_refl Hreason)
    as (_ & Hs & Hp & _).
  split; [rewrite Hs | rewrite Hp]; reflexivity.
Defined.

(** C1. The claim fails where the directory of the snapshot cannot be
    made: it is created before the size of an archive is looked at and
    before anything is converted, outside every [try]. Root [/r] holds
    the file [notes.txt], beside it the directory [notes.txt.md] with the
    archive [big.zip] of 60 MiB, and [other/c.txt]. The snapshot of
    [notes.txt] is the file [_markdown/notes.txt.md]; the snapshot of the
    archive needs a directory of that name, and [mkdir] raises. The
    archive, which is above the size limit, is not skipped: the exception
    leaves the loop and ends the pass. [c.txt] is never looked at and
    nothing is committed, not even the row of [notes.txt], whose callback
    was called and whose snapshot is on disk. *)
Lemma oversized_archive_ends_pass :
  let file_list := [(["r"; "notes.txt"], "h1", ".txt");
                    (["r"; "notes.txt.md"; "big.zip"], "h2", ".zip");
                    (["r"; "other"; "c.txt"], "h3", ".txt")] in
  let m : fs := {[ ["t"] := Dir; ["t"; "_markdown"] := Dir ]} in
  let fin := _update_database heavy_world __init__ m ∅ file_list
                              ["t"; "_markdown"] ["r"] 5 true in
  (∀ ix, skip_reason heavy_world ix ["r"; "notes.txt.md"; "big.zip"] 5)
  ∧ fin.2 = Escaped
  ∧ persistent (conn fin.1) = ∅
  ∧ visible (events (indexer fin.1))
    = [Progress ["r"; "notes.txt"];
       SqlInsert ["r"; "notes.txt"]
         (mkRow "h1" [Byte.x01] "2026-01-01T00:00:00+00:00" ".txt")]
  ∧ disk fin.1 !! ["t"; "_markdown"; "notes.txt.md"]
    = Some (File (PyStr.of_string "hello"))
  ∧ mkdir_parents (disk fin.1) ["t"; "_markdown"; "notes.txt.md"] = None.
Proof.
  cbv zeta. split.
  { intros ix. apply OversizedArchive.
    - vm_compute. do 0 apply list_elem_of_further. apply list_elem_of_here.
    - intros size [= <-]. vm_compute. reflexivity. }
  vm_compute. repeat split.
Qed.

(** ** The transaction *)

(** C2. Every statement of a pass (the deletes, inserts and updates) is
    logged before the one [Commit] or [Rollback], which is the last thing
    the pass does. When the commit goes through, the committed table is the
    old one with all statements of the pass applied; when it fails, the
    pass rolls back and ends with the error; when an exception leaves a
    loop, nothing is committed. In the last two cases the committed table
    is the one the pass started from: never a part of the statements. The
    caller of [reindex] gets the same ending and the same store. *)
Theorem single_transaction (W : World) (ix : DocIndexer) (m : fs)
    (table : gmap path row) (file_list : list scanned) (markdown_dir root : path)
    (timeout : Z) (callback : bool) :
  let fin := _update_database W ix m table file_list markdown_dir root timeout
                              callback in
  let out := reindex_update W ix m table file_list markdown_dir root timeout
                            callback in
  ∃ statements,
    events (indexer fin.1)
    = events ix ++ statements
      ++ match fin.2 with
         | Completed => [Commit]
         | CommitFailed => [Rollback]
         | Escaped => []
         end
    ∧ forallb inside_transaction statements = true
    ∧ persistent (conn fin.1)
      = match fin.2 with
        | Completed => replay statements table
        | CommitFailed | Escaped => table
        end
    ∧ out.2 = fin.2
    ∧ conn out.1 = conn fin.1.
Proof.
  cbv zeta. unfold reindex_update, _update_database.
  set (st0 := mkState ix m (connect table)).
  set (hashes := file_hash <$> staged (conn st0)).
  destruct (remove_files_summary markdown_dir root st0
              (files_to_remove W hashes file_list))
    as (removed & Hev1 & _ & _ & Hper1 & Hst1).
  assert (forallb inside_transaction (SqlDelete <$> removed) = true) as Hin1.
  { clear. induction removed; simpl; auto. }
  destruct (remove_files _ _ st0 _) as [st1 ok1]. cbn [fst snd] in *.
  destruct ok1.
  2:{ exists (SqlDelete <$> removed). cbn [fst snd indexer conn drop_connection persistent].
      rewrite app_nil_r. auto. }
  destruct (warmup_events W (indexer st1)) as (warm & Hev2 & Hpool2).
  set (st2 := mkState (_warmup_process_pools W (indexer st1)) (disk st1) (conn st1)).
  destruct (process_files_summary W hashes markdown_dir root timeout callback st2
              file_list) as (evs & Hev3 & Hin3 & Hper3 & Hst3 & _).
  destruct (process_files _ _ _ _ _ _ st2 _) as [st3 ok3]. cbn [fst snd] in *.
  assert (events (indexer st3)
          = events ix ++ (SqlDelete <$> removed) ++ warm ++ evs) as Hev.
  { rewrite Hev3. unfold st2. cbn [indexer]. rewrite Hev2, Hev1.
    now rewrite <- !app_assoc. }
  assert (forallb inside_transaction ((SqlDelete <$> removed) ++ warm ++ evs) = true)
    as Hin.
  { now rewrite !forallb_app, Hin1, (pool_events_inside _ Hpool2), Hin3. }
  assert (staged (conn st3) = replay ((SqlDelete <$> removed) ++ warm ++ evs) table)
    as Hst.
  { rewrite Hst3. unfold st2. cbn [conn]. rewrite Hst1.
    rewrite !replay_app, (replay_pool_events _ _ Hpool2). reflexivity. }
  assert (persistent (conn st3) = table) as Hper.
  { rewrite Hper3. unfold st2. cbn [conn]. now rewrite Hper1. }
  exists ((SqlDelete <$> removed) ++ warm ++ evs).
  destruct ok3.
  - unfold commit. destruct (commit_succeeds W (events (indexer st3)));
      cbn [fst snd indexer conn persistent log events];
      rewrite Hev, <- ?app_assoc; auto.
  - cbn [fst snd indexer conn drop_connection persistent].
    rewrite Hev, app_nil_r, <- ?app_assoc. auto.
Qed.

(** ** The progress callback *)

(** C4 (as amended). With a callback given, one iteration of the loop over
    [file_list] does the following after the pool housekeeping of
    [_generate_embedding]:
    - for a new or changed file whose embedding was generated, it calls the
      callback with the file's path and then executes the [INSERT] or
      [UPDATE] of the row (or, when the [INSERT] raises, nothing more): the
      callback comes strictly after the embedding is there and immediately
      before the row is staged;
    - for a skipped file it logs nothing more, and for an unchanged file it
      logs nothing at all: no callback.
    Over the whole loop, when it runs to its end, what the caller and the
    store see is, file after file in processing order, the callback followed
    by the statement of that file. *)
Theorem progress_before_staging (W : World) (hashes : gmap path string)
    (markdown_dir root : path) (timeout : Z) (st : state)
    (file : path) (h x : string) (file_list : list scanned) :
  (let g := _generate_embedding W (indexer st) (disk st) file markdown_dir root
                                timeout in
   let res := process_file W hashes markdown_dir root timeout true st (file, h, x) in
   match needs hashes file h with
   | None => res = (st, true)
   | Some k =>
       match g.2 with
       | Embedding e =>
           let r := mkRow h e (utc_now W (events g.1.1 ++ [Progress file])) x in
           (res.2 = true
            ∧ events (indexer res.1)
              = events g.1.1 ++ [Progress file; stage_event k file r])
           ∨ (res.2 = false ∧ k = Inserted
              ∧ events (indexer res.1) = events g.1.1 ++ [Progress file])
       | NoEmbedding | Raised =>
           events (indexer res.1) = events g.1.1 ∧ conn res.1 = conn st
       end
   end)
  ∧ (let res := process_files W hashes markdown_dir root timeout true st file_list in
     res.2 = true →
     ∃ done,
       visible (since (length (events (indexer st))) (events (indexer res.1)))
       = callback_then_statement done
       ∧ done.*1.*2 `sublist_of` file_list.*1.*1).
Proof.
  split; cbv zeta.
  - rewrite process_file_unfold.
    destruct (needs hashes file h) as [k|]; [|reflexivity]. cbv zeta.
    destruct (_generate_embedding _ _ _ _ _ _ _) as [[ix m] [e| |]];
      cbn [fst snd]; auto.
    destruct k.
    + destruct (sql_insert _ _ _); cbn [fst snd indexer log events].
      * left. rewrite <- app_assoc. auto.
      * right. auto.
    + left. cbn [fst snd indexer log events]. rewrite <- app_assoc. auto.
  - intros Hok.
    destruct (process_files_summary W hashes markdown_dir root timeout true st
                file_list) as (evs & Hev & _ & _ & _ & Hdone).
    rewrite Hev, since_app. now apply Hdone.
Qed.

(** C4 as stated fails: in a pass over one new text file the callback is
    logged before the [INSERT] that stages the file's row. *)
Lemma progress_before_staging_counterexample :
  events (indexer (_update_database quiet_world __init__ ∅ ∅
                     [(["r"; "a.txt"], "h", ".txt")]
                     ["t"; "_markdown"] ["r"] 5 true).1)
  = [PoolCreated EmbeddingPool 1 0;
     Submitted EmbeddingPool 0 (Encode warmup_text "all-MiniLM-L6-v2") 20;
     Submitted EmbeddingPool 0
       (Encode (PyStr.of_string "hello") "all-MiniLM-L6-v2") 5;
     Progress ["r"; "a.txt"];
     SqlInsert ["r"; "a.txt"]
       (mkRow "h" [Byte.x01] "2026-01-01T00:00:00+00:00" ".txt");
     Commit].
Proof. reflexivity. Qed.

End PassFacts.

(* ===================================================================== *)
(** * Removed files: the row, the snapshot, the empty directories *)
(* ===================================================================== *)

Module CleanupFacts.
Import Pathlib FS Indexer Trace Worlds PathlibFacts PassFacts.

(** ** Directories and their entries *)

Lemma filter_nil_Forall {A} (P : A → Prop) `{∀ x, Decision (P x)} (l : list A) :
  filter P l = [] ↔ Forall (λ x, ¬ P x) l.
Proof.
  induction l as [|a l IH]; [by rewrite filter_nil|].
  rewrite filter_cons, Forall_cons. destruct (decide (P a)); [|tauto].
  split; [done | tauto].
Qed.

Lemma children_nil m d :
  children m d = [] ↔ ∀ q, is_Some (m !! q) → q ≠ [] → parent q ≠ d.
Proof.
  unfold children. rewrite filter_nil_Forall, Forall_forall. split.
  - intros H q Hq Hne Hpar. apply (H q); [|done].
    now apply elem_of_elements, elem_of_dom.
  - intros H q Hq [Hne Hpar]. apply elem_of_elements, elem_of_dom in Hq.
    now apply (H q).
Qed.

Lemma children_delete m d q : children m d = [] → children (delete q m) d = [].
Proof.
  rewrite !children_nil. intros H x Hx. apply H.
  destruct Hx as [v Hv]. apply lookup_delete_Some in Hv as [_ Hv]. eauto.
Qed.

Lemma children_delete_all m d ps : children m d = [] → children (delete_all ps m) d = [].
Proof.
  revert m; induction ps as [|p ps IH]; intros m H; [done|].
  simpl. apply IH. now apply children_delete.
Qed.

Lemma rmdir_Some m d m' :
  rmdir m d = Some m' ↔ m !! d = Some Dir ∧ children m d = [] ∧ m' = delete d m.
Proof.
  unfold rmdir. destruct (m !! d) as [[c|]|]; try (split; [done | intros [? _]; done]).
  destruct (decide _) as [Hc|Hc].
  - split; [intros [= <-]; done | intros (_ & _ & ->); done].
  - split; [done | intros (_ & ? & _); done].
Qed.

Lemma delete_all_lookup_None ps m q : m !! q = None → delete_all ps m !! q = None.
Proof.
  revert m; induction ps as [|p ps IH]; intros m H; [done|].
  simpl. apply IH. now apply lookup_delete_None; right.
Qed.

Lemma delete_all_lookup_ne ps m q : q ∉ ps → delete_all ps m !! q = m !! q.
Proof.
  revert m; induction ps as [|p ps IH]; intros m H; [done|].
  simpl. apply not_elem_of_cons in H as [Hne Hq].
  rewrite IH by done. now apply lookup_delete_ne.
Qed.

Lemma delete_all_lookup_elem ps m q : q ∈ ps → delete_all ps m !! q = None.
Proof.
  revert m; induction ps as [|p ps IH]; intros m H; [by apply elem_of_nil in H|].
  simpl. destruct (decide (q = p)) as [->|Hne].
  - apply delete_all_lookup_None, lookup_delete_eq.
  - apply IH. apply elem_of_cons in H as [?|?]; done.
Qed.

(** ** The chain of ancestors *)

Lemma chain_nil markdown_root : chain markdown_root [] = [].
Proof. reflexivity. Qed.

Lemma chain_snoc markdown_root dirs c :
  chain markdown_root (dirs ++ [c])
  = (markdown_root ++ dirs ++ [c]) :: chain markdown_root dirs.
Proof.
  unfold chain. rewrite length_app. simpl. rewrite Nat.add_1_r. simpl.
  rewrite removelast_last. now destruct (dirs ++ [c]) eqn:E; [destruct dirs|].
Qed.

Lemma chain_below markdown_root dirs d :
  d ∈ chain markdown_root dirs →
  ∃ k, (0 < k ≤ length dirs)%nat ∧ d = markdown_root ++ take k dirs.
Proof.
  induction dirs as [|c dirs IH] using rev_ind; [by intros ?%elem_of_nil|].
  rewrite chain_snoc. intros [->|Hd]%elem_of_cons.
  - exists (length (dirs ++ [c])). rewrite firstn_all. split; [|done].
    rewrite length_app. simpl. lia.
  - destruct (IH Hd) as (k & Hk & ->). exists k. rewrite length_app.
    split; [lia|]. now rewrite take_app_le by lia.
Qed.

Lemma chain_not_root markdown_root dirs : markdown_root ∉ chain markdown_root dirs.
Proof.
  intros (k & Hk & H)%chain_below.
  assert (length markdown_root = length (markdown_root ++ take k dirs)) as Hl
    by now rewrite <- H.
  rewrite length_app, length_take in Hl. lia.
Qed.

Lemma below_app markdown_root dirs c : below markdown_root (markdown_root ++ dirs ++ [c]) = true.
Proof.
  unfold below. apply bool_decide_eq_true. split.
  - intros H. assert (length markdown_root = length (markdown_root ++ dirs ++ [c])) as Hl
      by now rewrite <- H.
    rewrite !length_app in Hl. simpl in Hl. lia.
  - now exists (dirs ++ [c]).
Qed.

Lemma below_refl markdown_root : below markdown_root markdown_root = false.
Proof. unfold below. apply bool_decide_eq_false. intros [H _]. done. Qed.

Lemma parent_snoc (p : path) c : parent (p ++ [c]) = p.
Proof. unfold parent. apply removelast_last. Qed.

(** ** The pruning loop *)

(** The loop removes a first part of the chain, deepest first, and stops at
    the markdown root or at the first directory [rmdir] refuses. *)
Lemma prune_loop_spec markdown_root dirs :
  ∀ fuel m, (length (markdown_root ++ dirs) ≤ fuel)%nat →
  ∃ removed kept,
    chain markdown_root dirs = removed ++ kept
    ∧ prune_loop fuel m (markdown_root ++ dirs) markdown_root = delete_all removed m
    ∧ (∀ d, d ∈ removed →
         m !! d = Some Dir ∧ children (delete_all removed m) d = [])
    ∧ match kept with
      | d :: _ => rmdir (delete_all removed m) d = None
      | [] => True
      end.
Proof.
  induction dirs as [|c dirs IH] using rev_ind; intros fuel m Hfuel.
  - exists [], []. rewrite (app_nil_r markdown_root).
    split; [done|]. split; [|split; [|done]].
    + destruct fuel; [done|]. simpl. now rewrite below_refl.
    + by intros d ?%elem_of_nil.
  - rewrite chain_snoc.
    destruct fuel as [|fuel]; [rewrite !length_app in Hfuel; simpl in Hfuel; lia|].
    simpl. rewrite below_app.
    destruct (rmdir m (markdown_root ++ dirs ++ [c])) as [m1|] eqn:Hrm.
    + apply rmdir_Some in Hrm as (Hdir & Hch & ->).
      assert (parent (markdown_root ++ dirs ++ [c]) = markdown_root ++ dirs) as ->
        by (rewrite app_assoc; apply parent_snoc).
      destruct (IH fuel (delete (markdown_root ++ dirs ++ [c]) m))
        as (removed & kept & Hchain & Hloop & Hrem & Hkept).
      { rewrite !length_app in *. simpl in Hfuel. lia. }
      exists ((markdown_root ++ dirs ++ [c]) :: removed), kept.
      rewrite Hchain, Hloop. split; [done|]. split; [done|]. split; [|done].
      intros d [->|Hd]%elem_of_cons.
      * split; [done|]. simpl. now apply children_delete_all, children_delete.
      * destruct (Hrem d Hd) as [H1 H2]. split; [|done].
        now apply lookup_delete_Some in H1 as [_ H1].
    + exists [], ((markdown_root ++ dirs ++ [c]) :: chain markdown_root dirs).
      split; [done|]. split; [done|]. split; [|done].
      by intros d ?%elem_of_nil.
Qed.

Lemma below_nil markdown_root : below markdown_root [] = false.
Proof.
  unfold below. apply bool_decide_eq_false. intros [Hne Hpre].
  apply prefix_nil_inv in Hpre. done.
Qed.

(** The length of [current_dir] is enough fuel: more fuel gives the same
    result, so the loop of the model ends as the [while] loop does. *)
Lemma prune_loop_fuel (fuel1 fuel2 : nat) (m : fs) (current_dir markdown_root : path) :
  (length current_dir ≤ fuel1)%nat → (length current_dir ≤ fuel2)%nat →
  prune_loop fuel1 m current_dir markdown_root
  = prune_loop fuel2 m current_dir markdown_root.
Proof.
  revert fuel2 m current_dir.
  induction fuel1 as [|fuel1 IH]; intros fuel2 m current_dir H1 H2.
  - destruct current_dir; [|simpl in H1; lia].
    destruct fuel2; [done|]. simpl. now rewrite below_nil.
  - destruct fuel2 as [|fuel2].
    + destruct current_dir; [|simpl in H2; lia]. simpl. now rewrite below_nil.
    + simpl. destruct (below markdown_root current_dir); [|done].
      destruct (rmdir m current_dir) as [m'|]; [|done].
      assert (length (parent current_dir) ≤ length current_dir - 1)%nat as Hl.
      { unfold parent. destruct current_dir as [|c l] using rev_ind; [simpl; lia|].
        rewrite removelast_last, length_app. simpl. lia. }
      apply IH; lia.
Qed.

(** ** Deleting one snapshot *)

Lemma snapshot_delete_inside file markdown_dir root rel :
  valid_name (name file) = true →
  relative_to file root = Some rel → rel ≠ [] →
  snapshot_delete_path file markdown_dir root
  = Snapshot (markdown_dir ++ parent rel ++ [name file +:+ ".md"]).
Proof.
  intros Hv Hrel Hne. unfold snapshot_delete_path.
  now rewrite Hrel, (snapshot_inside _ _ _ _ Hv Hrel Hne), stem_md_suffix.
Qed.

Lemma delete_snapshot_file m file markdown_dir root rel content :
  valid_name (name file) = true →
  relative_to file root = Some rel → rel ≠ [] →
  let snapshot := markdown_dir ++ parent rel ++ [name file +:+ ".md"] in
  m !! snapshot = Some (File content) →
  ∃ removed kept,
    chain markdown_dir (parent rel) = removed ++ kept
    ∧ _delete_markdown_snapshot m file markdown_dir root
      = Some (delete_all removed (delete snapshot m))
    ∧ (∀ d, d ∈ removed →
         m !! d = Some Dir
         ∧ children (delete_all removed (delete snapshot m)) d = [])
    ∧ match kept with
      | d :: _ => rmdir (delete_all removed (delete snapshot m)) d = None
      | [] => True
      end.
Proof.
  intros Hv Hrel Hne snapshot Hs.
  unfold _delete_markdown_snapshot.
  rewrite (snapshot_delete_inside _ _ _ _ Hv Hrel Hne). fold snapshot.
  unfold exists_, unlink. rewrite Hs.
  assert (parent snapshot = markdown_dir ++ parent rel) as ->.
  { unfold snapshot. rewrite app_assoc. apply parent_snoc. }
  unfold _prune_empty_markdown_dirs.
  destruct (prune_loop_spec markdown_dir (parent rel)
              (length (markdown_dir ++ parent rel)) (delete snapshot m) (le_n _))
    as (removed & kept & Hchain & Hloop & Hrem & Hkept).
  exists removed, kept. rewrite Hloop. split; [done|]. split; [done|].
  split; [|done]. intros d Hd. destruct (Hrem d Hd) as [H1 H2]. split; [|done].
  now apply lookup_delete_Some in H1 as [_ H1].
Qed.

Lemma delete_snapshot_missing m file markdown_dir root rel :
  valid_name (name file) = true →
  relative_to file root = Some rel → rel ≠ [] →
  m !! (markdown_dir ++ parent rel ++ [name file +:+ ".md"]) = None →
  _delete_markdown_snapshot m file markdown_dir root = Some m.
Proof.
  intros Hv Hrel Hne Hs. unfold _delete_markdown_snapshot.
  rewrite (snapshot_delete_inside _ _ _ _ Hv Hrel Hne).
  unfold exists_. now rewrite Hs.
Qed.

(** ** The row of a removed file *)

Lemma files_to_remove_elem (W : World) (table : gmap path row)
    (file_list : list scanned) (file : path) :
  file ∈ files_to_remove W (file_hash <$> table) file_list
  ↔ is_Some (table !! file) ∧ file ∉ file_list.*1.*1.
Proof.
  unfold files_to_remove. rewrite merge_sort_Permutation, elem_of_elements.
  rewrite elem_of_difference, elem_of_dom, lookup_fmap, fmap_is_Some.
  now rewrite elem_of_list_to_set.
Qed.

Lemma replay_deletes_None (files : list path) (table : gmap path row) (file : path) :
  table !! file = None → replay (SqlDelete <$> files) table !! file = None.
Proof.
  revert table; induction files as [|f files IH]; intros table H; [done|].
  simpl. apply IH. now apply lookup_delete_None; right.
Qed.

Lemma replay_deletes_elem (files : list path) (table : gmap path row) (file : path) :
  file ∈ files → replay (SqlDelete <$> files) table !! file = None.
Proof.
  revert table; induction files as [|f files IH]; intros table H;
    [by apply elem_of_nil in H|].
  simpl. destruct (decide (file = f)) as [->|Hne].
  - apply replay_deletes_None, lookup_delete_eq.
  - apply IH. apply elem_of_cons in H as [?|?]; done.
Qed.

(** The loop over [file_list] touches the rows of scanned files only. *)
Lemma process_files_frame W hashes markdown_dir root timeout callback st file_list q :
  q ∉ file_list.*1.*1 →
  staged (conn (process_files W hashes markdown_dir root timeout callback st
                  file_list).1) !! q
  = staged (conn st) !! q.
Proof.
  revert st; induction file_list as [|[[file h] x] file_list IH]; intros st Hq;
    [done|].
  simpl in Hq. apply not_elem_of_cons in Hq as [Hne Hq].
  rewrite process_files_cons, process_file_unfold.
  destruct (needs hashes file h) as [k|]; [|now apply IH]. cbv zeta.
  destruct (_generate_embedding _ _ _ _ _ _ _) as [[ix m] [e| |]]; cbn [fst snd].
  - destruct k.
    + unfold sql_insert. destruct (staged (conn st) !! file) eqn:E; [done|].
      rewrite IH by done. cbn [conn staged]. now apply lookup_insert_ne.
    + rewrite IH by done. unfold sql_update. cbn [conn].
      destruct (staged (conn st) !! file); [|done].
      cbn [staged]. now apply lookup_insert_ne.
  - now rewrite IH.
  - done.
Qed.

(** A row that is stored but not scanned is gone once the pass has
    committed. *)
Lemma removed_row_committed (W : World) (ix : DocIndexer) (m : fs)
    (table : gmap path row) (file_list : list scanned) (markdown_dir root : path)
    (timeout : Z) (callback : bool) (file : path) :
  is_Some (table !! file) → file ∉ file_list.*1.*1 →
  let fin := _update_database W ix m table file_list markdown_dir root timeout
                              callback in
  fin.2 = Completed → persistent (conn fin.1) !! file = None.
Proof.
  intros Hrow Hscan. cbv zeta. unfold _update_database.
  set (st0 := mkState ix m (connect table)).
  set (hashes := file_hash <$> staged (conn st0)).
  destruct (remove_files_summary markdown_dir root st0
              (files_to_remove W hashes file_list))
    as (removed & _ & _ & Hall & _ & Hst1).
  destruct (remove_files _ _ st0 _) as [st1 ok1]. cbn [fst snd] in *.
  destruct ok1; [|done]. rewrite Hall in Hst1 by done.
  set (st2 := mkState (_warmup_process_pools W (indexer st1)) (disk st1) (conn st1)).
  pose proof (process_files_frame W hashes markdown_dir root timeout callback st2
                file_list file Hscan) as Hfr.
  destruct (process_files _ _ _ _ _ _ st2 _) as [st3 ok3]. cbn [fst snd] in *.
  destruct ok3; [|done]. unfold commit.
  destruct (commit_succeeds W _); [|done]. intros _.
  cbn [fst conn persistent]. rewrite Hfr. unfold st2. cbn [conn]. rewrite Hst1.
  apply replay_deletes_elem. unfold hashes, st0. cbn [conn connect staged].
  now apply files_to_remove_elem.
Qed.

Lemma snapshot_not_root (markdown_dir dirs : path) (nm : string) :
  markdown_dir ≠ markdown_dir ++ dirs ++ [nm].
Proof.
  intros H.
  assert (length markdown_dir = length (markdown_dir ++ dirs ++ [nm])) as Hl
    by now rewrite <- H.
  rewrite !length_app in Hl. simpl in Hl. lia.
Qed.

(** ** The removal loop inside the pass *)

Lemma remove_files_app (markdown_dir root : path) (st : state) (before rest : list path) :
  remove_files markdown_dir root st (before ++ rest)
  = match remove_files markdown_dir root st before with
    | (st', true) => remove_files markdown_dir root st' rest
    | (st', false) => (st', false)
    end.
Proof.
  revert st. induction before as [|file before IH]; intros st; [done|].
  simpl. destruct (remove_file markdown_dir root st file) as [st1|]; [apply IH | done].
Qed.

(** A snapshot path that holds no regular file: nothing is deleted. *)
Lemma delete_snapshot_no_file m file markdown_dir root rel :
  valid_name (name file) = true →
  relative_to file root = Some rel → rel ≠ [] →
  (∀ content,
     m !! (markdown_dir ++ parent rel ++ [name file +:+ ".md"]) ≠ Some (File content)) →
  _delete_markdown_snapshot m file markdown_dir root = Some m.
Proof.
  intros Hv Hrel Hne Hs. unfold _delete_markdown_snapshot.
  rewrite (snapshot_delete_inside _ _ _ _ Hv Hrel Hne).
  unfold exists_, unlink.
  destruct (m !! _) as [[content|]|]; [now destruct (Hs content)|done|done].
Qed.

(** What is on disk after the pruning loop was there before. *)
Lemma prune_loop_lookup_Some (markdown_root : path) (fuel : nat) (m : fs)
    (current_dir q : path) (v : node) :
  prune_loop fuel m current_dir markdown_root !! q = Some v → m !! q = Some v.
Proof.
  revert m current_dir. induction fuel as [|fuel IH]; intros m current_dir Hq; [done|].
  simpl in Hq. destruct (below markdown_root current_dir); [|done].
  destruct (rmdir m current_dir) as [m1|] eqn:Hrm; [|done].
  apply rmdir_Some in Hrm as (_ & _ & ->).
  apply IH in Hq. now apply lookup_delete_Some in Hq as [_ Hq].
Qed.

Lemma delete_snapshot_lookup_Some (m m' : fs) (file markdown_dir root q : path)
    (v : node) :
  _delete_markdown_snapshot m file markdown_dir root = Some m' →
  m' !! q = Some v → m !! q = Some v.
Proof.
  unfold _delete_markdown_snapshot.
  destruct (snapshot_delete_path file markdown_dir root) as [| |snapshot];
    [now intros [= <-] | done |].
  destruct (exists_ m snapshot); [|now intros [= <-]].
  unfold unlink. destruct (m !! snapshot) as [[content|]|];
    [|now intros [= <-]|now intros [= <-]].
  intros [= <-] Hq. apply prune_loop_lookup_Some in Hq.
  now apply lookup_delete_Some in Hq as [_ Hq].
Qed.

(** The removal loop creates nothing and rewrites nothing. *)
Lemma remove_files_disk (markdown_dir root : path) (st : state) (files : list path)
    (q : path) (v : node) :
  disk (remove_files markdown_dir root st files).1 !! q = Some v →
  disk st !! q = Some v.
Proof.
  revert st. induction files as [|file files IH]; intros st; [done|]. simpl.
  unfold remove_file. cbn [disk].
  destruct (_delete_markdown_snapshot (disk st) file markdown_dir root) as [m1|] eqn:Hd;
    [|done].
  intros Hq. apply IH in Hq. cbn [disk] in Hq.
  now apply (delete_snapshot_lookup_Some _ _ _ _ _ _ _ Hd).
Qed.

(** ** Regular files the second loop leaves on disk *)

Lemma mkdir_from_files (m : fs) (base : path) (rest : list string) (m' : fs)
    (q : path) (content : text) :
  mkdir_from m base rest = Some m' →
  m' !! q = Some (File content) → m !! q = Some (File content).
Proof.
  revert m base; induction rest as [|c rest IH]; intros m base H Hq.
  - now injection H as <-.
  - simpl in H. destruct (m !! (base ++ [c])) as [[t|]|] eqn:E; [done| |].
    + now apply (IH m (base ++ [c])).
    + pose proof (IH _ _ H Hq) as H1.
      now apply lookup_insert_Some in H1 as [[_ ?]|[_ ?]].
Qed.

Lemma write_text_Some (m m' : fs) (p : path) (t : text) :
  write_text m p t = Some m' → m' = <[p := File t]> m.
Proof.
  unfold write_text. destruct (m !! p) as [[c|]|]; [|done|];
    (destruct p as [|a p]; [done|]);
    destruct (parent (a :: p)); try (now intros [= <-]);
    destruct (m !! _) as [[c'|]|]; try done; now intros [= <-].
Qed.

(** A regular file on disk after [_generate_embedding] was there before,
    or is the snapshot just written. *)
Lemma generate_embedding_files W ix m file markdown_dir root timeout q content :
  (_generate_embedding W ix m file markdown_dir root timeout).1.2 !! q
  = Some (File content) →
  m !! q = Some (File content) ∨ snapshot_write_path file markdown_dir root = Some q.
Proof.
  unfold _generate_embedding.
  destruct (snapshot_write_path file markdown_dir root) as [markdown_path|];
    [|now left].
  destruct (mkdir_parents m (parent markdown_path)) as [m1|] eqn:Hmk; [|now left].
  assert (m1 !! q = Some (File content) → m !! q = Some (File content)) as Hm1
    by apply (mkdir_from_files _ _ _ _ _ _ Hmk).
  destruct (oversized_archive W file); [cbn; auto|].
  destruct (convert_file W ix file timeout) as [ix1 [t|]]; [|cbn; auto].
  destruct (PyStr.strip t); [cbn; auto|].
  assert (match write_text m1 markdown_path t with
          | Some m' => m'
          | None => m1
          end !! q = Some (File content) →
          m !! q = Some (File content) ∨ Some markdown_path = Some q) as Hw.
  { destruct (write_text m1 markdown_path t) as [m2|] eqn:Hwt; [|auto].
    apply write_text_Some in Hwt as ->.
    intros [[-> _]|[_ H]]%lookup_insert_Some; auto. }
  destruct (_encode_with_timeout W ix1 t timeout) as [ix2 [e|]]; cbn; apply Hw.
Qed.

Lemma process_files_files W hashes markdown_dir root timeout callback st file_list
    q content :
  disk (process_files W hashes markdown_dir root timeout callback st file_list).1 !! q
  = Some (File content) →
  disk st !! q = Some (File content)
  ∨ ∃ entry, entry ∈ file_list
             ∧ snapshot_write_path entry.1.1 markdown_dir root = Some q.
Proof.
  revert st; induction file_list as [|[[file h] x] file_list IH]; intros st;
    [now left|].
  assert (∀ st1 : state,
            disk st1 = (_generate_embedding W (indexer st) (disk st) file markdown_dir
                                            root timeout).1.2 →
            disk st1 !! q = Some (File content) →
            disk st !! q = Some (File content)
            ∨ ∃ entry, entry ∈ (file, h, x) :: file_list
                       ∧ snapshot_write_path entry.1.1 markdown_dir root = Some q)
    as Hone.
  { intros st1 -> [H|H]%generate_embedding_files; [now left|].
    right. exists (file, h, x). split; [apply list_elem_of_here | done]. }
  assert (∀ st1 : state,
            disk st1 = (_generate_embedding W (indexer st) (disk st) file markdown_dir
                                            root timeout).1.2 →
            disk (process_files W hashes markdown_dir root timeout callback st1
                    file_list).1 !! q = Some (File content) →
            disk st !! q = Some (File content)
            ∨ ∃ entry, entry ∈ (file, h, x) :: file_list
                       ∧ snapshot_write_path entry.1.1 markdown_dir root = Some q)
    as Hnext.
  { intros st1 Hst1 [H|(entry & Hin & H)]%IH; [now apply (Hone st1)|].
    right. exists entry. split; [now apply list_elem_of_further | done]. }
  rewrite process_files_cons, process_file_unfold.
  destruct (needs hashes file h) as [k|].
  2:{ intros [H|(entry & Hin & H)]%IH; [now left|].
      right. exists entry. split; [now apply list_elem_of_further | done]. }
  cbv zeta.
  destruct (_generate_embedding W (indexer st) (disk st) file markdown_dir root timeout)
    as [[ix1 m1] [e| |]]; cbn [fst snd] in *.
  - destruct k.
    + destruct (sql_insert _ _ _); [apply Hnext | apply Hone]; reflexivity.
    + apply Hnext. reflexivity.
  - apply Hnext. reflexivity.
  - apply Hone. reflexivity.
Qed.

(** A regular file on disk at the end of the pass was there when the
    removal loop had come as far as [done], or is the snapshot the pass
    wrote for a scanned file. *)
Lemma update_database_files (W : World) (ix : DocIndexer) (m : fs)
    (table : gmap path row) (file_list : list scanned) (markdown_dir root : path)
    (timeout : Z) (callback : bool) (before rest : list path) (next : state)
    (q : path) (content : text) :
  files_to_remove W (file_hash <$> table) file_list = before ++ rest →
  remove_files markdown_dir root (mkState ix m (connect table)) before = (next, true) →
  disk (_update_database W ix m table file_list markdown_dir root timeout callback).1
    !! q = Some (File content) →
  disk next !! q = Some (File content)
  ∨ ∃ entry, entry ∈ file_list
             ∧ snapshot_write_path entry.1.1 markdown_dir root = Some q.
Proof.
  intros Hlist Hnext. unfold _update_database. cbn [conn connect staged].
  rewrite Hlist, remove_files_app, Hnext.
  pose proof (remove_files_disk markdown_dir root next rest q (File content)) as Hrest.
  destruct (remove_files markdown_dir root next rest) as [st1 [|]]; cbn [fst] in Hrest.
  - set (st2 := mkState _ (disk st1) (conn st1)).
    pose proof (process_files_files W (file_hash <$> table) markdown_dir root timeout
                  callback st2 file_list q content) as Hfiles.
    destruct (process_files _ _ _ _ _ _ st2 file_list) as [st3 [|]];
      cbn [fst] in Hfiles.
    + unfold commit. destruct (commit_succeeds W _); cbn [fst disk];
        intros [H|H]%Hfiles; auto.
    + cbn [fst disk drop_connection]. intros [H|H]%Hfiles; auto.
  - cbn [fst disk drop_connection]. auto.
Qed.

(** C3 (as amended). Let [file] have a row in the store and be absent from
    the fresh scan.
    - Once the pass has committed, the store holds no row for [file].
    - [file] is on the removal list of the pass. Let the removal loop come
      as far as [file], in the state [reached].
    - When [file] lies inside [root] with a well-formed name, so that its
      snapshot is [markdown_dir / relative path] with ['.md'] appended to
      the name: the loop executes the [DELETE] of the row and goes on in
      the state [next]. When the snapshot path held a regular file, that
      file is deleted and directories are removed upward from its parent:
      the removed ones are a first part of the chain of ancestors strictly
      below the markdown root, each was a directory and is left with no
      entry, and the walk stops at the markdown root, which stays, or at
      the first ancestor [rmdir] refuses (one that is not an empty
      directory); nothing else on disk changes. When the snapshot path
      held no regular file, the disk is left as it is. Either way no
      regular file is at the snapshot path from then on: at the end of the
      pass one is there only if the pass wrote it as the snapshot of a
      scanned file.
    - When [file] lies outside [root], the loop executes the [DELETE] of
      the row and leaves the disk as it is: the snapshot is not deleted. *)
Theorem removed_file_cleanup (W : World) (ix : DocIndexer) (m : fs)
    (table : gmap path row) (file_list : list scanned) (markdown_dir root : path)
    (timeout : Z) (callback : bool) (file : path) :
  is_Some (table !! file) → file ∉ file_list.*1.*1 →
  let st0 := mkState ix m (connect table) in
  let fin := _update_database W ix m table file_list markdown_dir root timeout
                              callback in
  (fin.2 = Completed → persistent (conn fin.1) !! file = None)
  ∧ ∃ before after,
      files_to_remove W (file_hash <$> table) file_list = before ++ file :: after
      ∧ ∀ reached : state,
          remove_files markdown_dir root st0 before = (reached, true) →
          (∀ rel,
             relative_to file root = Some rel →
             valid_name (name file) = true → rel ≠ [] →
             let snapshot := markdown_dir ++ parent rel ++ [name file +:+ ".md"] in
             ∃ next removed kept,
               remove_files markdown_dir root st0 (before ++ [file]) = (next, true)
               ∧ events (indexer next) = events (indexer reached) ++ [SqlDelete file]
               ∧ staged (conn next) = delete file (staged (conn reached))
               ∧ match disk reached !! snapshot with
                 | Some (File _) =>
                     chain markdown_dir (parent rel) = removed ++ kept
                     ∧ disk next = delete_all removed (delete snapshot (disk reached))
                     ∧ disk next !! markdown_dir = disk reached !! markdown_dir
                     ∧ (∀ d, d ∈ removed →
                          disk reached !! d = Some Dir ∧ disk next !! d = None
                          ∧ children (disk next) d = [])
                     ∧ match kept with
                       | d :: _ => rmdir (disk next) d = None
                       | [] => True
                       end
                 | _ => disk next = disk reached
                 end
               ∧ (∀ content, disk next !! snapshot ≠ Some (File content))
               ∧ (∀ content,
                    disk fin.1 !! snapshot = Some (File content) →
                    ∃ entry, entry ∈ file_list
                             ∧ snapshot_write_path entry.1.1 markdown_dir root
                               = Some snapshot))
          ∧ (relative_to file root = None →
             ∃ next,
               remove_files markdown_dir root st0 (before ++ [file]) = (next, true)
               ∧ events (indexer next) = events (indexer reached) ++ [SqlDelete file]
               ∧ staged (conn next) = delete file (staged (conn reached))
               ∧ disk next = disk reached).
Proof.
  intros Hrow Hscan. cbv zeta. split; [now apply removed_row_committed|].
  assert (file ∈ files_to_remove W (file_hash <$> table) file_list) as Hin
    by now apply files_to_remove_elem.
  apply list_elem_of_split in Hin as (before & after & Hlist).
  exists before, after. split; [exact Hlist|]. intros reached Hreached.
  assert (∀ m1 : fs,
            _delete_markdown_snapshot (disk reached) file markdown_dir root = Some m1 →
            remove_files markdown_dir root (mkState ix m (connect table))
                         (before ++ [file])
            = (mkState (log (SqlDelete file) (indexer reached)) m1
                       (sql_delete file (conn reached)), true)) as Hstep.
  { intros m1 Hm1. rewrite remove_files_app, Hreached. simpl.
    unfold remove_file. cbn [disk]. now rewrite Hm1. }
  split.
  - intros rel Hrel Hv Hne. cbv zeta.
    set (snapshot := markdown_dir ++ parent rel ++ [name file +:+ ".md"]).
    assert (∀ next : state,
              remove_files markdown_dir root (mkState ix m (connect table))
                           (before ++ [file]) = (next, true) →
              (∀ content, disk next !! snapshot ≠ Some (File content)) →
              ∀ content,
                disk (_update_database W ix m table file_list markdown_dir root timeout
                                       callback).1 !! snapshot = Some (File content) →
                ∃ entry, entry ∈ file_list
                         ∧ snapshot_write_path entry.1.1 markdown_dir root
                           = Some snapshot) as Hend.
    { intros next Hnext Hnone content Hc.
      destruct (update_database_files W ix m table file_list markdown_dir root timeout
                  callback (before ++ [file]) after next snapshot content)
        as [H|H]; [|done|done| |done].
      - now rewrite <- app_assoc.
      - now destruct (Hnone content). }
    destruct (disk reached !! snapshot) as [[content|]|] eqn:Hs.
    + destruct (delete_snapshot_file (disk reached) file markdown_dir root rel content
                  Hv Hrel Hne Hs) as (removed & kept & Hchain & Hdel & Hrem & Hkept).
      fold snapshot in Hdel, Hrem, Hkept.
      pose proof (Hstep _ Hdel) as Hnext.
      assert (∀ c, delete_all removed (delete snapshot (disk reached)) !! snapshot
                   ≠ Some (File c)) as Hnone.
      { intros c. now rewrite delete_all_lookup_None by apply lookup_delete_eq. }
      eexists _, removed, kept. split; [exact Hnext|].
      cbn [indexer disk conn log events sql_delete staged].
      split; [done|]. split; [done|]. split; [|split; [exact Hnone|]].
      * split; [done|]. split; [done|]. split.
        { rewrite delete_all_lookup_ne.
          - apply lookup_delete_ne. intros H. symmetry in H.
            now apply snapshot_not_root in H.
          - intros Hroot. apply (chain_not_root markdown_dir (parent rel)).
            rewrite Hchain. apply elem_of_app. now left. }
        split; [|done].
        intros d Hd. destruct (Hrem d Hd) as [H1 H2].
        split; [done|]. split; [|done]. now apply delete_all_lookup_elem.
      * now apply (Hend _ Hnext).
    + assert (_delete_markdown_snapshot (disk reached) file markdown_dir root
              = Some (disk reached)) as Hdel.
      { apply (delete_snapshot_no_file _ _ _ _ rel Hv Hrel Hne).
        intros c. fold snapshot. now rewrite Hs. }
      pose proof (Hstep _ Hdel) as Hnext.
      assert (∀ c, disk reached !! snapshot ≠ Some (File c)) as Hnone
        by (intros c; now rewrite Hs).
      eexists _, [], []. split; [exact Hnext|].
      cbn [indexer disk conn log events sql_delete staged].
      split; [done|]. split; [done|]. split; [done|]. split; [exact Hnone|].
      now apply (Hend _ Hnext).
    + assert (_delete_markdown_snapshot (disk reached) file markdown_dir root
              = Some (disk reached)) as Hdel.
      { apply (delete_snapshot_no_file _ _ _ _ rel Hv Hrel Hne).
        intros c. fold snapshot. now rewrite Hs. }
      pose proof (Hstep _ Hdel) as Hnext.
      assert (∀ c, disk reached !! snapshot ≠ Some (File c)) as Hnone
        by (intros c; now rewrite Hs).
      eexists _, [], []. split; [exact Hnext|].
      cbn [indexer disk conn log events sql_delete staged].
      split; [done|]. split; [done|]. split; [done|]. split; [exact Hnone|].
      now apply (Hend _ Hnext).
  - intros Hout.
    assert (_delete_markdown_snapshot (disk reached) file markdown_dir root
            = Some (disk reached)) as Hdel.
    { unfold _delete_markdown_snapshot, snapshot_delete_path. now rewrite Hout. }
    eexists. split; [exact (Hstep _ Hdel)|]. done.
Qed.

(** The theorem on a pass that finds [/r/dept/analytics/brief.txt] gone:
    its row and its snapshot go, with the directory [analytics]; [dept]
    stays because of its other file. *)
Lemma removed_file_cleanup_witness :
  let m : fs :=
    {[ ["t"] := Dir; ["t"; "_markdown"] := Dir;
       ["t"; "_markdown"; "dept"] := Dir;
       ["t"; "_markdown"; "dept"; "plan.txt.md"] := File [112%N];
       ["t"; "_markdown"; "dept"; "analytics"] := Dir;
       ["t"; "_markdown"; "dept"; "analytics"; "brief.txt.md"] := File [98%N] ]} in
  let table : gmap path row :=
    {[ ["r"; "dept"; "analytics"; "brief.txt"]
       := mkRow "h0" [Byte.x02] "2025-12-31T00:00:00+00:00" ".txt" ]} in
  let fin := _update_database quiet_world __init__ m table [] ["t"; "_markdown"] ["r"]
                              5 false in
  fin.2 = Completed
  ∧ persistent (conn fin.1) !! ["r"; "dept"; "analytics"; "brief.txt"] = None
  ∧ (∀ content, disk fin.1 !! ["t"; "_markdown"; "dept"; "analytics"; "brief.txt.md"]
                ≠ Some (File content))
  ∧ disk fin.1 !! ["t"; "_markdown"; "dept"; "analytics"] = None
  ∧ disk fin.1 !! ["t"; "_markdown"; "dept"] = Some Dir.
Proof.
  cbv zeta.
  set (m := {[ ["t"] := Dir; ["t"; "_markdown"] := Dir;
               ["t"; "_markdown"; "dept"] := Dir;
               ["t"; "_markdown"; "dept"; "plan.txt.md"] := File [112%N];
               ["t"; "_markdown"; "dept"; "analytics"] := Dir;
               ["t"; "_markdown"; "dept"; "analytics"; "brief.txt.md"]
               := File [98%N] ]} : fs).
  set (table := {[ ["r"; "dept"; "analytics"; "brief.txt"]
                   := mkRow "h0" [Byte.x02] "2025-12-31T00:00:00+00:00" ".txt" ]}
                : gmap path row).
  assert ((_update_database quiet_world __init__ m table [] ["t"; "_markdown"] ["r"]
                            5 false).2 = Completed) as Hend
    by (vm_compute; reflexivity).
  destruct (removed_file_cleanup quiet_world __init__ m table [] ["t"; "_markdown"]
              ["r"] 5 false ["r"; "dept"; "analytics"; "brief.txt"])
    as (Hrow & before & after & Hlist & Hrun).
  - eexists. apply lookup_singleton_eq.
  - apply not_elem_of_nil.
  - split; [exact Hend|]. split; [exact (Hrow Hend)|].
    assert (files_to_remove quiet_world (file_hash <$> table) []
            = [["r"; "dept"; "analytics"; "brief.txt"]]) as Hl
      by (vm_compute; reflexivity).
    rewrite Hl in Hlist.
    destruct before as [|b before]; [|destruct before; discriminate Hlist].
    assert (remove_files ["t"; "_markdown"] ["r"] (mkState __init__ m (connect table)) []
            = (mkState __init__ m (connect table), true)) as Hreached by reflexivity.
    apply Hrun in Hreached as [Hinside _].
    assert (relative_to ["r"; "dept"; "analytics"; "brief.txt"] ["r"]
            = Some ["dept"; "analytics"; "brief.txt"]) as Hrel
      by (vm_compute; reflexivity).
    assert (valid_name (name ["r"; "dept"; "analytics"; "brief.txt"]) = true) as Hvalid
      by (vm_compute; reflexivity).
    assert (["dept"; "analytics"; "brief.txt"] ≠ []) as Hne by discriminate.
    destruct (Hinside _ Hrel Hvalid Hne)
      as (next & removed & kept & _ & _ & _ & _ & _ & Hfin).
    split.
    + intros content Hc. destruct (Hfin content Hc) as (entry & Hentry & _).
      by apply elem_of_nil in Hentry.
    + vm_compute. split; reflexivity.
Defined.

(** What the code does on that disk. *)
Example prune_stops_at_first_non_empty :
  map_to_list <$>
    _delete_markdown_snapshot
      {[ ["t"] := Dir; ["t"; "_markdown"] := Dir;
         ["t"; "_markdown"; "dept"] := Dir;
         ["t"; "_markdown"; "dept"; "plan.txt.md"] := File [112%N];
         ["t"; "_markdown"; "dept"; "analytics"] := Dir;
         ["t"; "_markdown"; "dept"; "analytics"; "brief.txt.md"] := File [98%N] ]}
      ["r"; "dept"; "analytics"; "brief.txt"] ["t"; "_markdown"] ["r"]
  = Some (map_to_list
            ({[ ["t"] := Dir; ["t"; "_markdown"] := Dir;
                ["t"; "_markdown"; "dept"] := Dir;
                ["t"; "_markdown"; "dept"; "plan.txt.md"] := File [112%N] ]} : fs)).
Proof. vm_compute. reflexivity. Qed.

(** C3 as stated fails for a stored path outside [root]. A first pass over
    root [/r1] indexes [/r1/a.txt] and writes [_markdown/a.txt.md]; a second
    pass over root [/r2], with the same store and markdown directory and an
    empty scan, deletes the row and leaves the snapshot where it is. *)
Lemma removed_file_cleanup_counterexample :
  let pass1 := _update_database quiet_world __init__ ∅ ∅
                 [(["r1"; "a.txt"], "h", ".txt")] ["t"; "_markdown"] ["r1"] 5 false in
  let pass2 := _update_database quiet_world (indexer pass1.1) (disk pass1.1)
                 (persistent (conn pass1.1)) [] ["t"; "_markdown"] ["r2"] 5 false in
  pass1.2 = Completed
  ∧ persistent (conn pass1.1) !! ["r1"; "a.txt"]
    = Some (mkRow "h" [Byte.x01] "2026-01-01T00:00:00+00:00" ".txt")
  ∧ disk pass1.1 !! ["t"; "_markdown"; "a.txt.md"] = Some (File (PyStr.of_string "hello"))
  ∧ pass2.2 = Completed
  ∧ persistent (conn pass2.1) !! ["r1"; "a.txt"] = None
  ∧ disk pass2.1 !! ["t"; "_markdown"; "a.txt.md"] = Some (File (PyStr.of_string "hello")).
Proof. vm_compute. repeat split. Qed.

End CleanupFacts.

(* ===================================================================== *)
(** * The temporary workspace: refusal and cleanup *)
(* ===================================================================== *)

Module TempDirFacts.
Import Pathlib TempDir.

(** ** Listing a directory *)

Lemma elem_of_listdir (m : entries) (n : string) : n ∈ listdir m ↔ is_Some (m !! n).
Proof.
  unfold listdir. rewrite list_elem_of_fmap. split.
  - intros ([n' k] & -> & H). apply elem_of_map_to_list in H. now exists k.
  - intros [k H]. exists (n, k). split; [done|]. now apply elem_of_map_to_list.
Qed.

Lemma filter_length_all {A} (P : A → Prop) `{∀ x, Decision (P x)} (l : list A) :
  length (filter P l) = length l → Forall P l.
Proof.
  induction l as [|a l IH]; [constructor|].
  rewrite filter_cons. destruct (decide (P a)); simpl.
  - intros [= Hl]. constructor; auto.
  - intros Hl. pose proof (length_filter P l). lia.
Qed.

(** ** Refusing a directory that is not the indexer's *)

Lemma accept_directory_refuses (m : entries) (n : string) (k : kind) :
  sentinel_exists m = false →
  m !! n = Some k → n ≠ _LOG_FILE_NAME →
  accept_directory m = None.
Proof.
  intros Hs Hn Hne. unfold accept_directory. rewrite Hs.
  destruct (length _ =? length _)%nat eqn:E; [|reflexivity].
  apply Nat.eqb_eq, filter_length_all in E.
  rewrite Forall_forall in E. destruct Hne. apply E, elem_of_listdir. eauto.
Qed.

(** C7. [_prepare_temp_path] on an existing directory without sentinel that
    holds an entry whose name is not the legacy debug log's: the call ends
    with the [RuntimeError] "not managed by Help Chat" (the spec's
    [UnmanagedDirectory]) and the directory is as it was: nothing deleted,
    created or changed. *)
Theorem unmanaged_directory_untouched (m : entries) (temp_abs embeddings_abs : path)
    (n : string) (k : kind) :
  sentinel_exists m = false →
  m !! n = Some k → n ≠ _LOG_FILE_NAME →
  _prepare_temp_path (IsDirectory m) temp_abs embeddings_abs
  = (IsDirectory m, RuntimeError).
Proof.
  intros Hs Hn Hne. unfold _prepare_temp_path.
  now rewrite (accept_directory_refuses m n k Hs Hn Hne).
Qed.

(** The theorem on a directory holding a user's [notes.txt] next to an old
    debug log. *)
Lemma unmanaged_directory_untouched_witness :
  _prepare_temp_path
    (IsDirectory {[ "notes.txt" := RegularFile; "program_debug.log" := RegularFile ]})
    ["home"; "u"; "work"] ["home"; "u"; "store.db"]
  = (IsDirectory {[ "notes.txt" := RegularFile; "program_debug.log" := RegularFile ]},
     RuntimeError).
Proof.
  apply (unmanaged_directory_untouched _ _ _ "notes.txt" RegularFile).
  - reflexivity.
  - reflexivity.
  - discriminate.
Defined.

(** ** The cleanup loop *)

Lemma try_unlink_lookup item (m : entries) n :
  try_unlink item m !! n
  = if decide (n = item)
    then match m !! n with Some Directory => Some Directory | _ => None end
    else m !! n.
Proof.
  unfold try_unlink. destruct (decide (n = item)) as [->|Hne].
  - destruct (m !! item) as [[]|] eqn:E; rewrite ?lookup_delete_eq; done.
  - destruct (m !! item) as [[]|]; rewrite ?lookup_delete_ne; done.
Qed.

Lemma remove_artifact_lookup item (m : entries) n :
  remove_artifact item m !! n
  = if decide (n = item)
    then match m !! n with Some Special => Some Special | _ => None end
    else m !! n.
Proof.
  unfold remove_artifact. destruct (decide (n = item)) as [->|Hne].
  - destruct (m !! item) as [[]|] eqn:E; simpl; rewrite ?lookup_delete_eq; done.
  - destruct (m !! item) as [[]|]; simpl; rewrite ?lookup_delete_ne; done.
Qed.

(** An entry the loop visits stays exactly when [survives] says so. *)
Lemma cleanup_item_lookup basename (m : entries) item n :
  cleanup_item basename m item !! n
  = if decide (n = item)
    then k ← m !! n; if survives basename n k then Some k else None
    else m !! n.
Proof.
  unfold cleanup_item, survives.
  destruct (decide (n = item)) as [->|Hne].
  - destruct (_ || _); [now destruct (m !! item)|].
    destruct (String.eqb item _LOG_FILE_NAME).
    + rewrite try_unlink_lookup, decide_True by done.
      destruct (m !! item) as [[]|]; done.
    + destruct (protected basename item); [now destruct (m !! item)|].
      rewrite remove_artifact_lookup, decide_True by done.
      destruct (m !! item) as [[]|]; done.
  - destruct (_ || _); [done|].
    destruct (String.eqb item _LOG_FILE_NAME).
    + now rewrite try_unlink_lookup, decide_False.
    + destruct (protected basename item); [done|].
      now rewrite remove_artifact_lookup, decide_False.
Qed.

Lemma cleanup_lookup basename items (m : entries) n :
  cleanup basename items m !! n
  = if decide (n ∈ items)
    then k ← m !! n; if survives basename n k then Some k else None
    else m !! n.
Proof.
  revert m; induction items as [|item items IH]; intros m.
  - destruct (decide (n ∈ [])) as [H|H]; [by apply elem_of_nil in H | done].
  - simpl. change (foldl _ ?a ?l) with (cleanup basename l a).
    rewrite IH, cleanup_item_lookup.
    destruct (decide (n ∈ item :: items)) as [Hin|Hin].
    + destruct (decide (n = item)) as [->|Hne].
      * destruct (m !! item) as [k|]; simpl; [|now destruct (decide _)].
        destruct (survives basename item k) eqn:E; simpl.
        -- rewrite E. now destruct (decide _).
        -- now destruct (decide _).
      * apply elem_of_cons in Hin as [?|Hin]; [done|].
        destruct (decide (n ∈ items)); done.
    + apply not_elem_of_cons in Hin as [Hne Hin].
      destruct (decide (n = item)); [done|].
      destruct (decide (n ∈ items)); done.
Qed.

(** After the loop over the whole listing, exactly the surviving entries
    are left, each as it was. *)
Lemma cleanup_listdir_lookup basename (m : entries) n :
  cleanup basename (listdir m) m !! n
  = k ← m !! n; if survives basename n k then Some k else None.
Proof.
  rewrite cleanup_lookup. destruct (decide (n ∈ listdir m)) as [Hin|Hin]; [done|].
  rewrite elem_of_listdir in Hin. destruct (m !! n); [|done].
  destruct Hin. eauto.
Qed.

(** ** A managed directory *)

Lemma prepare_managed (m : entries) temp_abs embeddings_abs :
  sentinel_exists m = true →
  _prepare_temp_path (IsDirectory m) temp_abs embeddings_abs
  = let c := cleanup (embeddings_basename temp_abs embeddings_abs) (listdir m) m in
    match makedirs_markdown c with
    | Some m' => (IsDirectory m', MarkdownDir (temp_abs ++ [markdown_name]))
    | None => (IsDirectory c, OSError)
    end.
Proof. intros Hs. unfold _prepare_temp_path, accept_directory. now rewrite Hs. Qed.

Lemma inside_temp_child temp_abs b :
  temp_abs ≠ [] → inside_temp temp_abs (temp_abs ++ [b]) = true.
Proof.
  intros Hne. unfold inside_temp. apply orb_true_iff. left.
  apply bool_decide_eq_true. split; [done|]. split; [|now exists [b]].
  intros H. assert (length temp_abs = length (temp_abs ++ [b])) as Hl by now rewrite <- H.
  rewrite length_app in Hl. simpl in Hl. lia.
Qed.

Lemma name_snoc (p : path) b : name (p ++ [b]) = b.
Proof. unfold name. apply last_last. Qed.

Lemma protected_placed temp_abs embeddings_abs n :
  store_placed temp_abs embeddings_abs →
  protected (embeddings_basename temp_abs embeddings_abs) n = true
  ↔ embeddings_abs = temp_abs ++ [n].
Proof.
  intros [Hne [Hout|(b & -> & Hb & Hlog)]]; unfold embeddings_basename.
  - rewrite Hout. split; [done|]. intros ->.
    now rewrite inside_temp_child in Hout.
  - rewrite inside_temp_child by done. rewrite name_snoc. simpl.
    destruct (String.eqb_spec b ""); [done|]. simpl.
    destruct (String.eqb_spec n b) as [->|Hnb]; [done|].
    split; [done|]. intros H. apply app_inj_tail in H as [_ ->]. done.
Qed.

(** With removable entries only, an entry survives the loop exactly when it
    is the sentinel, [_markdown], or the store's file. *)
Lemma survives_placed temp_abs embeddings_abs n k :
  store_placed temp_abs embeddings_abs →
  k ≠ Special → ¬ (n = _LOG_FILE_NAME ∧ k = Directory) →
  survives (embeddings_basename temp_abs embeddings_abs) n k = true
  ↔ n = sentinel_name ∨ n = markdown_name ∨ embeddings_abs = temp_abs ++ [n].
Proof.
  intros Hp Hk Hlog. unfold survives.
  destruct (String.eqb_spec n sentinel_name) as [->|H1]; [simpl; tauto|].
  destruct (String.eqb_spec n markdown_name) as [->|H2]; [simpl; tauto|]. simpl.
  destruct (String.eqb_spec n _LOG_FILE_NAME) as [->|H3].
  - rewrite bool_decide_eq_true. split; [tauto|].
    intros [?|[?|He]]; [done|done|].
    destruct Hp as [Hne [Hout|(b & Hb & _ & Hbl)]].
    + rewrite He, inside_temp_child in Hout by done. done.
    + rewrite Hb in He. apply app_inj_tail in He as [_ ->]. done.
  - pose proof (protected_placed temp_abs embeddings_abs n Hp) as Hpr.
    destruct (protected _ n).
    + split; [|done]. intros _. right; right. now apply Hpr.
    + split.
      * destruct k; simpl; done.
      * intros [?|[?|He]]; [done|done|]. apply Hpr in He. done.
Qed.

Lemma cleanup_lookup_Some basename (m : entries) n k :
  cleanup basename (listdir m) m !! n = Some k
  ↔ m !! n = Some k ∧ survives basename n k = true.
Proof.
  rewrite cleanup_listdir_lookup. destruct (m !! n) as [k'|]; simpl.
  - destruct (survives basename n k') eqn:E.
    + split; [intros [= ->]; done | intros [[= ->] _]; done].
    + split; [done | intros [[= ->] ?]; congruence].
  - split; [done | intros [? _]; done].
Qed.

Lemma makedirs_markdown_Some (c m' : entries) :
  makedirs_markdown c = Some m' →
  (∀ n, n ≠ markdown_name → m' !! n = c !! n)
  ∧ (∃ k, m' !! markdown_name = Some k ∧ isdir k = true)
  ∧ (∀ k, c !! markdown_name = Some k → m' !! markdown_name = Some k).
Proof.
  unfold makedirs_markdown. destruct (c !! markdown_name) as [k|] eqn:E.
  - destruct (isdir k) eqn:Hk; [|done]. intros [= <-].
    split; [done|]. split; [eauto|]. now intros k0 [= <-].
  - intros [= <-]. split; [|split].
    + intros n Hn. now apply lookup_insert_ne.
    + exists Directory. now rewrite lookup_insert_eq.
    + done.
Qed.

Lemma removable_entries_spec (m : entries) n k :
  removable_entries m = true → m !! n = Some k →
  k ≠ Special ∧ ¬ (n = _LOG_FILE_NAME ∧ k = Directory).
Proof.
  unfold removable_entries. rewrite forallb_forall. intros H Hn.
  specialize (H (n, k)). simpl in H.
  apply andb_true_iff in H as [H1 H2].
  - apply negb_true_iff, bool_decide_eq_false in H1.
    apply negb_true_iff, andb_false_iff in H2. split; [done|].
    intros [-> ->]. destruct H2 as [H2|H2].
    + now rewrite String.eqb_refl in H2.
    + now apply bool_decide_eq_false in H2.
  - apply list_elem_of_In. now apply elem_of_map_to_list.
Qed.

(** C8 (as amended). A successful [_prepare_temp_path] on a managed
    directory (sentinel present) whose entries the cleanup can remove (no
    FIFO, socket or device; nothing but a non-directory under the legacy
    log's name), with the vector store either outside the temp directory or
    directly inside it (under a name that is neither empty nor the log's):
    the entries left are exactly the sentinel, [_markdown], and, when the
    store is inside, the store's file if it was there; each of them is what
    it was, [_markdown] is a directory, and the legacy log is gone. Calling
    [_prepare_temp_path] again on the result succeeds and changes nothing,
    so the store's file survives any number of calls. *)
Theorem managed_directory_cleanup (m m' : entries) (temp_abs embeddings_abs md : path) :
  sentinel_exists m = true →
  _prepare_temp_path (IsDirectory m) temp_abs embeddings_abs
  = (IsDirectory m', MarkdownDir md) →
  removable_entries m = true →
  store_placed temp_abs embeddings_abs →
  md = temp_abs ++ [markdown_name]
  ∧ (∀ n, is_Some (m' !! n)
          ↔ n = sentinel_name ∨ n = markdown_name
            ∨ (embeddings_abs = temp_abs ++ [n] ∧ is_Some (m !! n)))
  ∧ (∀ n k, m !! n = Some k → is_Some (m' !! n) → m' !! n = Some k)
  ∧ (∃ k, m' !! markdown_name = Some k ∧ isdir k = true)
  ∧ m' !! _LOG_FILE_NAME = None
  ∧ _prepare_temp_path (IsDirectory m') temp_abs embeddings_abs
    = (IsDirectory m', MarkdownDir md).
Proof.
  intros Hs Hprep Hremovable Hplaced.
  rewrite (prepare_managed _ _ _ Hs) in Hprep. cbv zeta in Hprep.
  set (basename := embeddings_basename temp_abs embeddings_abs) in *.
  set (c := cleanup basename (listdir m) m) in *.
  destruct (makedirs_markdown c) as [m0|] eqn:Hmk; [|done].
  injection Hprep as -> <-.
  destruct (makedirs_markdown_Some _ _ Hmk) as (Hother & Hmd & Hkeep).
  assert (∀ n k, m !! n = Some k →
            (survives basename n k = true
             ↔ n = sentinel_name ∨ n = markdown_name
               ∨ embeddings_abs = temp_abs ++ [n])) as Hsurv.
  { intros n k Hn.
    destruct (removable_entries_spec m n k Hremovable Hn) as [H1 H2].
    now apply survives_placed. }
  assert (∀ n, is_Some (m' !! n)
               ↔ n = sentinel_name ∨ n = markdown_name
                 ∨ (embeddings_abs = temp_abs ++ [n] ∧ is_Some (m !! n))) as Hiff.
  { intros n. destruct (decide (n = markdown_name)) as [->|Hn].
    { destruct Hmd as (k & -> & _). split; eauto. }
    rewrite (Hother n Hn). split.
    - intros [k (Hk & Hsv)%cleanup_lookup_Some].
      apply (Hsurv n k Hk) in Hsv as [?|[?|?]]; eauto.
    - intros [->|[?|[He [k Hk]]]]; [|done|].
      + unfold sentinel_exists in Hs.
        destruct (m !! sentinel_name) as [k|] eqn:Hk; [|done].
        exists k. apply cleanup_lookup_Some. split; [done|].
        apply (Hsurv _ _ Hk). auto.
      + exists k. apply cleanup_lookup_Some. split; [done|].
        apply (Hsurv _ _ Hk). auto. }
  assert (∀ n k, m !! n = Some k → is_Some (m' !! n) → m' !! n = Some k) as Hkind.
  { intros n k Hk Hin. apply Hiff in Hin.
    assert (c !! n = Some k) as Hc.
    { apply cleanup_lookup_Some. split; [done|]. apply (Hsurv _ _ Hk). tauto. }
    destruct (decide (n = markdown_name)) as [->|Hn]; [now apply Hkeep|].
    now rewrite (Hother n Hn). }
  split; [done|]. split; [done|]. split; [done|]. split; [done|]. split.
  { destruct (m' !! _LOG_FILE_NAME) as [k|] eqn:E; [|done].
    assert (is_Some (m' !! _LOG_FILE_NAME)) as Hin by eauto.
    apply Hiff in Hin as [?|[?|[He _]]]; [done|done|].
    destruct Hplaced as [Hne [Hout|(b & Hb & _ & Hbl)]].
    - rewrite He, inside_temp_child in Hout by done. done.
    - rewrite Hb in He. apply app_inj_tail in He as [_ ->]. done. }
  assert (sentinel_exists m' = true) as Hs'.
  { unfold sentinel_exists in *.
    destruct (m !! sentinel_name) as [k|] eqn:Hk; [|done].
    rewrite (Hkind _ _ Hk); [done|]. apply Hiff. auto. }
  rewrite (prepare_managed _ _ _ Hs'). cbv zeta. fold basename.
  assert (cleanup basename (listdir m') m' = m') as ->.
  { apply map_eq. intros n. rewrite cleanup_listdir_lookup.
    destruct (m' !! n) as [k|] eqn:Hk; [|done]. simpl.
    assert (is_Some (m' !! n)) as Hin by eauto.
    apply Hiff in Hin.
    assert (survives basename n k = true) as ->; [|done].
    unfold survives.
    destruct (String.eqb_spec n sentinel_name); [done|].
    destruct (String.eqb_spec n markdown_name); [done|]. simpl.
    destruct Hin as [?|[?|[He _]]]; [done|done|].
    assert (protected basename n = true) as Hpr by now apply protected_placed.
    destruct (String.eqb_spec n _LOG_FILE_NAME) as [->|_]; [|now rewrite Hpr].
    destruct Hplaced as [Hne [Hout|(b & Hb & _ & Hbl)]].
    - rewrite He, inside_temp_child in Hout by done. done.
    - rewrite Hb in He. apply app_inj_tail in He as [_ ->]. done. }
  unfold makedirs_markdown. destruct Hmd as (k & -> & ->). done.
Qed.

(** The theorem on a managed directory holding the store, an old log, a
    stray file and a stray directory. *)
Lemma managed_directory_cleanup_witness :
  let m : entries :=
    {[ ".help_chat_temp" := RegularFile; "_markdown" := Directory;
       "embeddings.db" := RegularFile; "program_debug.log" := RegularFile;
       "should_be_deleted.txt" := RegularFile; "old" := Directory ]} in
  let m' : entries :=
    {[ ".help_chat_temp" := RegularFile; "_markdown" := Directory;
       "embeddings.db" := RegularFile ]} in
  _prepare_temp_path (IsDirectory m) ["tmp"; "w"] ["tmp"; "w"; "embeddings.db"]
  = (IsDirectory m', MarkdownDir ["tmp"; "w"; "_markdown"])
  ∧ m' !! "embeddings.db" = Some RegularFile
  ∧ m' !! "program_debug.log" = None
  ∧ _prepare_temp_path (IsDirectory m') ["tmp"; "w"] ["tmp"; "w"; "embeddings.db"]
    = (IsDirectory m', MarkdownDir ["tmp"; "w"; "_markdown"]).
Proof.
  cbv zeta.
  assert (_prepare_temp_path
            (IsDirectory
               {[ ".help_chat_temp" := RegularFile; "_markdown" := Directory;
                  "embeddings.db" := RegularFile; "program_debug.log" := RegularFile;
                  "should_be_deleted.txt" := RegularFile; "old" := Directory ]})
            ["tmp"; "w"] ["tmp"; "w"; "embeddings.db"]
          = (IsDirectory
               {[ ".help_chat_temp" := RegularFile; "_markdown" := Directory;
                  "embeddings.db" := RegularFile ]},
             MarkdownDir ["tmp"; "w"; "_markdown"])) as Hprep
    by (vm_compute; reflexivity).
  assert (store_placed ["tmp"; "w"] ["tmp"; "w"; "embeddings.db"]) as Hplaced.
  { split; [discriminate|]. right. exists "embeddings.db".
    split; [reflexivity|]. split; discriminate. }
  pose proof (λ Hs Hr, managed_directory_cleanup _ _ _ _ _ Hs Hprep Hr Hplaced) as H.
  lapply H; [clear H; intros H | vm_compute; reflexivity].
  lapply H; [clear H; intros H | vm_compute; reflexivity].
  destruct H as (_ & _ & Hkind & _ & Hlog & Hagain).
  split; [exact Hprep|]. split; [|split; [exact Hlog | exact Hagain]].
  apply Hkind; [reflexivity|]. exists RegularFile. reflexivity.
Defined.

(** C8 as stated fails on entries the cleanup cannot remove. In a managed
    directory with the store outside, a FIFO is neither link, file nor
    directory and is passed over; a directory under the legacy log's name
    makes [os.unlink] raise, which is swallowed. Both calls succeed and both
    entries are still there. *)
Lemma managed_directory_cleanup_counterexample :
  _prepare_temp_path
    (IsDirectory {[ ".help_chat_temp" := RegularFile; "pipe" := Special ]})
    ["tmp"; "w"] ["var"; "store.db"]
  = (IsDirectory {[ ".help_chat_temp" := RegularFile; "pipe" := Special;
                    "_markdown" := Directory ]},
     MarkdownDir ["tmp"; "w"; "_markdown"])
  ∧ _prepare_temp_path
      (IsDirectory {[ ".help_chat_temp" := RegularFile;
                      "program_debug.log" := Directory ]})
      ["tmp"; "w"] ["var"; "store.db"]
    = (IsDirectory {[ ".help_chat_temp" := RegularFile;
                      "program_debug.log" := Directory;
                      "_markdown" := Directory ]},
       MarkdownDir ["tmp"; "w"; "_markdown"]).
Proof. split; vm_compute; reflexivity. Qed.

(** The store deeper inside the temp directory: only its base name is
    compared with the top-level entries, so the directory [db] that holds
    [/tmp/w/db/embeddings.db] is removed with the store in it, while an
    unrelated top-level [embeddings.db] is kept. *)
Example nested_store_not_protected :
  _prepare_temp_path
    (IsDirectory {[ ".help_chat_temp" := RegularFile; "_markdown" := Directory;
                    "db" := Directory; "embeddings.db" := LinkToFile ]})
    ["tmp"; "w"] ["tmp"; "w"; "db"; "embeddings.db"]
  = (IsDirectory {[ ".help_chat_temp" := RegularFile; "_markdown" := Directory;
                    "embeddings.db" := LinkToFile ]},
     MarkdownDir ["tmp"; "w"; "_markdown"]).
Proof. vm_compute. reflexivity. Qed.

End TempDirFacts.

(* ===================================================================== *)
(** * The excerpt loader: keywords, window, final cut *)
(* ===================================================================== *)

Module ExcerptFacts.
Import PyStr Pathlib FS Excerpt.

(** ** Stripping and slicing *)

Lemma length_lstrip (s : text) : (length (lstrip s) ≤ length s)%nat.
Proof. induction s as [|c s IH]; simpl; [lia|]. destruct (isspace c); simpl; lia. Qed.

Lemma length_rstrip (s : text) : (length (rstrip s) ≤ length s)%nat.
Proof.
  unfold rstrip. rewrite length_rev.
  pose proof (length_lstrip (rev s)) as H. now rewrite length_rev in H.
Qed.

Lemma length_slice_to (s : text) (b : Z) : 0 ≤ b → Z.of_nat (length (slice_to s b)) ≤ b.
Proof.
  intros Hb. unfold slice_to, slice, slice_bound.
  destruct (0 <? 0) eqn:E0; [apply Z.ltb_lt in E0; lia|].
  destruct (b <? 0) eqn:Eb; [apply Z.ltb_lt in Eb; lia|].
  rewrite length_take. lia.
Qed.

Lemma length_slice (s : text) (a b : Z) :
  0 ≤ a → 0 ≤ b → Z.of_nat (length (slice s a b)) ≤ Z.max 0 (b - a).
Proof.
  intros Ha Hb. unfold slice, slice_bound.
  destruct (a <? 0) eqn:Ea; [apply Z.ltb_lt in Ea; lia|].
  destruct (b <? 0) eqn:Eb; [apply Z.ltb_lt in Eb; lia|].
  rewrite length_take. lia.
Qed.

(** ** Finding a keyword *)

Lemma find_Some (sub s : text) (i : nat) :
  find sub s = Some i →
  startswith sub (drop i s) = true
  ∧ ∀ j, (j < i)%nat → startswith sub (drop j s) = false.
Proof.
  revert i; induction s as [|c s IH]; intros i.
  - simpl. destruct (startswith sub []) eqn:E; [|done].
    intros [= <-]. split; [done | lia].
  - cbn [find]. destruct (startswith sub (c :: s)) eqn:E.
    + intros [= <-]. split; [done | lia].
    + destruct (find sub s) as [i'|]; [|done]. simpl. intros [= <-].
      destruct (IH i' eq_refl) as [H1 H2]. split; [done|].
      intros [|j] Hj; [done|]. simpl. apply H2. lia.
Qed.

Lemma find_None (sub s : text) :
  find sub s = None → ∀ j, startswith sub (drop j s) = false.
Proof.
  induction s as [|c s IH].
  - simpl. destruct (startswith sub []) eqn:E; [done|].
    intros _ j. now rewrite drop_nil.
  - cbn [find]. destruct (startswith sub (c :: s)) eqn:E; [done|].
    destruct (find sub s) as [i'|]; [done|]. intros _ [|j]; [done|].
    simpl. now apply IH.
Qed.

(** ** The scanner of [re.findall] and the runs of word characters *)

(** With a run being read, the scanner takes the word characters that
    follow into it and closes it where they end. *)
Lemma findall_words_run (isword : N → bool) (more s cur : text) :
  Forall (λ c, isword c = true) more →
  (∀ c, head s = Some c → isword c = false) →
  rev cur ++ more ≠ [] →
  findall_words isword (more ++ s) cur
  = (rev cur ++ more) :: findall_words isword s [].
Proof.
  revert cur. induction more as [|c more IH]; intros cur Hmore Hs Hne.
  - rewrite app_nil_r in *. simpl.
    assert (cur ≠ []) as Hcur by (intros ->; done).
    destruct s as [|d s]; simpl.
    + now destruct cur.
    + rewrite (Hs d eq_refl). now destruct cur.
  - apply Forall_cons in Hmore as [Hc Hmore]. simpl. rewrite Hc.
    rewrite (IH (c :: cur)); [|done|done|].
    + simpl. now rewrite <- app_assoc.
    + simpl. rewrite <- app_assoc. simpl. now destruct (rev cur).
Qed.

(** A text splits into its first run of word characters and the rest. *)
Lemma leading_run (isword : N → bool) (s : text) :
  ∃ more rest,
    s = more ++ rest
    ∧ Forall (λ c, isword c = true) more
    ∧ (∀ c, head rest = Some c → isword c = false)
    ∧ (length rest ≤ length s)%nat.
Proof.
  induction s as [|c s IH].
  - exists [], []. repeat split; [constructor | done | done].
  - destruct (isword c) eqn:Hc.
    + destruct IH as (more & rest & -> & Hmore & Hrest & Hlen).
      exists (c :: more), rest. repeat split; [now constructor | done |].
      simpl. rewrite length_app in *. lia.
    + exists [], (c :: s). repeat split; [constructor | | done].
      now intros d [= <-].
Qed.

(** The scanner returns the runs of word characters. *)
Lemma findall_words_runs (isword : N → bool) (s : text) :
  word_runs isword s (findall_words isword s []).
Proof.
  remember (length s) as n eqn:Hn. revert s Hn.
  induction n as [n IH] using lt_wf_ind. intros s ->.
  destruct s as [|c s]; [constructor|].
  destruct (isword c) eqn:Hc.
  - destruct (leading_run isword s) as (more & rest & -> & Hmore & Hrest & Hlen).
    change (c :: more ++ rest) with ((c :: more) ++ rest).
    rewrite (findall_words_run isword (c :: more) rest []);
      [|now constructor|done|done].
    apply runs_word; [done | now constructor | done |].
    apply (IH (length rest)); [simpl; lia | done].
  - simpl. rewrite Hc. apply runs_skip; [done|].
    apply (IH (length s)); [simpl; lia | done].
Qed.

(** And nothing else is the list of the runs. *)
Lemma word_runs_unique (isword : N → bool) (s : text) (tokens : list text) :
  word_runs isword s tokens → tokens = findall_words isword s [].
Proof.
  induction 1 as [|c s tokens Hc _ IH|token s tokens Hne Htoken Hs _ IH].
  - done.
  - simpl. now rewrite Hc.
  - rewrite (findall_words_run isword token s []); [|done|done|done].
    now rewrite IH.
Qed.

Section UnicodeTables.

Variable lower : text → text.
Variable isalnum : N → bool.

(** ** The keywords *)

Lemma findall_words_tokens (s cur tok : text) :
  Forall (λ c, isword isalnum c = true) cur →
  tok ∈ findall_words (isword isalnum) s cur →
  tok ≠ [] ∧ Forall (λ c, isword isalnum c = true) tok.
Proof.
  revert cur; induction s as [|c s IH]; intros cur Hcur; simpl.
  - destruct cur as [|a cur]; [by intros ?%elem_of_nil|].
    intros ->%list_elem_of_singleton. split.
    + intros H. apply (f_equal length) in H. simpl in H.
      rewrite length_app in H. simpl in H. lia.
    + now apply Forall_rev.
  - destruct (isword isalnum c) eqn:Hc.
    + apply IH. now constructor.
    + destruct cur as [|a cur]; [now apply IH|].
      intros [->|H]%elem_of_cons; [|now apply (IH [])].
      split.
      * intros H. apply (f_equal length) in H. simpl in H.
        rewrite length_app in H. simpl in H. lia.
      * now apply Forall_rev.
Qed.

(** A keyword is a run of word characters (alphanumerics and the
    underscore) longer than three. *)
Lemma keywords_spec (query kw : text) :
  kw ∈ keywords lower isalnum query →
  (3 < length kw)%nat ∧ Forall (λ c, isword isalnum c = true) kw.
Proof.
  unfold keywords. intros [Hlen Hin]%list_elem_of_filter. split; [done|].
  now apply (findall_words_tokens (lower query) [] kw).
Qed.

(** ** The loop over the keywords *)

Lemma first_match_None (lower_text : text) (kws : list text) :
  first_match lower_text kws = None →
  ∀ kw, kw ∈ kws → find kw lower_text = None.
Proof.
  induction kws as [|k kws IH]; simpl; [by intros _ kw ?%elem_of_nil|].
  destruct (find k lower_text) eqn:E; [done|].
  intros H kw [->|Hin]%elem_of_cons; auto.
Qed.

Lemma first_match_Some (lower_text : text) (kws : list text) (idx : nat) :
  first_match lower_text kws = Some idx →
  ∃ pre kw post,
    kws = pre ++ kw :: post
    ∧ (∀ k, k ∈ pre → find k lower_text = None)
    ∧ find kw lower_text = Some idx.
Proof.
  induction kws as [|k kws IH]; simpl; [done|].
  destruct (find k lower_text) as [i|] eqn:E.
  - intros [= ->]. exists [], k, kws. split; [done|]. split; [|done].
    by intros k' ?%elem_of_nil.
  - intros H. destruct (IH H) as (pre & kw & post & -> & Hpre & Hkw).
    exists (k :: pre), kw, post. split; [done|]. split; [|done].
    intros k' [->|Hin]%elem_of_cons; auto.
Qed.

(** ** The final cut *)

Lemma length_cap (excerpt : text) (limit : Z) :
  0 ≤ limit → Z.of_nat (length (cap excerpt limit)) ≤ limit + 1.
Proof.
  intros Hl. unfold cap.
  destruct (Z.of_nat (length (strip excerpt)) >? limit) eqn:E.
  - rewrite length_app. simpl.
    pose proof (length_rstrip (slice_to (strip excerpt) limit)).
    pose proof (length_slice_to (strip excerpt) limit Hl). lia.
  - assert (¬ Z.of_nat (length (strip excerpt)) > limit) as H.
    { intros H. apply Z.gtb_gt in H. congruence. }
    lia.
Qed.

(** ** The window *)

Lemma window_shape (normalized : text) (match_index limit : Z) :
  let half_window := Z.max (limit `div` 2) 1 in
  let start := Z.max 0 (match_index - half_window) in
  let end_ := Z.min (Z.of_nat (length normalized)) (match_index + half_window) in
  window normalized match_index limit
  = (if start >? 0 then [ellipsis] else [])
    ++ slice normalized start end_
    ++ (if end_ <? Z.of_nat (length normalized) then [ellipsis] else []).
Proof.
  cbv zeta. unfold window.
  destruct (_ >? 0); destruct (_ <? _); simpl; rewrite ?app_nil_r; reflexivity.
Qed.

(** C10 (as amended). For a snapshot text, a query and a positive limit,
    with [normalized] the stripped text after [\r\n] became [\n]:
    - the keywords are, in the order of the query, exactly the runs of
      word characters (alphanumerics and the underscore) of the lower-cased
      query that are longer than 3: a run starts at a word character, takes
      every word character that follows and cannot be made longer; the
      query has one list of runs, and the keywords are those of its members
      that have more than 3 characters, none left out and none added;
    - a text that is empty after stripping gives the empty excerpt;
    - when no keyword occurs in the lower-cased text, the excerpt is the
      first [2 * limit] characters of [normalized], put through the final
      cut;
    - otherwise, with [idx] the first occurrence of the first keyword (in
      the order of the query) that occurs at all, the excerpt is the window
      [normalized[max(0, idx - h) : min(len, idx + h)]], [h = max(limit // 2,
      1)], of at most [2 * h] characters and holding [idx] when [idx] is
      inside the text, with an ellipsis in front when it starts after the
      beginning and one behind when it ends before the end, put through the
      final cut;
    - the final cut strips the excerpt and, when it is longer than [limit],
      keeps its first [limit] characters, right-stripped, and appends an
      ellipsis: the excerpt never has more than [limit + 1] characters;
    - [_load_markdown_excerpt] returns this excerpt for the text of the
      snapshot that [_resolve_markdown_path] finds for the file. *)
Theorem excerpt_shape (raw_text query : text) (limit : Z) :
  0 < limit →
  let normalized := replace_crlf (strip raw_text) in
  let lower_text := lower normalized in
  let kws := keywords lower isalnum query in
  let len := Z.of_nat (length normalized) in
  let result := excerpt_of lower isalnum raw_text query limit in
  (∃ runs,
     word_runs (λ c, isalnum c || (c =? 95)%N) (lower query) runs
     ∧ (∀ runs', word_runs (λ c, isalnum c || (c =? 95)%N) (lower query) runs' →
                 runs' = runs)
     ∧ kws = filter (λ token : text, (3 < length token)%nat) runs)
  ∧ (∀ kw, kw ∈ kws →
     (3 < length kw)%nat ∧ Forall (λ c, isalnum c || (c =? 95)%N = true) kw)
  ∧ (strip raw_text = [] → result = [])
  ∧ (strip raw_text ≠ [] →
     match first_match lower_text kws with
     | None =>
         (∀ kw j, kw ∈ kws → startswith kw (drop j lower_text) = false)
         ∧ result = cap (slice_to normalized (2 * limit)) limit
     | Some idx =>
         (∃ pre kw post,
             kws = pre ++ kw :: post
             ∧ (∀ k j, k ∈ pre → startswith k (drop j lower_text) = false)
             ∧ startswith kw (drop idx lower_text) = true
             ∧ ∀ j, (j < idx)%nat → startswith kw (drop j lower_text) = false)
         ∧ let h := Z.max (limit `div` 2) 1 in
           let start := Z.max 0 (Z.of_nat idx - h) in
           let end_ := Z.min len (Z.of_nat idx + h) in
           result
           = cap ((if start >? 0 then [ellipsis] else [])
                  ++ slice normalized start end_
                  ++ (if end_ <? len then [ellipsis] else [])) limit
           ∧ Z.of_nat (length (slice normalized start end_)) ≤ 2 * h
           ∧ (Z.of_nat idx < len → start ≤ Z.of_nat idx < end_)
     end)
  ∧ (∀ excerpt,
       cap excerpt limit
       = if Z.of_nat (length (strip excerpt)) >? limit
         then rstrip (slice_to (strip excerpt) limit) ++ [ellipsis]
         else strip excerpt)
  ∧ Z.of_nat (length result) ≤ limit + 1
  ∧ (∀ (m : fs) (file root temp markdown_path : path),
       _resolve_markdown_path file temp root = Snapshot markdown_path →
       m !! markdown_path = Some (File raw_text) →
       _load_markdown_excerpt lower isalnum (mkLLM (Some root) (Some temp)) m file
                              query limit
       = Some result).
Proof.
  intros Hlimit. cbv zeta. split; [|split; [|split; [|split; [|split; [|split]]]]].
  - exists (findall_words (isword isalnum) (lower query) []).
    split; [apply (findall_words_runs (isword isalnum))|]. split; [|reflexivity].
    intros runs' Hruns. now apply (word_runs_unique (isword isalnum)).
  - intros kw Hkw. now apply keywords_spec in Hkw.
  - intros Hs. unfold excerpt_of. now rewrite Hs.
  - intros Hs. unfold excerpt_of.
    destruct (strip raw_text) as [|c0 text0] eqn:Hst; [done|].
    destruct (first_match _ _) as [idx|] eqn:Hfm.
    + split.
      * destruct (first_match_Some _ _ _ Hfm) as (pre & kw & post & Hk & Hpre & Hkw).
        exists pre, kw, post. split; [done|]. split.
        { intros k j Hin. now apply find_None, Hpre. }
        now apply find_Some.
      * rewrite window_shape. cbv zeta. split; [reflexivity|]. split.
        -- pose proof (length_slice (replace_crlf (c0 :: text0))
                         (Z.max 0 (Z.of_nat idx - Z.max (limit `div` 2) 1))
                         (Z.min (Z.of_nat (length (replace_crlf (c0 :: text0))))
                                (Z.of_nat idx + Z.max (limit `div` 2) 1))) as H.
           lia.
        -- lia.
    + split.
      * intros kw j Hin. apply find_None. now apply (first_match_None _ _ Hfm).
      * now rewrite Z.mul_comm.
  - reflexivity.
  - unfold excerpt_of. destruct (strip raw_text); [simpl; lia|].
    apply length_cap. lia.
  - intros m file root temp markdown_path Hres Hm.
    unfold _load_markdown_excerpt. cbn [root_path temp_path]. now rewrite Hres, Hm.
Qed.

End UnicodeTables.

(** The theorem on an ASCII text with the query "what about JUMPS" and
    limit 10: the window around "jumps", cut to 10 characters plus the
    ellipsis. *)
Lemma excerpt_shape_witness :
  excerpt_of ascii_lower ascii_isalnum
    (of_string "  The quick brown fox jumps over the lazy dog  ")
    (of_string "what about JUMPS") 10
  = ellipsis :: of_string " fox jump" ++ [ellipsis]
  ∧ Z.of_nat (length (excerpt_of ascii_lower ascii_isalnum
                        (of_string "  The quick brown fox jumps over the lazy dog  ")
                        (of_string "what about JUMPS") 10)) ≤ 10 + 1.
Proof.
  split; [vm_compute; reflexivity|].
  apply (excerpt_shape ascii_lower ascii_isalnum
           (of_string "  The quick brown fox jumps over the lazy dog  ")
           (of_string "what about JUMPS") 10 ltac:(lia)).
Defined.

(** C10 as stated fails when no keyword occurs and the text is longer than
    the limit. With the default limit 1500, a text of 1501 letters [a] and
    the query "zzzz": the first [2 * limit] characters of the normalized
    text are the whole text, but the excerpt is its first 1500 characters
    and an ellipsis. And a keyword need not be alphanumeric: [\w] takes the
    underscore too. *)
Lemma excerpt_shape_counterexample :
  first_match (ascii_lower (replace_crlf (strip (repeat 97%N 1501))))
    (keywords ascii_lower ascii_isalnum (of_string "zzzz")) = None
  ∧ slice_to (replace_crlf (strip (repeat 97%N 1501))) (2 * default_limit)
    = repeat 97%N 1501
  ∧ excerpt_of ascii_lower ascii_isalnum (repeat 97%N 1501) (of_string "zzzz")
      default_limit
    = repeat 97%N 1500 ++ [ellipsis]
  ∧ keywords ascii_lower ascii_isalnum (of_string "reset my_pass")
    = [of_string "reset"; of_string "my_pass"].
Proof. vm_compute. repeat split. Qed.

End ExcerptFacts.

(* ===================================================================== *)
(** * The store across a pass *)
(* ===================================================================== *)

Module StoreFacts.
Import Pathlib FS Indexer Trace Reasons Worlds PoolFacts PassFacts CleanupFacts.

(** ** Files that did not change *)

Lemma needs_same_hash (table : gmap path row) (file : path) (h : string) :
  file_hash <$> table !! file = Some h → needs (file_hash <$> table) file h = None.
Proof.
  intros H. unfold needs. rewrite lookup_fmap, H. now rewrite String.eqb_refl.
Qed.

Lemma process_files_nothing_needed W hashes markdown_dir root timeout callback st
    (file_list : list scanned) :
  (∀ file h x, (file, h, x) ∈ file_list → needs hashes file h = None) →
  process_files W hashes markdown_dir root timeout callback st file_list = (st, true).
Proof.
  induction file_list as [|[[file h] x] file_list IH]; intros Hall; [done|].
  rewrite process_files_cons, process_file_unfold.
  rewrite (Hall file h x) by apply list_elem_of_here.
  apply IH. intros f h' x' Hin. apply (Hall f h' x'). now apply list_elem_of_further.
Qed.

Lemma files_to_remove_nil (W : World) (table : gmap path row) (file_list : list scanned) :
  (∀ file, is_Some (table !! file) → file ∈ file_list.*1.*1) →
  files_to_remove W (file_hash <$> table) file_list = [].
Proof.
  intros Hall.
  destruct (files_to_remove W (file_hash <$> table) file_list) as [|f l] eqn:E; [done|].
  assert (f ∈ files_to_remove W (file_hash <$> table) file_list) as Hin
    by (rewrite E; apply list_elem_of_here).
  apply files_to_remove_elem in Hin as [Hrow Hno]. destruct Hno. auto.
Qed.

(** A pass over a tree in which nothing changed since the last one (every
    scanned file has a row with the scanned hash, every row belongs to a
    scanned file) is the warm-up of the embedding pool followed by the
    commit of an empty transaction: no file is converted, no snapshot is
    written or removed, no row is touched, the callback is never called. *)
Theorem unchanged_tree_pass (W : World) (ix : DocIndexer) (m : fs)
    (table : gmap path row) (file_list : list scanned) (markdown_dir root : path)
    (timeout : Z) (callback : bool) :
  (∀ file h x, (file, h, x) ∈ file_list → file_hash <$> table !! file = Some h) →
  (∀ file, is_Some (table !! file) → file ∈ file_list.*1.*1) →
  let fin := _update_database W ix m table file_list markdown_dir root timeout
                              callback in
  let warm := _warmup_process_pools W ix in
  let committed := commit_succeeds W (events warm) in
  disk fin.1 = m
  ∧ persistent (conn fin.1) = table
  ∧ events (indexer fin.1) = events warm ++ [if committed then Commit else Rollback]
  ∧ visible (since (length (events ix)) (events (indexer fin.1)))
    = [if committed then Commit else Rollback]
  ∧ fin.2 = (if committed then Completed else CommitFailed).
Proof.
  intros Hsame Hrows. cbv zeta. unfold _update_database.
  cbn [conn connect staged].
  rewrite (files_to_remove_nil W table file_list Hrows). cbn [remove_files].
  rewrite process_files_nothing_needed.
  2:{ intros file h x Hin. apply needs_same_hash. eauto. }
  unfold commit. cbn [indexer disk conn staged persistent].
  destruct (warmup_events W ix) as (evs & Hev & Hpool).
  destruct (commit_succeeds W (events (_warmup_process_pools W ix))) eqn:Hc;
    cbn [fst snd disk conn persistent indexer log events];
    (split; [done|]; split; [done|]; split; [done|]; split; [|done]);
    rewrite Hev, <- app_assoc, since_app, visible_app,
      (visible_pool_events _ Hpool); reflexivity.
Qed.

(** The theorem on a tree of one file whose row carries the scanned hash. *)
Lemma unchanged_tree_pass_witness :
  let table : gmap path row :=
    {[ ["r"; "a.txt"] := mkRow "h1" [Byte.x01] "2025-12-31T00:00:00+00:00" ".txt" ]} in
  let fin := _update_database quiet_world __init__ ∅ table
               [(["r"; "a.txt"], "h1", ".txt")] ["t"; "_markdown"] ["r"] 5 true in
  disk fin.1 = ∅
  ∧ persistent (conn fin.1) = table
  ∧ visible (since 0 (events (indexer fin.1))) = [Commit]
  ∧ fin.2 = Completed.
Proof.
  cbv zeta.
  pose proof (unchanged_tree_pass quiet_world __init__ ∅
    {[ ["r"; "a.txt"] := mkRow "h1" [Byte.x01] "2025-12-31T00:00:00+00:00" ".txt" ]}
    [(["r"; "a.txt"], "h1", ".txt")] ["t"; "_markdown"] ["r"] 5 true) as H.
  lapply H.
  2:{ intros file h x Hin. apply list_elem_of_singleton in Hin.
      assert (file = ["r"; "a.txt"] ∧ h = "h1") as [-> ->] by (split; congruence).
      reflexivity. }
  clear H; intros H. lapply H.
  2:{ intros file [r Hr]. apply lookup_singleton_Some in Hr as [<- _].
      apply list_elem_of_here. }
  clear H; intros H. cbv zeta in H.
  destruct H as (Hd & Hp & _ & Hv & He). auto.
Defined.

(** The row of a scanned file whose stored hash is the scanned one is what
    it was before the pass, however the pass ends and whatever happens to
    the other files. *)
Theorem unchanged_file_row (W : World) (ix : DocIndexer) (m : fs)
    (table : gmap path row) (file_list : list scanned) (markdown_dir root : path)
    (timeout : Z) (callback : bool) (file : path) :
  file ∈ file_list.*1.*1 →
  (∀ h x, (file, h, x) ∈ file_list → file_hash <$> table !! file = Some h) →
  let fin := _update_database W ix m table file_list markdown_dir root timeout
                              callback in
  persistent (conn fin.1) !! file = table !! file.
Proof.
  intros Hscan Hsame. cbv zeta. unfold _update_database.
  set (st0 := mkState ix m (connect table)).
  set (hashes := file_hash <$> staged (conn st0)).
  destruct (remove_files_summary markdown_dir root st0
              (files_to_remove W hashes file_list))
    as (removed & _ & Hpre & _ & Hper1 & Hst1).
  destruct (remove_files _ _ st0 _) as [st1 ok1]. cbn [fst snd] in *.
  destruct ok1; [|by cbn [drop_connection fst conn persistent]; rewrite Hper1].
  set (st2 := mkState (_warmup_process_pools W (indexer st1)) (disk st1) (conn st1)).
  assert (staged (conn st2) !! file = table !! file) as Hst2.
  { unfold st2. cbn [conn]. rewrite Hst1.
    assert (file ∉ removed) as Hno.
    { intros Hin. destruct Hpre as [k Hk].
      assert (file ∈ files_to_remove W hashes file_list) as Hin'
        by (rewrite Hk; apply elem_of_app; auto).
      unfold hashes, st0 in Hin'. cbn [conn connect staged] in Hin'.
      apply files_to_remove_elem in Hin' as [_ Hno]. done. }
    clear -Hno. unfold st0. cbn [conn connect staged].
    generalize table. induction removed as [|f removed IH]; intros t; [done|].
    apply not_elem_of_cons in Hno as [Hne Hno]. simpl.
    change (replay (SqlDelete <$> removed) (delete f t) !! file = t !! file).
    rewrite IH by done. now apply lookup_delete_ne. }
  assert (persistent (conn st2) = table) as Hper2 by (unfold st2; cbn [conn]; done).
  assert (∀ st, staged (conn (process_files W hashes markdown_dir root timeout callback
                                st file_list).1) !! file = staged (conn st) !! file)
    as Hkeep.
  { clear -Hsame. unfold hashes, st0. cbn [conn connect staged].
    induction file_list as [|[[f h] x] file_list IH]; intros st; [done|].
    rewrite process_files_cons, process_file_unfold.
    destruct (decide (f = file)) as [->|Hne].
    - rewrite needs_same_hash by (apply (Hsame h x), list_elem_of_here).
      apply IH. intros h' x' Hin. apply (Hsame h' x'). now apply list_elem_of_further.
    - assert (∀ h' x', (file, h', x') ∈ file_list →
                       file_hash <$> table !! file = Some h') as Hsame'.
      { intros h' x' Hin. apply (Hsame h' x'). now apply list_elem_of_further. }
      destruct (needs _ f h) as [k|]; [|now apply IH]. cbv zeta.
      destruct (_generate_embedding _ _ _ _ _ _ _) as [[ix' m'] [e| |]];
        cbn [fst snd].
      + destruct k.
        * unfold sql_insert. destruct (staged (conn st) !! f) eqn:E; [done|].
          rewrite IH by done. cbn [conn staged]. now apply lookup_insert_ne.
        * rewrite IH by done. unfold sql_update. cbn [conn].
          destruct (staged (conn st) !! f); [|done].
          cbn [staged]. now apply lookup_insert_ne.
      + now rewrite IH.
      + done. }
  destruct (process_files_summary W hashes markdown_dir root timeout callback st2
              file_list) as (evs & _ & _ & Hper3 & _).
  specialize (Hkeep st2).
  destruct (process_files _ _ _ _ _ _ st2 _) as [st3 ok3]. cbn [fst snd] in *.
  destruct ok3.
  - unfold commit. destruct (commit_succeeds W _); cbn [fst conn persistent].
    + now rewrite Hkeep.
    + now rewrite Hper3, Hper2.
  - cbn [drop_connection fst conn persistent]. now rewrite Hper3, Hper2.
Qed.

(** The theorem in a world that converts nothing: the changed [b.txt]
    fails, the row of the unchanged [a.txt] is the old one. *)
Lemma unchanged_file_row_witness :
  let r := mkRow "h1" [Byte.x01] "2025-12-31T00:00:00+00:00" ".txt" in
  let table : gmap path row := {[ ["r"; "a.txt"] := r ]} in
  let fin := _update_database picky_world __init__ ∅ table
               [(["r"; "b.txt"], "h2", ".txt"); (["r"; "a.txt"], "h1", ".txt")]
               ["t"; "_markdown"] ["r"] 5 true in
  persistent (conn fin.1) !! ["r"; "a.txt"] = Some r.
Proof.
  cbv zeta.
  rewrite (unchanged_file_row picky_world __init__ ∅
    {[ ["r"; "a.txt"] := mkRow "h1" [Byte.x01] "2025-12-31T00:00:00+00:00" ".txt" ]}
    [(["r"; "b.txt"], "h2", ".txt"); (["r"; "a.txt"], "h1", ".txt")]
    ["t"; "_markdown"] ["r"] 5 true ["r"; "a.txt"]).
  - reflexivity.
  - apply list_elem_of_further, list_elem_of_here.
  - intros h x Hin. apply elem_of_cons in Hin as [[=]|Hin].
    apply list_elem_of_singleton in Hin.
    assert (h = "h1") as -> by congruence. reflexivity.
Defined.

(** ** The rows a completed pass leaves *)

Lemma replay_deletes_Some (files : list path) (table : gmap path row) (file : path)
    (r : row) :
  replay (SqlDelete <$> files) table !! file = Some r →
  table !! file = Some r ∧ file ∉ files.
Proof.
  revert table; induction files as [|f files IH]; intros table H.
  - split; [done | apply not_elem_of_nil].
  - simpl in H. change (replay (SqlDelete <$> files) (delete f table) !! file = Some r)
      in H.
    apply IH in H as [H Hno]. apply lookup_delete_Some in H as [Hne H].
    split; [done|]. apply not_elem_of_cons. auto.
Qed.

(** Every row the loop over [file_list] leaves staged is one that was
    staged before or one built from an entry of the list. *)
Lemma process_files_rows (W : World) (hashes : gmap path string)
    (markdown_dir root : path) (timeout : Z) (callback : bool)
    (all : list scanned) (file_list : list scanned) (start : gmap path row)
    (st : state) :
  (∀ entry, entry ∈ file_list → entry ∈ all) →
  (∀ file r, staged (conn st) !! file = Some r →
             start !! file = Some r ∨ (file, file_hash r, file_extension r) ∈ all) →
  ∀ file r,
    staged (conn (process_files W hashes markdown_dir root timeout callback st
                    file_list).1) !! file = Some r →
    start !! file = Some r ∨ (file, file_hash r, file_extension r) ∈ all.
Proof.
  revert st; induction file_list as [|[[f h] x] file_list IH]; intros st Hsub Hinv;
    [done|].
  assert (∀ entry, entry ∈ file_list → entry ∈ all) as Hsub'
    by (intros e He; apply Hsub; now apply list_elem_of_further).
  assert ((f, h, x) ∈ all) as Hf by apply Hsub, list_elem_of_here.
  rewrite process_files_cons, process_file_unfold.
  destruct (needs hashes f h) as [k|]; [|now apply IH]. cbv zeta.
  destruct (_generate_embedding _ _ _ _ _ _ _) as [[ix' m'] [e| |]]; cbn [fst snd].
  - set (r0 := mkRow h e _ x).
    assert (∀ file r, <[f := r0]> (staged (conn st)) !! file = Some r →
              start !! file = Some r ∨ (file, file_hash r, file_extension r) ∈ all)
      as Hins.
    { intros file r Hr. apply lookup_insert_Some in Hr as [[<- <-]|[_ Hr]]; [|eauto].
      right. exact Hf. }
    destruct k.
    + unfold sql_insert. destruct (staged (conn st) !! f) eqn:E; [now apply Hinv|].
      now apply IH.
    + apply IH; [done|]. unfold sql_update. cbn [conn].
      destruct (staged (conn st) !! f); [|done]. exact Hins.
  - now apply IH.
  - exact Hinv.
Qed.

(** After a pass that committed, every row of the store belongs to a
    scanned file, and is either the row the store held before the pass or
    a row carrying the hash and the extension of a scanned entry of that
    file: no row of a vanished file, and no row made of anything but the
    scan. *)
Theorem rows_after_pass (W : World) (ix : DocIndexer) (m : fs)
    (table : gmap path row) (file_list : list scanned) (markdown_dir root : path)
    (timeout : Z) (callback : bool) :
  let fin := _update_database W ix m table file_list markdown_dir root timeout
                              callback in
  fin.2 = Completed →
  ∀ file r, persistent (conn fin.1) !! file = Some r →
    file ∈ file_list.*1.*1
    ∧ (table !! file = Some r ∨ (file, file_hash r, file_extension r) ∈ file_list).
Proof.
  cbv zeta. unfold _update_database.
  set (st0 := mkState ix m (connect table)).
  set (hashes := file_hash <$> staged (conn st0)).
  destruct (remove_files_summary markdown_dir root st0
              (files_to_remove W hashes file_list))
    as (removed & _ & _ & Hall & _ & Hst1).
  destruct (remove_files _ _ st0 _) as [st1 ok1]. cbn [fst snd] in *.
  destruct ok1; [|done]. rewrite Hall in Hst1 by done.
  set (st2 := mkState (_warmup_process_pools W (indexer st1)) (disk st1) (conn st1)).
  pose proof (process_files_rows W hashes markdown_dir root timeout callback
                file_list file_list (staged (conn st2)) st2
                (λ _ H, H) (λ _ _ H, or_introl H)) as Hrows.
  destruct (process_files _ _ _ _ _ _ st2 _) as [st3 ok3]. cbn [fst snd] in *.
  destruct ok3; [|done]. unfold commit.
  destruct (commit_succeeds W _); [|done]. intros _ file r.
  cbn [fst conn persistent]. intros Hr.
  assert (∀ h x, (file, h, x) ∈ file_list → file ∈ file_list.*1.*1) as Hpath.
  { intros h x Hin. apply list_elem_of_fmap. exists (file, h). split; [done|].
    apply list_elem_of_fmap. now exists (file, h, x). }
  destruct (Hrows file r Hr) as [Hold|Hnew]; [|eauto].
  unfold st2 in Hold. cbn [conn] in Hold. rewrite Hst1 in Hold.
  apply replay_deletes_Some in Hold as [Hold Hno].
  unfold st0 in Hold. cbn [conn connect staged] in Hold.
  split; [|auto].
  destruct (decide (file ∈ file_list.*1.*1)) as [|Hout]; [done|].
  destruct Hno. unfold hashes, st0. cbn [conn connect staged].
  apply files_to_remove_elem. eauto.
Qed.

(** The theorem on a pass that drops the row of a vanished file and
    inserts the row of a new one. *)
Lemma rows_after_pass_witness :
  let table : gmap path row :=
    {[ ["r"; "gone.txt"] := mkRow "h0" [Byte.x02] "2025-12-31T00:00:00+00:00" ".txt" ]} in
  let fin := _update_database quiet_world __init__ ∅ table
               [(["r"; "a.txt"], "h1", ".txt")] ["t"; "_markdown"] ["r"] 5 true in
  persistent (conn fin.1)
  = {[ ["r"; "a.txt"] := mkRow "h1" [Byte.x01] "2026-01-01T00:00:00+00:00" ".txt" ]}
  ∧ ∀ file r, persistent (conn fin.1) !! file = Some r →
      file ∈ [["r"; "a.txt"]]
      ∧ (table !! file = Some r
         ∨ (file, file_hash r, file_extension r) ∈ [(["r"; "a.txt"], "h1", ".txt")]).
Proof.
  cbv zeta. split; [vm_compute; reflexivity|].
  apply (rows_after_pass quiet_world __init__ ∅
    {[ ["r"; "gone.txt"] := mkRow "h0" [Byte.x02] "2025-12-31T00:00:00+00:00" ".txt" ]}
    [(["r"; "a.txt"], "h1", ".txt")] ["t"; "_markdown"] ["r"] 5 true).
  vm_compute. reflexivity.
Defined.


(** ** INSERT or UPDATE *)

Lemma replay_deletes_keep (files : list path) (table : gmap path row) (file : path) :
  file ∉ files → replay (SqlDelete <$> files) table !! file = table !! file.
Proof.
  revert table; induction files as [|f files IH]; intros table Hno; [done|].
  apply not_elem_of_cons in Hno as [Hne Hno]. simpl.
  change (replay (SqlDelete <$> files) (delete f table) !! file = table !! file).
  rewrite IH by done. now apply lookup_delete_ne.
Qed.

Lemma needs_Inserted (hashes : gmap path string) (file : path) (h : string) :
  needs hashes file h = Some Inserted ↔ hashes !! file = None.
Proof.
  unfold needs. destruct (hashes !! file) as [db_hash|]; [|done].
  destruct (negb _); split; done.
Qed.

Lemma needs_Updated (hashes : gmap path string) (file : path) (h : string) :
  needs hashes file h = Some Updated → is_Some (hashes !! file).
Proof.
  unfold needs. destruct (hashes !! file) as [db_hash|]; [eauto|done].
Qed.

Lemma process_files_app W hashes markdown_dir root timeout callback st
    (before rest : list scanned) :
  process_files W hashes markdown_dir root timeout callback st (before ++ rest)
  = match process_files W hashes markdown_dir root timeout callback st before with
    | (st', true) =>
        process_files W hashes markdown_dir root timeout callback st' rest
    | (st', false) => (st', false)
    end.
Proof.
  revert st. induction before as [|entry before IH]; intros st; [done|].
  rewrite <- app_comm_cons, !process_files_cons.
  destruct (process_file _ _ _ _ _ _ st entry) as [st1 [|]]; [apply IH | done].
Qed.

(** The choice between INSERT and UPDATE is made from the hashes read when
    the pass starts. Over a scan of distinct paths it is still right when
    the loop reaches the file: with [reached] the state of the pass at that
    moment (after the removal loop, the warm-up and the files before it),
    the transaction holds for the file the very row the table held when
    the pass started, or none if it held none. So the INSERT of a new file
    never meets a row, and cannot raise on the primary key, and the UPDATE
    of a changed file finds the row it is to change. *)
Theorem insert_never_conflicts (W : World) (ix : DocIndexer) (m : fs)
    (table : gmap path row) (file_list : list scanned) (markdown_dir root : path)
    (timeout : Z) (callback : bool) (before rest : list scanned) (file : path)
    (h x : string) (removed reached : state) :
  NoDup file_list.*1.*1 →
  file_list = before ++ (file, h, x) :: rest →
  let hashes := file_hash <$> table in
  remove_files markdown_dir root (mkState ix m (connect table))
               (files_to_remove W hashes file_list) = (removed, true) →
  process_files W hashes markdown_dir root timeout callback
    (mkState (_warmup_process_pools W (indexer removed)) (disk removed) (conn removed))
    before = (reached, true) →
  _update_database W ix m table file_list markdown_dir root timeout callback
  = match process_files W hashes markdown_dir root timeout callback reached
            ((file, h, x) :: rest) with
    | (st, true) => commit W st
    | (st, false) => (drop_connection st, Escaped)
    end
  ∧ staged (conn reached) !! file = table !! file
  ∧ (needs hashes file h = Some Inserted →
     ∀ r, sql_insert file r (conn reached)
          = Some (mkConn (persistent (conn reached))
                         (<[file := r]> (staged (conn reached)))))
  ∧ (needs hashes file h = Some Updated →
     ∀ r, staged (sql_update file r (conn reached)) !! file = Some r).
Proof.
  intros Hnd Hlist hashes Hremoved Hreached.
  assert (staged (conn reached) !! file = table !! file) as Hrow.
  { assert (file ∉ before.*1.*1) as Hfresh.
    { rewrite Hlist, !fmap_app in Hnd. apply NoDup_app in Hnd as (_ & Hnd & _).
      intros Hin. apply (Hnd file Hin). simpl. apply list_elem_of_here. }
    pose proof (process_files_frame W hashes markdown_dir root timeout callback
                  (mkState (_warmup_process_pools W (indexer removed)) (disk removed)
                           (conn removed)) before file Hfresh) as Hfr.
    rewrite Hreached in Hfr. cbn [fst conn] in Hfr. rewrite Hfr.
    destruct (remove_files_summary markdown_dir root (mkState ix m (connect table))
                (files_to_remove W hashes file_list))
      as (deleted & _ & _ & Hall & _ & Hst).
    rewrite Hremoved in Hall, Hst. cbn [fst snd conn connect staged] in Hall, Hst.
    rewrite Hst, (Hall eq_refl). apply replay_deletes_keep.
    intros Hin. apply files_to_remove_elem in Hin as [_ Hin]. apply Hin.
    rewrite Hlist, !fmap_app. apply elem_of_app. right. simpl. apply list_elem_of_here. }
  split; [|split; [exact Hrow|split]].
  - unfold _update_database. cbn [conn connect staged]. fold hashes.
    rewrite Hremoved, Hlist, process_files_app, Hreached. reflexivity.
  - intros Hneeds r. apply needs_Inserted in Hneeds.
    unfold hashes in Hneeds. rewrite lookup_fmap in Hneeds.
    unfold sql_insert. rewrite Hrow.
    now destruct (table !! file).
  - intros Hneeds r. apply needs_Updated in Hneeds.
    unfold hashes in Hneeds. rewrite lookup_fmap, fmap_is_Some in Hneeds.
    destruct Hneeds as [r0 Hr0]. unfold sql_update. rewrite Hrow, Hr0.
    cbn [staged]. apply lookup_insert_eq.
Qed.

(** The theorem on a pass over a new file and a changed one: when the loop
    reaches the changed file, its old row is what the transaction holds. *)
Lemma insert_never_conflicts_witness :
  let old := mkRow "h0" [Byte.x02] "2025-12-31T00:00:00+00:00" ".txt" in
  let table : gmap path row := {[ ["r"; "b.txt"] := old ]} in
  let removed := (remove_files ["m"] ["r"] (mkState __init__ ∅ (connect table)) []).1 in
  let reached :=
    (process_files quiet_world (file_hash <$> table) ["m"] ["r"] 5 false
       (mkState (_warmup_process_pools quiet_world (indexer removed)) (disk removed)
                (conn removed))
       [(["r"; "a.txt"], "h1", ".txt")]).1 in
  staged (conn reached) !! ["r"; "b.txt"] = Some old
  ∧ ∀ r, staged (sql_update ["r"; "b.txt"] r (conn reached)) !! ["r"; "b.txt"] = Some r.
Proof.
  cbv zeta.
  set (table := {[ ["r"; "b.txt"]
                   := mkRow "h0" [Byte.x02] "2025-12-31T00:00:00+00:00" ".txt" ]}
                : gmap path row).
  set (removed := (remove_files ["m"] ["r"] (mkState __init__ ∅ (connect table)) []).1).
  set (reached :=
         (process_files quiet_world (file_hash <$> table) ["m"] ["r"] 5 false
            (mkState (_warmup_process_pools quiet_world (indexer removed))
                     (disk removed) (conn removed))
            [(["r"; "a.txt"], "h1", ".txt")]).1).
  destruct (insert_never_conflicts quiet_world __init__ ∅ table
              [(["r"; "a.txt"], "h1", ".txt"); (["r"; "b.txt"], "h2", ".txt")]
              ["m"] ["r"] 5 false [(["r"; "a.txt"], "h1", ".txt")] []
              ["r"; "b.txt"] "h2" ".txt" removed reached)
    as (_ & Hrow & _ & Hupdate).
  - apply NoDup_cons. split; [|apply NoDup_singleton].
    intros H. apply list_elem_of_singleton in H. discriminate.
  - reflexivity.
  - vm_compute. reflexivity.
  - vm_compute. reflexivity.
  - split; [rewrite Hrow; vm_compute; reflexivity|].
    apply Hupdate. vm_compute. reflexivity.
Defined.

End StoreFacts.

(* ===================================================================== *)
(** * Snapshots: written by the indexer, read by the retriever *)
(* ===================================================================== *)

Module SnapshotFacts.
Import PyStr Pathlib FS Indexer Trace Reasons Worlds Excerpt.
Import PathlibFacts PassFacts CleanupFacts.

(** ** [mkdir(parents=True, exist_ok=True)] *)

Lemma mkdir_from_leaf (m : fs) (base : path) (rest : list string) (m' : fs) :
  mkdir_from m base rest = Some m' → rest ≠ [] → m' !! (base ++ rest) = Some Dir.
Proof.
  revert m base; induction rest as [|c rest IH]; intros m base H Hne; [done|].
  simpl in H. rewrite (cons_middle c base rest), app_assoc.
  destruct rest as [|c' rest].
  - rewrite app_nil_r.
    destruct (m !! (base ++ [c])) as [[t|]|] eqn:E; simpl in H; [done| |].
    + now injection H as <-.
    + injection H as <-. apply lookup_insert_eq.
  - destruct (m !! (base ++ [c])) as [[t|]|]; [done| |];
      (eapply IH; [exact H | done]).
Qed.

Lemma mkdir_from_frame (m : fs) (base : path) (rest : list string) (m' : fs) (q : path) :
  mkdir_from m base rest = Some m' → ¬ q `prefix_of` base ++ rest → m' !! q = m !! q.
Proof.
  revert m base; induction rest as [|c rest IH]; intros m base H Hq.
  - now injection H as <-.
  - simpl in H. rewrite (cons_middle c base rest), app_assoc in Hq.
    destruct (m !! (base ++ [c])) as [[t|]|] eqn:E; [done| |].
    + now apply (IH m (base ++ [c])).
    + rewrite (IH _ _ H Hq). apply lookup_insert_ne.
      intros <-. apply Hq. now exists rest.
Qed.

Lemma snoc_not_prefix (d : path) (c : string) : ¬ (d ++ [c]) `prefix_of` d.
Proof.
  intros [k Hk]. assert (length d = length ((d ++ [c]) ++ k)) as Hl by now rewrite <- Hk.
  rewrite !length_app in Hl. simpl in Hl. lia.
Qed.

(** Writing a snapshot below its freshly made directory. *)
Lemma write_after_mkdir (m m1 : fs) (d : path) (c : string) (t : text) :
  d ≠ [] → mkdir_parents m d = Some m1 → m !! (d ++ [c]) ≠ Some Dir →
  write_text m1 (d ++ [c]) t = Some (<[d ++ [c] := File t]> m1).
Proof.
  intros Hd Hmk Hnodir. unfold mkdir_parents in Hmk.
  pose proof (mkdir_from_leaf _ _ _ _ Hmk Hd) as Hleaf. simpl in Hleaf.
  pose proof (mkdir_from_frame _ _ _ _ (d ++ [c]) Hmk (snoc_not_prefix d c)) as Hfr.
  unfold write_text. rewrite Hfr, parent_snoc, Hleaf.
  destruct (m !! (d ++ [c])) as [[t0|]|]; [|done|];
    destruct d; try done; destruct (_ ++ [c]) eqn:E; try done;
    now apply app_eq_nil in E as [_ ?].
Qed.

Section RoundTrip.

Variable lower : text → text.
Variable isalnum : N → bool.

(** What the indexer writes is what the retriever reads. For a file inside
    [root] whose embedding was generated, with no directory in the place of
    its snapshot: the converted text is on disk at the snapshot path, and
    a [HelpChat] configured with the same [root_path] and [temp_path]
    computes the excerpt it puts into the prompt from that text. (The
    text is what [read_text] returns as long as it holds no carriage
    return, which Python's text mode translates on reading.) *)
Theorem snapshot_round_trip (W : World) (ix : DocIndexer) (m : fs)
    (file temp root rel : path) (timeout : Z) (e : bytes) (query : text) (limit : Z) :
  valid_name (name file) = true →
  relative_to file root = Some rel → rel ≠ [] →
  let markdown_dir := temp ++ ["_markdown"] in
  let snapshot := markdown_dir ++ parent rel ++ [name file +:+ ".md"] in
  m !! snapshot ≠ Some Dir →
  let g := _generate_embedding W ix m file markdown_dir root timeout in
  g.2 = Embedding e →
  ∃ text_content,
    (convert_file W ix file timeout).2 = Some text_content
    ∧ strip text_content ≠ []
    ∧ g.1.2 !! snapshot = Some (File text_content)
    ∧ (13%N ∉ text_content →
       _load_markdown_excerpt lower isalnum (mkLLM (Some root) (Some temp)) g.1.2
                              file query limit
       = Some (excerpt_of lower isalnum text_content query limit)).
Proof.
  intros Hv Hrel Hne markdown_dir snapshot Hnodir. cbv zeta.
  unfold _generate_embedding, snapshot_write_path. rewrite Hrel.
  rewrite (snapshot_inside _ _ _ _ Hv Hrel Hne), stem_md_suffix.
  fold markdown_dir. fold snapshot.
  assert (snapshot = (markdown_dir ++ parent rel) ++ [name file +:+ ".md"]) as Hsnap
    by (unfold snapshot; now rewrite app_assoc).
  assert (parent snapshot = markdown_dir ++ parent rel) as ->
    by (rewrite Hsnap; apply parent_snoc).
  destruct (mkdir_parents m (markdown_dir ++ parent rel)) as [m1|] eqn:Hmk; [|done].
  destruct (oversized_archive W file); [done|].
  destruct (convert_file W ix file timeout) as [ix1 [text_content|]]; [|done].
  destruct (strip text_content) as [|c0 s0] eqn:Hstrip; [done|].
  assert (markdown_dir ++ parent rel ≠ []) as Hd.
  { unfold markdown_dir. intros H. apply app_eq_nil in H as [H _].
    now apply app_eq_nil in H as [_ H]. }
  assert (write_text m1 snapshot text_content
          = Some (<[snapshot := File text_content]> m1)) as Hw.
  { rewrite Hsnap. apply (write_after_mkdir m); [done|done|]. now rewrite <- Hsnap. }
  rewrite Hw.
  destruct (_encode_with_timeout W ix1 text_content timeout) as [ix2 [e'|]]; [|done].
  cbn [fst snd]. intros _. exists text_content.
  split; [done|]. split; [now rewrite Hstrip|]. split; [apply lookup_insert_eq|].
  intros _. unfold _load_markdown_excerpt. cbn [root_path temp_path].
  unfold _resolve_markdown_path. rewrite Hrel.
  rewrite (snapshot_inside _ _ _ _ Hv Hrel Hne), stem_md_suffix.
  fold markdown_dir. fold snapshot.
  now rewrite lookup_insert_eq.
Qed.

End RoundTrip.

(** The theorem on [/r/docs/a.txt], indexed into an empty temp directory:
    the retriever's excerpt is the converted text. *)
Lemma snapshot_round_trip_witness :
  let g := _generate_embedding quiet_world __init__ ∅ ["r"; "docs"; "a.txt"]
             ["t"; "_markdown"] ["r"] 5 in
  g.1.2 !! ["t"; "_markdown"; "docs"; "a.txt.md"] = Some (File (of_string "hello"))
  ∧ _load_markdown_excerpt (map ascii_lower_char) ascii_isalnum
      (mkLLM (Some ["r"]) (Some ["t"])) g.1.2 ["r"; "docs"; "a.txt"]
      (of_string "hello there") 1500
    = Some (of_string "hello").
Proof.
  cbv zeta.
  destruct (snapshot_round_trip (map ascii_lower_char) ascii_isalnum quiet_world
              __init__ ∅ ["r"; "docs"; "a.txt"] ["t"] ["r"] ["docs"; "a.txt"] 5
              [Byte.x01] (of_string "hello there") 1500)
    as (text_content & Hc & Hs & Hdisk & Hload);
    [reflexivity | reflexivity | discriminate | discriminate
    | vm_compute; reflexivity |].
  assert (text_content = of_string "hello") as ->
    by (vm_compute in Hc; injection Hc as <-; reflexivity).
  assert (13%N ∉ of_string "hello") as Hcr.
  { vm_compute. intros H.
    repeat (apply elem_of_cons in H as [H|H]; [discriminate|]).
    by apply elem_of_nil in H. }
  specialize (Hload Hcr).
  split; [exact Hdisk|]. etrans; [exact Hload | vm_compute; reflexivity].
Defined.

(** ** What removing a snapshot leaves alone *)

Lemma parent_prefix (p : path) : parent p `prefix_of` p.
Proof.
  destruct p as [|c p] using rev_ind; [done|]. rewrite parent_snoc. now exists [c].
Qed.

Lemma prune_loop_subset (markdown_root : path) (fuel : nat) (m : fs)
    (current_dir : path) (x : path) :
  is_Some (prune_loop fuel m current_dir markdown_root !! x) → is_Some (m !! x).
Proof.
  revert m current_dir. induction fuel as [|fuel IH]; intros m current_dir Hx; [done|].
  simpl in Hx. destruct (below markdown_root current_dir); [|done].
  destruct (rmdir m current_dir) as [m2|] eqn:Hr; [|done].
  apply rmdir_Some in Hr as (_ & _ & ->).
  apply IH in Hx. destruct Hx as [v Hv].
  apply lookup_delete_Some in Hv as [_ Hv]. eauto.
Qed.

(** The pruning loop removes directories only: each one a proper
    descendant of the markdown root with nothing left inside. *)
Lemma prune_loop_only_dirs (markdown_root : path) (fuel : nat) (m : fs)
    (current_dir : path) (q : path) :
  let m' := prune_loop fuel m current_dir markdown_root in
  m' !! q = m !! q
  ∨ (m' !! q = None ∧ m !! q = Some Dir ∧ below markdown_root q = true
     ∧ q `prefix_of` current_dir ∧ children m' q = []).
Proof.
  cbv zeta. revert m current_dir.
  induction fuel as [|fuel IH]; intros m current_dir; [now left|].
  simpl. destruct (below markdown_root current_dir) eqn:Hb; [|now left].
  destruct (rmdir m current_dir) as [m1|] eqn:Hrm; [|now left].
  apply rmdir_Some in Hrm as (Hdir & Hch & ->).
  assert (∀ x, is_Some (prune_loop fuel (delete current_dir m) (parent current_dir)
                          markdown_root !! x) → is_Some (delete current_dir m !! x))
    as Hsub by (intros x; apply prune_loop_subset).
  destruct (decide (q = current_dir)) as [->|Hne].
  - right.
    assert (prune_loop fuel (delete current_dir m) (parent current_dir) markdown_root
            !! current_dir = None) as Hgone.
    { destruct (prune_loop _ _ _ _ !! current_dir) eqn:E; [|done].
      destruct (Hsub current_dir) as [v Hv]; [eauto|].
      now rewrite lookup_delete_eq in Hv. }
    split; [done|]. split; [done|]. split; [done|]. split; [done|].
    apply children_nil. intros x Hx Hxne.
    apply children_nil with (q := x) in Hch; [done| |done].
    destruct (Hsub x Hx) as [v Hv]. apply lookup_delete_Some in Hv as [_ Hv]. eauto.
  - destruct (IH (delete current_dir m) (parent current_dir)) as [H|H].
    + left. rewrite H. now apply lookup_delete_ne.
    + right. destruct H as (H1 & H2 & H3 & H4 & H5).
      rewrite lookup_delete_ne in H2 by done.
      split; [done|]. split; [done|]. split; [done|]. split; [|done].
      etrans; [exact H4 | apply parent_prefix].
Qed.

(** [_delete_markdown_snapshot] never creates or rewrites an entry; the
    only file it can remove is the snapshot it computes for the source; a
    directory it removes lies strictly below the markdown root, on the way
    to the snapshot, and has nothing left inside. Everything else on disk
    is as it was, wherever the source is. *)
Theorem delete_snapshot_only_prunes (m m' : fs) (file markdown_dir root : path) :
  _delete_markdown_snapshot m file markdown_dir root = Some m' →
  ∀ q, m' !! q = m !! q
       ∨ (m' !! q = None
          ∧ ((∃ content, m !! q = Some (File content)
                         ∧ snapshot_delete_path file markdown_dir root = Snapshot q)
             ∨ (m !! q = Some Dir ∧ below markdown_dir q = true
                ∧ children m' q = []
                ∧ ∃ snapshot, snapshot_delete_path file markdown_dir root
                              = Snapshot snapshot
                              ∧ q `prefix_of` snapshot))).
Proof.
  unfold _delete_markdown_snapshot.
  destruct (snapshot_delete_path file markdown_dir root) as [| |snapshot] eqn:Hp;
    [intros [= <-] q; now left | done |].
  unfold exists_, unlink.
  destruct (m !! snapshot) as [[content|]|] eqn:Hs;
    [| intros [= <-] q; now left | intros [= <-] q; now left].
  intros [= <-] q. unfold _prune_empty_markdown_dirs.
  destruct (prune_loop_only_dirs markdown_dir (length (parent snapshot))
              (delete snapshot m) (parent snapshot) q) as [H|H].
  - destruct (decide (q = snapshot)) as [->|Hne].
    + right. rewrite H, lookup_delete_eq. split; [done|]. left. eauto.
    + left. rewrite H. now apply lookup_delete_ne.
  - right. destruct H as (H1 & H2 & H3 & H4 & H5).
    apply lookup_delete_Some in H2 as [Hne H2].
    split; [done|]. right. split; [done|]. split; [done|]. split; [done|].
    exists snapshot. split; [done|]. etrans; [exact H4 | apply parent_prefix].
Qed.

(** The theorem on a tree where the directory of the removed snapshot is
    emptied and its parent is not: the sibling snapshot stays. *)
Lemma delete_snapshot_only_prunes_witness :
  let m : fs :=
    {[ ["m"] := Dir; ["m"; "a"] := Dir; ["m"; "a"; "x.md"] := File [104%N];
       ["m"; "y.md"] := File [105%N] ]} in
  let m' : fs := {[ ["m"] := Dir; ["m"; "y.md"] := File [105%N] ]} in
  _delete_markdown_snapshot m ["r"; "a"; "x"] ["m"] ["r"] = Some m'
  ∧ (m' !! ["m"; "y.md"] = m !! ["m"; "y.md"] ∨ m' !! ["m"; "y.md"] = None).
Proof.
  cbv zeta.
  assert (_delete_markdown_snapshot
            {[ ["m"] := Dir; ["m"; "a"] := Dir; ["m"; "a"; "x.md"] := File [104%N];
               ["m"; "y.md"] := File [105%N] ]}
            ["r"; "a"; "x"] ["m"] ["r"]
          = Some {[ ["m"] := Dir; ["m"; "y.md"] := File [105%N] ]}) as Hrun
    by (vm_compute; reflexivity).
  split; [exact Hrun|].
  destruct (delete_snapshot_only_prunes _ _ _ _ _ Hrun ["m"; "y.md"]) as [H|[H _]];
    auto.
Defined.

End SnapshotFacts.

(* ===================================================================== *)
(** * Exceptions that end a pass, and pools across passes *)
(* ===================================================================== *)

Module LifecycleFacts.
Import Pathlib FS Indexer Trace Reasons Worlds PoolFacts PassFacts CleanupFacts.
Import StoreFacts.

(** ** The two exceptions [_generate_embedding] does not catch *)

Lemma generate_embedding_raises (W : World) (ix : DocIndexer) (m : fs)
    (file markdown_dir root : path) (timeout : Z) :
  snapshot_write_path file markdown_dir root = None
  ∨ (∃ markdown_path, snapshot_write_path file markdown_dir root = Some markdown_path
                      ∧ mkdir_parents m (parent markdown_path) = None) →
  _generate_embedding W ix m file markdown_dir root timeout = (ix, m, Raised).
Proof.
  unfold _generate_embedding. intros [->|(p & -> & ->)]; reflexivity.
Qed.

(** The snapshot path is computed, and its directory created, before the
    archive check and any conversion, outside every [try]. When the first
    new or changed file of a pass with nothing to remove makes [with_suffix]
    raise (no usable file name) or [mkdir] raise (an ancestor of the
    snapshot exists as a regular file), the exception leaves the loop: the
    pass ends without commit or rollback, no later file is looked at, the
    store and the disk are as they were, and all the indexer did is the
    warm-up. *)
Theorem mkdir_failure_ends_pass (W : World) (ix : DocIndexer) (m : fs)
    (table : gmap path row) (file : path) (h x : string) (rest : list scanned)
    (markdown_dir root : path) (timeout : Z) (callback : bool) :
  (∀ q, is_Some (table !! q) → q ∈ ((file, h, x) :: rest).*1.*1) →
  file_hash <$> table !! file ≠ Some h →
  snapshot_write_path file markdown_dir root = None
  ∨ (∃ markdown_path, snapshot_write_path file markdown_dir root = Some markdown_path
                      ∧ mkdir_parents m (parent markdown_path) = None) →
  let fin := _update_database W ix m table ((file, h, x) :: rest) markdown_dir root
                              timeout callback in
  fin.2 = Escaped
  ∧ persistent (conn fin.1) = table
  ∧ disk fin.1 = m
  ∧ indexer fin.1 = _warmup_process_pools W ix.
Proof.
  intros Hrows Hnew Hraise. cbv zeta. unfold _update_database.
  cbn [conn connect staged].
  rewrite (files_to_remove_nil W table _ Hrows). cbn [remove_files].
  rewrite process_files_cons, process_file_unfold.
  assert (∃ k, needs (file_hash <$> table) file h = Some k) as [k ->].
  { unfold needs. rewrite lookup_fmap.
    destruct (file_hash <$> table !! file) as [db_hash|]; [|eauto].
    destruct (String.eqb_spec db_hash h) as [->|_]; [done | simpl; eauto]. }
  cbv zeta. cbn [indexer disk].
  rewrite (generate_embedding_raises _ _ _ _ _ _ _ Hraise). cbn [fst snd].
  auto.
Qed.

(** The theorem with [_markdown/a.txt.md] on disk as a file, where the
    snapshot of [/r/a.txt.md/b.txt] needs a directory. *)
Lemma mkdir_failure_ends_pass_witness :
  let m : fs := {[ ["t"] := Dir; ["t"; "_markdown"] := Dir;
                   ["t"; "_markdown"; "a.txt.md"] := File [104%N] ]} in
  let fin := _update_database quiet_world __init__ m ∅
               [(["r"; "a.txt.md"; "b.txt"], "h", ".txt"); (["r"; "c.txt"], "h", ".txt")]
               ["t"; "_markdown"] ["r"] 5 true in
  fin.2 = Escaped
  ∧ persistent (conn fin.1) = ∅
  ∧ disk fin.1 = m
  ∧ indexer fin.1 = _warmup_process_pools quiet_world __init__.
Proof.
  cbv zeta.
  apply (mkdir_failure_ends_pass quiet_world __init__ _ ∅ ["r"; "a.txt.md"; "b.txt"]
           "h" ".txt" [(["r"; "c.txt"], "h", ".txt")] ["t"; "_markdown"] ["r"] 5 true).
  - intros q [r Hr]. by rewrite lookup_empty in Hr.
  - by rewrite lookup_empty.
  - right. exists ["t"; "_markdown"; "a.txt.md"; "b.txt.md"].
    split; vm_compute; reflexivity.
Defined.

(** ** A pool made after a shutdown *)

Lemma reindex_update_indexer (W : World) (ix : DocIndexer) (m : fs)
    (table : gmap path row) (file_list : list scanned) (markdown_dir root : path)
    (timeout : Z) (callback : bool) :
  indexer (reindex_update W ix m table file_list markdown_dir root timeout callback).1
  = _shutdown_embedding_executor
      (_shutdown_conversion_executor
         (indexer (_update_database W ix m table file_list markdown_dir root timeout
                                    callback).1)).
Proof.
  unfold reindex_update. now destruct (_update_database _ _ _ _ _ _ _ _ _).
Qed.

(** [reindex] shuts both pools down when the pass is over, but the flag
    that says "the conversion pool has started" is not reset with the
    handle. After a pass that left it set, the first conversion of the next
    pass creates a new pool and waits for the base timeout only: the
    startup buffer is not granted to the cold pool. *)
Theorem warm_flag_outlives_pool (W W' : World) (ix : DocIndexer) (m : fs)
    (table : gmap path row) (file_list : list scanned) (markdown_dir root : path)
    (timeout : Z) (callback : bool) (file : path) (timeout' : Z) :
  let after := indexer (reindex_update W ix m table file_list markdown_dir root
                                       timeout callback).1 in
  _conversion_warmup_used after = true →
  _conversion_executor after = None
  ∧ _embedding_executor after = None
  ∧ events (_convert_to_markdown W' after file timeout').1
    = events after
      ++ [PoolCreated ConversionPool 2 (length (events after));
          Submitted ConversionPool (length (events after)) (Convert file) timeout'].
Proof.
  cbv zeta. rewrite reindex_update_indexer.
  set (ix1 := indexer (_update_database _ _ _ _ _ _ _ _ _).1).
  intros Hwarm. split; [done|]. split; [done|].
  set (after := _shutdown_embedding_executor _) in *.
  pose proof (convert_to_markdown_budget W' after file timeout') as H.
  unfold _ensure_conversion_executor in H.
  change (_conversion_executor after) with (@None nat) in H. cbv zeta in H.
  destruct H as (H & _). rewrite H. cbn [log events set_conversion].
  rewrite Hwarm, <- app_assoc. reflexivity.
Qed.

(** The theorem after a pass that converted [/r/b.pdf]: that pass waited
    5 + 15 seconds on its new pool, the next one waits 5. *)
Lemma warm_flag_outlives_pool_witness :
  let first := reindex_update quiet_world __init__ ∅ ∅
                 [(["r"; "b.pdf"], "h", ".pdf")] ["t"; "_markdown"] ["r"] 5 false in
  let after := indexer first.1 in
  Submitted ConversionPool 2 (Convert ["r"; "b.pdf"]) 20 ∈ events after
  ∧ events (_convert_to_markdown quiet_world after ["r"; "c.pdf"] 5).1
    = events after
      ++ [PoolCreated ConversionPool 2 (length (events after));
          Submitted ConversionPool (length (events after)) (Convert ["r"; "c.pdf"]) 5].
Proof.
  cbv zeta. split.
  { vm_compute. do 3 apply list_elem_of_further. apply list_elem_of_here. }
  apply (warm_flag_outlives_pool quiet_world quiet_world __init__ ∅ ∅
           [(["r"; "b.pdf"], "h", ".pdf")] ["t"; "_markdown"] ["r"] 5 false
           ["r"; "c.pdf"] 5).
  vm_compute. reflexivity.
Defined.

End LifecycleFacts.

(* ===================================================================== *)
(** * The temporary workspace: first use, repeated use, a nested store *)
(* ===================================================================== *)

Module WorkspaceFacts.
Import Pathlib TempDir TempDirFacts.

(** ** A successful call *)

Lemma accept_directory_sentinel (m m0 : entries) :
  accept_directory m = Some m0 → sentinel_exists m0 = true.
Proof.
  unfold accept_directory. destruct (sentinel_exists m) eqn:Hs.
  - now intros [= <-].
  - destruct (negb _); [done|]. intros [= <-].
    unfold sentinel_exists. now rewrite lookup_insert_eq.
Qed.

(** Every successful call is the cleanup of a directory that has the
    sentinel, followed by [makedirs]. *)
Lemma prepare_success (t t' : temp_state) (temp_abs embeddings_abs md : path) :
  _prepare_temp_path t temp_abs embeddings_abs = (t', MarkdownDir md) →
  ∃ m0 m',
    sentinel_exists m0 = true
    ∧ makedirs_markdown
        (cleanup (embeddings_basename temp_abs embeddings_abs) (listdir m0) m0)
      = Some m'
    ∧ t' = IsDirectory m' ∧ md = temp_abs ++ [markdown_name].
Proof.
  unfold _prepare_temp_path. destruct t as [| |m].
  - destruct (makedirs_markdown _) as [m'|] eqn:Hmk; [|done].
    intros [= <- <-]. exists {[ sentinel_name := RegularFile ]}, m'.
    split; [reflexivity|]. auto.
  - done.
  - destruct (accept_directory m) as [m0|] eqn:Ha; [|done].
    destruct (makedirs_markdown _) as [m'|] eqn:Hmk; [|done].
    intros [= <- <-]. exists m0, m'.
    split; [by eapply accept_directory_sentinel|]. auto.
Qed.

Lemma cleaned_directory_stable (basename : option string) (m0 m' : entries) :
  sentinel_exists m0 = true →
  makedirs_markdown (cleanup basename (listdir m0) m0) = Some m' →
  sentinel_exists m' = true
  ∧ cleanup basename (listdir m') m' = m'
  ∧ makedirs_markdown m' = Some m'.
Proof.
  intros Hs Hmk.
  destruct (makedirs_markdown_Some _ _ Hmk) as (Hother & (kd & Hkd & Hisdir) & _).
  split; [|split].
  - unfold sentinel_exists in *.
    rewrite (Hother sentinel_name) by done.
    rewrite cleanup_listdir_lookup.
    destruct (m0 !! sentinel_name) as [k|]; [|done]. done.
  - apply map_eq. intros n. rewrite cleanup_listdir_lookup.
    destruct (m' !! n) as [k|] eqn:Hk; [|done]. simpl.
    destruct (decide (n = markdown_name)) as [->|Hn]; [done|].
    rewrite (Hother n Hn) in Hk. apply cleanup_lookup_Some in Hk as [_ ->]. done.
  - unfold makedirs_markdown. now rewrite Hkd, Hisdir.
Qed.

(** [_prepare_temp_path] is idempotent: whenever a call succeeds, whatever
    the directory held (nothing, a legacy log, entries the cleanup cannot
    remove, the store at any depth), calling it again on the result
    succeeds, returns the same markdown directory and changes nothing. *)
Theorem prepare_idempotent (t t' : temp_state) (temp_abs embeddings_abs md : path) :
  _prepare_temp_path t temp_abs embeddings_abs = (t', MarkdownDir md) →
  _prepare_temp_path t' temp_abs embeddings_abs = (t', MarkdownDir md).
Proof.
  intros H. apply prepare_success in H as (m0 & m' & Hs & Hmk & -> & ->).
  destruct (cleaned_directory_stable _ _ _ Hs Hmk) as (Hs' & Hc & Hmk').
  rewrite (prepare_managed _ _ _ Hs'). cbv zeta. now rewrite Hc, Hmk'.
Qed.

(** The theorem on a directory that does not exist yet, and on the
    directory the first call made. *)
Lemma prepare_idempotent_witness :
  let made : entries :=
    {[ ".help_chat_temp" := RegularFile; "_markdown" := Directory ]} in
  _prepare_temp_path Absent ["tmp"; "w"] ["var"; "store.db"]
  = (IsDirectory made, MarkdownDir ["tmp"; "w"; "_markdown"])
  ∧ _prepare_temp_path (IsDirectory made) ["tmp"; "w"] ["var"; "store.db"]
    = (IsDirectory made, MarkdownDir ["tmp"; "w"; "_markdown"]).
Proof.
  cbv zeta.
  assert (_prepare_temp_path Absent ["tmp"; "w"] ["var"; "store.db"]
          = (IsDirectory {[ ".help_chat_temp" := RegularFile;
                            "_markdown" := Directory ]},
             MarkdownDir ["tmp"; "w"; "_markdown"])) as H
    by (vm_compute; reflexivity).
  split; [exact H|]. exact (prepare_idempotent _ _ _ _ _ H).
Defined.

(** ** First use of an existing directory *)

(** The other half of the refusal of unmanaged directories: an existing
    directory without sentinel that holds nothing, or nothing but an entry
    under the legacy log's name, is adopted. The call succeeds, creates
    the sentinel and [_markdown], and removes the log unless it is a
    directory ([os.unlink] fails on it, and the failure is swallowed). *)
Theorem unmanaged_directory_adopted (m : entries) (temp_abs embeddings_abs : path) :
  sentinel_exists m = false →
  (∀ n, is_Some (m !! n) → n = _LOG_FILE_NAME) →
  ∃ m',
    _prepare_temp_path (IsDirectory m) temp_abs embeddings_abs
    = (IsDirectory m', MarkdownDir (temp_abs ++ [markdown_name]))
    ∧ m' !! sentinel_name = Some RegularFile
    ∧ m' !! markdown_name = Some Directory
    ∧ m' !! _LOG_FILE_NAME
      = (if decide (m !! _LOG_FILE_NAME = Some Directory) then Some Directory
         else None)
    ∧ ∀ n, n ≠ sentinel_name → n ≠ markdown_name → n ≠ _LOG_FILE_NAME →
           m' !! n = None.
Proof.
  intros Hs Hall.
  assert (m = ∅ ∨ ∃ k, m = {[ _LOG_FILE_NAME := k ]}) as Hm.
  { destruct (m !! _LOG_FILE_NAME) as [k|] eqn:Hlog.
    - right. exists k. apply map_eq. intros n.
      destruct (decide (n = _LOG_FILE_NAME)) as [->|Hn].
      + now rewrite lookup_singleton_eq.
      + rewrite lookup_singleton_ne by done.
        destruct (m !! n) eqn:E; [|done]. destruct Hn. apply Hall. eauto.
    - left. apply map_eq. intros n. rewrite lookup_empty.
      destruct (m !! n) eqn:E; [|done].
      assert (n = _LOG_FILE_NAME) as -> by (apply Hall; eauto). congruence. }
  destruct Hm as [->|[k ->]];
    [exists {[ sentinel_name := RegularFile; markdown_name := Directory ]}
    |destruct (decide (k = Directory)) as [->|Hk];
     [exists {[ sentinel_name := RegularFile; _LOG_FILE_NAME := Directory;
                markdown_name := Directory ]}
     |exists {[ sentinel_name := RegularFile; markdown_name := Directory ]}]].
  3: destruct k; try done.
  all: split; [vm_compute; reflexivity|].
  all: split; [reflexivity|].
  all: split; [reflexivity|].
  all: split; [reflexivity|].
  all: intros n H1 H2 H3.
  all: rewrite ?lookup_insert_ne by done.
  all: now rewrite lookup_singleton_ne.
Qed.

(** The theorem on a directory that holds an old debug log only. *)
Lemma unmanaged_directory_adopted_witness :
  _prepare_temp_path (IsDirectory {[ "program_debug.log" := RegularFile ]})
                     ["tmp"; "w"] ["var"; "store.db"]
  = (IsDirectory {[ ".help_chat_temp" := RegularFile; "_markdown" := Directory ]},
     MarkdownDir ["tmp"; "w"; "_markdown"]).
Proof.
  destruct (unmanaged_directory_adopted {[ "program_debug.log" := RegularFile ]}
              ["tmp"; "w"] ["var"; "store.db"]) as (m' & H & _).
  - reflexivity.
  - intros n [k Hk]. now apply lookup_singleton_Some in Hk as [<- _].
  - rewrite H. vm_compute in H. injection H as <-. vm_compute. reflexivity.
Defined.

(** ** A store deeper inside the temp directory *)

(** The store is protected by comparing the base name of its path with
    the top-level names of the temp directory. When the store lies deeper
    inside ([temp_path/d/.../store]), the top-level entry [d] on the way
    to it is not protected: a managed directory loses [d], and with it the
    store, on every call. *)
Theorem nested_store_removed (m : entries) (temp_abs embeddings_abs : path)
    (d : string) (rest : path) (k : kind) :
  sentinel_exists m = true →
  embeddings_abs = temp_abs ++ d :: rest → rest ≠ [] →
  m !! d = Some k → k ≠ Special →
  d ≠ sentinel_name → d ≠ markdown_name → d ≠ _LOG_FILE_NAME →
  d ≠ name embeddings_abs →
  ∃ m' e, _prepare_temp_path (IsDirectory m) temp_abs embeddings_abs
          = (IsDirectory m', e)
          ∧ m' !! d = None.
Proof.
  intros Hs Hemb Hrest Hd Hk H1 H2 H3 H4.
  rewrite (prepare_managed _ _ _ Hs). cbv zeta.
  set (basename := embeddings_basename temp_abs embeddings_abs).
  assert (survives basename d k = false) as Hsv.
  { unfold survives.
    destruct (String.eqb_spec d sentinel_name); [done|].
    destruct (String.eqb_spec d markdown_name); [done|]. simpl.
    destruct (String.eqb_spec d _LOG_FILE_NAME); [done|].
    assert (protected basename d = false) as ->.
    { unfold protected, basename, embeddings_basename.
      destruct (inside_temp _ _); [|done].
      destruct (String.eqb_spec d (name embeddings_abs)); [done|].
      apply andb_false_r. }
    now destruct k. }
  assert (cleanup basename (listdir m) m !! d = None) as Hc.
  { rewrite cleanup_listdir_lookup, Hd. simpl. now rewrite Hsv. }
  destruct (makedirs_markdown _) as [m'|] eqn:Hmk.
  - exists m', (MarkdownDir (temp_abs ++ [markdown_name])). split; [done|].
    destruct (makedirs_markdown_Some _ _ Hmk) as (Hother & _).
    now rewrite (Hother d H2).
  - eexists _, OSError. split; [done|]. exact Hc.
Qed.

(** The theorem on a store at [temp_path/db/embeddings.db]. *)
Lemma nested_store_removed_witness :
  ∃ m' e,
    _prepare_temp_path
      (IsDirectory {[ ".help_chat_temp" := RegularFile; "_markdown" := Directory;
                      "db" := Directory ]})
      ["tmp"; "w"] ["tmp"; "w"; "db"; "embeddings.db"]
    = (IsDirectory m', e)
    ∧ m' !! "db" = None.
Proof.
  apply (nested_store_removed _ ["tmp"; "w"] _ "db" ["embeddings.db"] Directory);
    try reflexivity; discriminate.
Defined.

End WorkspaceFacts.

(* ===================================================================== *)
(** * The scan: which files are listed, and under which hash *)
(* ===================================================================== *)

Module ScanFacts.
Import PyStr Scan.

(** ** Blank tokens *)

Lemma lstrip_blank (s : text) : lstrip s = [] ↔ Forall (λ a, isspace a = true) s.
Proof.
  induction s as [|a s IH]; simpl; [by split; [constructor|]|].
  destruct (isspace a) eqn:E.
  - rewrite IH. split; [by constructor | by inversion 1].
  - split; [done|]. inversion 1; congruence.
Qed.

Lemma lstrip_keeps_blank (s : text) :
  Forall (λ a, isspace a = true) (lstrip s) ↔ Forall (λ a, isspace a = true) s.
Proof.
  induction s as [|a s IH]; simpl; [done|].
  destruct (isspace a) eqn:E; [|done].
  rewrite IH. split; [by constructor | by inversion 1].
Qed.

Lemma Forall_rev_blank (s : text) :
  Forall (λ a, isspace a = true) (rev s) ↔ Forall (λ a, isspace a = true) s.
Proof.
  split; intros H; [|now apply Forall_rev].
  rewrite <- (rev_involutive s). now apply Forall_rev.
Qed.

Lemma strip_blank (s : text) : strip s = [] ↔ Forall (λ a, isspace a = true) s.
Proof.
  unfold strip, rstrip.
  rewrite <- lstrip_keeps_blank, <- (Forall_rev_blank (lstrip s)).
  rewrite <- lstrip_blank. split.
  - intros H. apply (f_equal (@rev N)) in H. now rewrite rev_involutive in H.
  - now intros ->.
Qed.

(** ** [str.split] *)

Lemma split_nonempty (c : N) (s : text) : split c s ≠ [].
Proof.
  induction s as [|a s IH]; simpl; [done|].
  destruct (a =? c)%N; [done|]. now destruct (split c s).
Qed.

Lemma split_app (c : N) (s1 s2 : text) :
  split c (s1 ++ c :: s2) = split c s1 ++ split c s2.
Proof.
  induction s1 as [|a s1 IH]; simpl.
  - now rewrite N.eqb_refl.
  - destruct (a =? c)%N; rewrite IH; [done|].
    pose proof (split_nonempty c s1). now destruct (split c s1).
Qed.

Lemma split_token_chars (c : N) (s token : text) (a : N) :
  token ∈ split c s → a ∈ token → a ∈ s ∧ a ≠ c.
Proof.
  revert token; induction s as [|b s IH]; intros token; simpl.
  - intros ->%list_elem_of_singleton H. by apply elem_of_nil in H.
  - destruct (N.eqb_spec b c) as [->|Hne].
    + intros [->|Hin]%elem_of_cons Ha; [by apply elem_of_nil in Ha|].
      destruct (IH _ Hin Ha). split; [now apply list_elem_of_further | done].
    + pose proof (split_nonempty c s) as Hs.
      destruct (split c s) as [|t ts]; [done|].
      intros [->|Hin]%elem_of_cons Ha.
      * apply elem_of_cons in Ha as [->|Ha]; [split; [apply list_elem_of_here|done]|].
        destruct (IH t (list_elem_of_here _ _) Ha).
        split; [now apply list_elem_of_further | done].
      * destruct (IH token (list_elem_of_further _ _ _ Hin) Ha).
        split; [now apply list_elem_of_further | done].
Qed.

Lemma split_covers (c : N) (s : text) (a : N) :
  a ∈ s → a = c ∨ ∃ token, token ∈ split c s ∧ a ∈ token.
Proof.
  induction s as [|b s IH]; [by intros ?%elem_of_nil|].
  intros [->|Ha]%elem_of_cons; simpl.
  - destruct (N.eqb_spec b c) as [->|Hne]; [now left|]. right.
    destruct (split c s) as [|t ts].
    + exists [b]. split; apply list_elem_of_here.
    + exists (b :: t). split; apply list_elem_of_here.
  - destruct (IH Ha) as [->|(token & Hin & Hat)]; [now left|]. right.
    destruct (b =? c)%N.
    + exists token. split; [now apply list_elem_of_further | done].
    + destruct (split c s) as [|t ts]; [by apply elem_of_nil in Hin|].
      apply elem_of_cons in Hin as [->|Hin].
      * exists (b :: t). split; [apply list_elem_of_here|].
        now apply list_elem_of_further.
      * exists token. split; [now apply list_elem_of_further | done].
Qed.

Section Tables.

Variable lower : text → text.
Variable sha256_hexdigest : list Byte.byte → string.

(** ** The configured extensions *)

Lemma parse_unfold (s : text) :
  _parse_supported_extensions lower (Some s)
  = let normalized : gset text :=
      list_to_set (dotted <$> ((λ token, lower (strip token))
        <$> filter (λ token : text, token ≠ [] ∧ strip token ≠ []) (split comma s))) in
    if decide (normalized = ∅) then None else Some normalized.
Proof. reflexivity. Qed.

Lemma configured_eq (s : text) :
  configured lower s
  = list_to_set (dotted <$> ((λ token, lower (strip token))
      <$> filter (λ token : text, token ≠ [] ∧ strip token ≠ []) (split comma s))).
Proof.
  unfold configured. rewrite parse_unfold. cbv zeta.
  destruct (decide _) as [->|]; reflexivity.
Qed.

Lemma parse_configured (s : text) (S : gset text) :
  _parse_supported_extensions lower (Some s) = Some S → S = configured lower s.
Proof. unfold configured. now intros ->. Qed.

Lemma configured_dotted (s e : text) :
  e ∈ configured lower s → startswith [extsep] e = true.
Proof.
  rewrite configured_eq, elem_of_list_to_set, list_elem_of_fmap.
  intros (token & -> & _). unfold dotted.
  destruct (startswith [extsep] token) eqn:E; [done|]. reflexivity.
Qed.

(** A configuration string is rejected exactly when it holds nothing but
    commas and white space; a missing one is rejected too. The letters do
    not matter: [str.lower] plays no part in the decision. *)
Theorem parse_rejects_blank (s : text) :
  _parse_supported_extensions lower None = None
  ∧ (_parse_supported_extensions lower (Some s) = None
     ↔ ∀ a, a ∈ s → isspace a = true ∨ a = comma).
Proof.
  split; [reflexivity|]. rewrite parse_unfold. cbv zeta.
  set (kept := filter _ (split comma s)).
  assert (kept = [] ↔ ∀ a, a ∈ s → isspace a = true ∨ a = comma) as Hkept.
  { unfold kept. rewrite CleanupFacts.filter_nil_Forall, Forall_forall. split.
    - intros H a Ha.
      destruct (split_covers comma s a Ha) as [->|(token & Hin & Hat)]; [now right|].
      left. specialize (H token Hin).
      assert (strip token = []) as Hb.
      { destruct (decide (strip token = [])) as [|Hne]; [done|].
        destruct H. split; [|done]. intros ->. by apply elem_of_nil in Hat. }
      apply strip_blank in Hb. rewrite Forall_forall in Hb. auto.
    - intros H token Hin [_ Hne]. apply Hne, strip_blank, Forall_forall.
      intros a Ha. destruct (split_token_chars _ _ _ _ Hin Ha) as [Has Hac].
      destruct (H a Has); done. }
  rewrite <- Hkept. destruct kept as [|token kept'].
  - rewrite decide_True by done. done.
  - rewrite decide_False; [done|].
    intros H. assert (dotted (lower (strip token)) ∈ (∅ : gset text)) as Hin.
    { rewrite <- H. apply elem_of_list_to_set. simpl. apply list_elem_of_here. }
    by apply elem_of_empty in Hin.
Qed.

(** The configured set of a comma-separated list is the union of the sets
    of its parts: the order of the entries, their repetition and empty
    entries between commas make no difference, and every member starts
    with a dot. *)
Theorem configured_union (s1 s2 : text) :
  configured lower (s1 ++ comma :: s2) = configured lower s1 ∪ configured lower s2
  ∧ ∀ e, e ∈ configured lower (s1 ++ comma :: s2) → startswith [extsep] e = true.
Proof.
  split; [|apply configured_dotted].
  rewrite !configured_eq, split_app, filter_app, !fmap_app.
  apply list_to_set_app_L.
Qed.

(** ** The hash of a file *)

Lemma block_size_pos : (0 < block_size)%nat.
Proof. exact (Nat.lt_0_succ _). Qed.

Lemma take_block_nil (rest : list Byte.byte) : take block_size rest = [] → rest = [].
Proof.
  pose proof block_size_pos as Hpos. destruct block_size; [lia|].
  now destruct rest.
Qed.

(** The blocks read are the content, in order and without a gap. *)
Lemma read_blocks_all (fuel : nat) (rest fed : list Byte.byte) :
  (length rest < fuel)%nat →
  foldl (λ fed byte_block, fed ++ byte_block) fed (read_blocks fuel rest) = fed ++ rest.
Proof.
  revert rest fed. induction fuel as [|fuel IH]; intros rest fed Hfuel; [lia|].
  cbn [read_blocks].
  destruct (take block_size rest) as [|b block] eqn:E.
  - apply take_block_nil in E as ->. now rewrite app_nil_r.
  - cbn [foldl]. rewrite IH.
    + now rewrite <- E, <- app_assoc, take_drop.
    + rewrite length_drop. pose proof block_size_pos.
      destruct rest; [by rewrite take_nil in E|]. simpl in *. lia.
Qed.

Lemma calculate_file_hash_eq (t : Tree) (file_path : text) :
  _calculate_file_hash sha256_hexdigest t file_path
  = sha256_hexdigest <$> open_rb t file_path.
Proof.
  unfold _calculate_file_hash. destruct (open_rb t file_path) as [content|]; [|done].
  cbv zeta. rewrite read_blocks_all by lia. reflexivity.
Qed.

(** Reading in blocks of 4096 bytes loses nothing: for a file of any
    length (empty, shorter than a block, a multiple of the block size or
    not) the loop ends and the hash is the SHA-256 digest of the whole
    content; a file that cannot be read gives the [OSError]. *)
Theorem file_hash_of_content (t : Tree) (file_path : text) :
  _calculate_file_hash sha256_hexdigest t file_path
  = match open_rb t file_path with
    | Some content => Some (sha256_hexdigest content)
    | None => None
    end.
Proof.
  rewrite calculate_file_hash_eq. now destruct (open_rb t file_path).
Qed.

(** ** The file list *)

Lemma scan_file_app (t : Tree) (extensions_set : gset text) (root : text)
    (file_list : list entry) (file : text) :
  scan_file lower sha256_hexdigest t extensions_set root file_list file
  = file_list ++ scan_file lower sha256_hexdigest t extensions_set root [] file.
Proof.
  unfold scan_file. cbv zeta. destruct (decide _); [|now rewrite app_nil_r].
  destruct (_calculate_file_hash _ _ _); [done | now rewrite app_nil_r].
Qed.

Lemma scan_files_app (t : Tree) (extensions_set : gset text) (root : text)
    (file_list : list entry) (files : list text) :
  foldl (scan_file lower sha256_hexdigest t extensions_set root) file_list files
  = file_list
    ++ foldl (scan_file lower sha256_hexdigest t extensions_set root) [] files.
Proof.
  revert file_list. induction files as [|file files IH]; intros file_list.
  - now rewrite app_nil_r.
  - cbn [foldl]. rewrite IH, (IH (scan_file _ _ _ _ _ [] _)), scan_file_app.
    now rewrite app_assoc.
Qed.

(** What one file adds to the list. *)
Lemma scan_file_elem (t : Tree) (extensions_set : gset text) (root file : text)
    (e : entry) :
  e ∈ scan_file lower sha256_hexdigest t extensions_set root [] file
  ↔ ∃ content,
      open_rb t (join root file) = Some content
      ∧ lower (splitext file).2 ∈ extensions_set
      ∧ e = (join root file, sha256_hexdigest content, lower (splitext file).2).
Proof.
  unfold scan_file. cbv zeta. rewrite calculate_file_hash_eq.
  destruct (decide _) as [Hin|Hout].
  - destruct (open_rb t (join root file)) as [content|]; simpl.
    + rewrite list_elem_of_singleton. split; [intros ->; eauto|].
      now intros (c & [= <-] & _ & ->).
    + split; [by intros ?%elem_of_nil | by intros (c & ? & _)].
  - split; [by intros ?%elem_of_nil | by intros (c & _ & ? & _)].
Qed.

Lemma scan_files_elem (t : Tree) (extensions_set : gset text) (root : text)
    (files : list text) (e : entry) :
  e ∈ foldl (scan_file lower sha256_hexdigest t extensions_set root) [] files
  ↔ ∃ file, file ∈ files
            ∧ e ∈ scan_file lower sha256_hexdigest t extensions_set root [] file.
Proof.
  induction files as [|file files IH].
  - split; [by intros ?%elem_of_nil | by intros (f & ?%elem_of_nil & _)].
  - cbn [foldl]. rewrite scan_files_app, elem_of_app, IH. split.
    + intros [H|(f & Hf & H)].
      * exists file. split; [apply list_elem_of_here | done].
      * exists f. split; [now apply list_elem_of_further | done].
    + intros (f & [->|Hf]%elem_of_cons & H); [now left | right; eauto].
Qed.

Lemma scan_files_paths (t : Tree) (extensions_set : gset text) (root : text)
    (files : list text) :
  (foldl (scan_file lower sha256_hexdigest t extensions_set root) [] files).*1.*1
  `sublist_of` (join root <$> files).
Proof.
  induction files as [|file files IH]; [done|].
  cbn [foldl]. rewrite scan_files_app, !fmap_app, fmap_cons.
  change (join root file :: (join root <$> files))
    with ([join root file] ++ (join root <$> files)).
  apply sublist_app; [|done].
  unfold scan_file. cbv zeta. destruct (decide _); [|apply sublist_nil_l].
  destruct (_calculate_file_hash _ _ _); [done | apply sublist_nil_l].
Qed.

Lemma scan_walk_app (t : Tree) (extensions_set : gset text)
    (file_list : list entry) (ws : list walked) :
  foldl (λ file_list (w : walked),
           foldl (scan_file lower sha256_hexdigest t extensions_set w.1.1) file_list w.2)
        file_list ws
  = file_list
    ++ foldl (λ file_list (w : walked),
                foldl (scan_file lower sha256_hexdigest t extensions_set w.1.1)
                      file_list w.2)
             [] ws.
Proof.
  revert file_list. induction ws as [|w ws IH]; intros file_list.
  - now rewrite app_nil_r.
  - cbn [foldl]. rewrite IH, (IH (foldl _ [] _)), scan_files_app.
    now rewrite app_assoc.
Qed.

(** The file list holds exactly the files [os.walk] yields whose
    lowercased [splitext] extension is in the set and that can be read,
    each with its joined path, the SHA-256 digest of its content and that
    extension; a file that cannot be read is left out and the scan goes on.
    The paths come in the order of the walk. *)
Theorem scanned_entries (t : Tree) (root_path : text) (extensions_set : gset text) :
  let file_list := _scan_files lower sha256_hexdigest t root_path extensions_set in
  (∀ file_path file_hash file_ext,
     (file_path, file_hash, file_ext) ∈ file_list
     ↔ ∃ root dirs files file content,
         (root, dirs, files) ∈ os_walk t root_path ∧ file ∈ files
         ∧ file_path = join root file
         ∧ file_ext = lower (splitext file).2 ∧ file_ext ∈ extensions_set
         ∧ open_rb t file_path = Some content
         ∧ file_hash = sha256_hexdigest content)
  ∧ file_list.*1.*1
    `sublist_of` flat_map (λ w : walked, join w.1.1 <$> w.2) (os_walk t root_path).
Proof.
  cbv zeta. unfold _scan_files.
  induction (os_walk t root_path) as [|[[root dirs] files] ws [IH1 IH2]].
  - split; [|done]. intros p h x. split; [by intros ?%elem_of_nil|].
    by intros (? & ? & ? & ? & ? & ?%elem_of_nil & _).
  - cbn [foldl]. rewrite scan_walk_app. cbn [fst snd]. split.
    + intros p h x. rewrite elem_of_app, IH1, scan_files_elem. split.
      * intros [(file & Hf & He)|(r & d & fs & file & c & Hw & Hrest)].
        -- apply scan_file_elem in He as (c & Ho & Hx & [= -> -> ->]).
           exists root, dirs, files, file, c.
           split; [apply list_elem_of_here | auto 10].
        -- exists r, d, fs, file, c. split; [now apply list_elem_of_further | done].
      * intros (r & d & fs & file & c & [[= -> -> ->]|Hw]%elem_of_cons
                & Hf & -> & -> & Hx & Ho & ->).
        -- left. exists file. split; [done|]. apply scan_file_elem. eauto 10.
        -- right. exists r, d, fs, file, c. auto 10.
    + rewrite !fmap_app. cbn [flat_map fst snd].
      apply sublist_app; [apply scan_files_paths | done].
Qed.

(** With the set a configuration string stands for, a file whose name has
    no extension for [os.path.splitext] (no dot, or dots at the start only:
    [README], [.gitignore]) is passed over by the scan, and every listed
    file carries an extension that starts with a dot. *)
Theorem extension_required (t : Tree) (root_path supported_extensions : text)
    (extensions_set : gset text) :
  lower [] = [] →
  _parse_supported_extensions lower (Some supported_extensions) = Some extensions_set →
  (∀ root file_list file,
     (splitext file).2 = [] →
     scan_file lower sha256_hexdigest t extensions_set root file_list file = file_list)
  ∧ (∀ file_path file_hash file_ext,
       (file_path, file_hash, file_ext)
       ∈ _scan_files lower sha256_hexdigest t root_path extensions_set →
       startswith [extsep] file_ext = true).
Proof.
  intros Hlower ->%parse_configured. split.
  - intros root file_list file Hext. unfold scan_file. cbv zeta.
    rewrite Hext, Hlower. destruct (decide _) as [Hin|]; [|done].
    now apply configured_dotted in Hin.
  - intros p h x Hin. unfold _scan_files in Hin.
    induction (os_walk t root_path) as [|w ws IH]; [by apply elem_of_nil in Hin|].
    cbn [foldl] in Hin. rewrite scan_walk_app in Hin.
    apply elem_of_app in Hin as [Hin|Hin]; [|auto].
    apply scan_files_elem in Hin as (file & _ & Hin).
    apply scan_file_elem in Hin as (c & _ & Hx & [= _ _ ->]).
    now apply configured_dotted in Hx.
Qed.

End Tables.

(** The theorem on a tree with [a.TXT], [README], [.hidden], an unreadable
    [locked.txt] and [sub/b.tar.gz], scanned for ["txt, .GZ"]. *)
Lemma extension_required_witness :
  ∃ extensions_set,
    _parse_supported_extensions ascii_lower (Some (of_string "txt, .GZ"))
    = Some extensions_set
    ∧ _scan_files ascii_lower example_digest example_tree (of_string "/r") extensions_set
      = [(of_string "/r/a.TXT", "##", of_string ".txt");
         (of_string "/r/sub/b.tar.gz", "##", of_string ".gz")]
    ∧ scan_file ascii_lower example_digest example_tree extensions_set (of_string "/r")
                [] (of_string "README") = [].
Proof.
  exists {[ of_string ".txt"; of_string ".gz" ]}.
  assert (_parse_supported_extensions ascii_lower (Some (of_string "txt, .GZ"))
          = Some {[ of_string ".txt"; of_string ".gz" ]}) as Hparse
    by (vm_compute; reflexivity).
  split; [exact Hparse|].
  destruct (extension_required ascii_lower example_digest example_tree
              (of_string "/r") (of_string "txt, .GZ") _ eq_refl Hparse) as [Hskip _].
  split; [vm_compute; reflexivity | apply Hskip; vm_compute; reflexivity].
Defined.

End ScanFacts.

(* ===================================================================== *)
(** * The retriever returns the most similar documents *)
(* ===================================================================== *)

Module RetrievalFacts.
Import PyStr Retrieval.

Section Heap.

Context {score : Type}.
Variable gt : score → score → bool.
Abbreviation item := (score * text)%type.
Variable heappush : list item → item → list item.
Variable heapreplace : list item → item → list item.
Variable sorted_by_score : list item → list item.
Variable compare_with_query : list Byte.byte → scored score.

(** ** When the method raises, and when it has nothing to say *)

Lemma rank_rows_None (candidate_limit : Z) (rows : list (text * list Byte.byte))
    (heap : list item) :
  rank_rows gt heappush heapreplace compare_with_query candidate_limit heap rows = None
  ↔ ∃ row, row ∈ rows ∧ compare_with_query row.2 = Malformed.
Proof.
  revert heap. induction rows as [|[file_path blob] rows IH]; intros heap; simpl.
  - split; [done | by intros (row & ?%elem_of_nil & _)].
  - destruct (compare_with_query blob) eqn:E.
    + rewrite IH. split.
      * intros (row & Hin & Hm). exists row. split; [now apply list_elem_of_further|done].
      * intros (row & [->|Hin]%elem_of_cons & Hm); [simpl in Hm; congruence | eauto].
    + rewrite IH. split.
      * intros (row & Hin & Hm). exists row. split; [now apply list_elem_of_further|done].
      * intros (row & [->|Hin]%elem_of_cons & Hm); [simpl in Hm; congruence | eauto].
    + split; [|done]. intros _. exists (file_path, blob).
      split; [apply list_elem_of_here | done].
Qed.

(** A query whose embedding has norm zero, or a limit that is not
    positive, gives the empty list whatever the store holds: no row is
    looked at. In every other case the method raises exactly when the
    [SELECT] raises or one stored vector cannot be compared with the query;
    there is no partial answer. Vectors of norm zero are passed over. *)
Theorem retrieve_context_raises (query_norm_is_zero : bool)
    (rows : option (list (text * list Byte.byte))) (top_k : option Z)
    (context_documents : Z) :
  let limit := match top_k with Some k => k | None => context_documents end in
  let result := _retrieve_context gt heappush heapreplace sorted_by_score
                  compare_with_query query_norm_is_zero rows top_k
                  context_documents in
  (query_norm_is_zero = true → result = Some [])
  ∧ (is_Some rows → limit ≤ 0 → result = Some [])
  ∧ (query_norm_is_zero = false →
     (result = None
      ↔ rows = None
        ∨ (0 < limit
           ∧ ∃ rows' row, rows = Some rows' ∧ row ∈ rows'
                          ∧ compare_with_query row.2 = Malformed))).
Proof.
  cbv zeta. unfold _retrieve_context. split; [|split].
  - now intros ->.
  - intros [rows' ->] Hlimit. destruct query_norm_is_zero; [done|].
    now rewrite (proj2 (Z.leb_le _ _) Hlimit).
  - intros ->. destruct rows as [rows'|].
    2:{ split; [auto | done]. }
    set (limit := match top_k with Some k => k | None => context_documents end).
    destruct (Z.leb_spec limit 0) as [Hle|Hgt].
    + split; [done|]. intros [|(Hpos & _)]; [done | lia].
    + destruct (rank_rows _ _ _ _ _ _ rows') as [heap|] eqn:E.
      * split; [by destruct heap|]. intros [|(_ & r & row & [= <-] & Hin & Hm)]; [done|].
        assert (rank_rows gt heappush heapreplace compare_with_query
                          (Z.max limit 1) [] rows' = None) as E'
          by (apply rank_rows_None; eauto).
        congruence.
      * split; [|done]. intros _. right. split; [done|].
        apply rank_rows_None in E as (row & Hin & Hm). eauto.
Qed.

(** ** The selection *)

(** Python's [>] on the similarities is a strict weak order: the floats
    without NaN. *)
Hypothesis gt_asym : ∀ a b, gt a b = true → gt b a = false.
Hypothesis gt_trans : ∀ a b c, gt a b = true → gt b c = true → gt a c = true.
Hypothesis gt_cotrans : ∀ a b c, gt a b = false → gt b c = false → gt a c = false.

(** What [heapq] promises: the two operations keep the heap invariant and
    the entries (the least one leaves on [heapreplace]), and the first
    entry of a heap is a least one. *)
Variable is_heap : list item → Prop.
Hypothesis heap_nil : is_heap [].
Hypothesis heappush_heap : ∀ heap x,
  is_heap heap → is_heap (heappush heap x) ∧ heappush heap x ≡ₚ x :: heap.
Hypothesis heapreplace_heap : ∀ least heap x,
  is_heap (least :: heap) →
  is_heap (heapreplace (least :: heap) x) ∧ heapreplace (least :: heap) x ≡ₚ x :: heap.
Hypothesis heap_least : ∀ least heap y,
  is_heap (least :: heap) → y ∈ heap → gt least.1 y.1 = false.

(** What [sorted] promises. *)
Hypothesis sorted_by_score_sorted : ∀ heap,
  sorted_by_score heap ≡ₚ heap
  ∧ StronglySorted (λ a b : item, gt b.1 a.1 = false) (sorted_by_score heap).

(** One row offered to the queue: the queue holds the best [k] of the rows
    seen, the others are dropped. *)
Lemma offer_keeps_best (k : nat) (seen heap dropped : list item) (file_path : text)
    (similarity : score) :
  (1 ≤ k)%nat →
  is_heap heap → seen ≡ₚ heap ++ dropped →
  (length heap ≤ k)%nat → (dropped ≠ [] → length heap = k) →
  (∀ x y, x ∈ dropped → y ∈ heap → gt x.1 y.1 = false) →
  let heap' := offer gt heappush heapreplace (Z.of_nat k) heap file_path similarity in
  ∃ dropped',
    is_heap heap' ∧ (similarity, file_path) :: seen ≡ₚ heap' ++ dropped'
    ∧ (length heap' ≤ k)%nat ∧ (dropped' ≠ [] → length heap' = k)
    ∧ (∀ x y, x ∈ dropped' → y ∈ heap' → gt x.1 y.1 = false).
Proof.
  intros Hk Hheap Hseen Hlen Hfull Hbest. cbv zeta. unfold offer.
  destruct (Z.ltb_spec (Z.of_nat (length heap)) (Z.of_nat k)) as [Hlt|Hge].
  - destruct (heappush_heap heap (similarity, file_path) Hheap) as [Hh Hp].
    assert (dropped = []) as -> by (destruct dropped; [done|]; specialize (Hfull ltac:(done)); lia).
    exists []. rewrite app_nil_r in *. split; [done|]. split; [now rewrite Hp, Hseen|].
    split; [rewrite Hp; simpl; lia|]. split; [done|].
    intros x y Hx. by apply elem_of_nil in Hx.
  - destruct heap as [|least heap]; [simpl in *; lia|].
    destruct (gt similarity least.1) eqn:Hgt.
    + destruct (heapreplace_heap least heap (similarity, file_path) Hheap) as [Hh Hp].
      exists (least :: dropped). split; [done|]. split; [|split; [|split]].
      * rewrite Hp, Hseen. simpl. constructor. apply Permutation_middle.
      * rewrite Hp. simpl in *. lia.
      * intros _. rewrite Hp. simpl in *. lia.
      * intros x y Hx Hy. rewrite Hp in Hy.
        apply elem_of_cons in Hx as [->|Hx]; apply elem_of_cons in Hy as [->|Hy].
        -- now apply gt_asym.
        -- now apply (heap_least least heap).
        -- simpl. destruct (gt x.1 similarity) eqn:E; [|done].
           rewrite <- (Hbest x least Hx (list_elem_of_here _ _)).
           symmetry. now apply (gt_trans _ similarity).
        -- apply Hbest; [done | now apply list_elem_of_further].
    + exists ((similarity, file_path) :: dropped). split; [done|].
      split; [|split; [|split]].
      * rewrite Hseen. apply (Permutation_middle (least :: heap)).
      * done.
      * intros _. simpl in *. lia.
      * intros x y [->|Hx]%elem_of_cons Hy; [|now apply Hbest].
        apply elem_of_cons in Hy as [->|Hy]; [done|]. simpl.
        apply (gt_cotrans _ least.1); [done|]. now apply (heap_least least heap).
Qed.

Lemma rank_rows_keeps_best (k : nat) (rows : list (text * list Byte.byte))
    (seen heap dropped heap' : list item) :
  (1 ≤ k)%nat →
  is_heap heap → seen ≡ₚ heap ++ dropped →
  (length heap ≤ k)%nat → (dropped ≠ [] → length heap = k) →
  (∀ x y, x ∈ dropped → y ∈ heap → gt x.1 y.1 = false) →
  rank_rows gt heappush heapreplace compare_with_query (Z.of_nat k) heap rows
  = Some heap' →
  ∃ dropped',
    is_heap heap' ∧ candidates compare_with_query rows ++ seen ≡ₚ heap' ++ dropped'
    ∧ (length heap' ≤ k)%nat ∧ (dropped' ≠ [] → length heap' = k)
    ∧ (∀ x y, x ∈ dropped' → y ∈ heap' → gt x.1 y.1 = false).
Proof.
  intros Hk. revert seen heap dropped.
  induction rows as [|[file_path blob] rows IH];
    intros seen heap dropped Hheap Hseen Hlen Hfull Hbest; simpl.
  - intros [= <-]. exists dropped. auto.
  - unfold candidates. simpl. destruct (compare_with_query blob) as [|similarity|].
    + intros Hrun. now apply (IH seen heap dropped).
    + intros Hrun.
      destruct (offer_keeps_best k seen heap dropped file_path similarity
                  Hk Hheap Hseen Hlen Hfull Hbest)
        as (dropped1 & H1 & H2 & H3 & H4 & H5).
      destruct (IH _ _ _ H1 H2 H3 H4 H5 Hrun) as (dropped' & H).
      exists dropped'. simpl.
      rewrite Permutation_middle. exact H.
    + done.
Qed.

(** With a positive limit and a query of non-zero norm, over rows that can
    all be compared with the query: the method returns, most similar
    first, as many rows as the limit allows among those whose vector has
    a non-zero norm, each with its similarity, and no row left out is more
    similar than a row returned. *)
Theorem retrieve_top_k (rows : list (text * list Byte.byte)) (top_k : option Z)
    (context_documents : Z) :
  let limit := match top_k with Some k => k | None => context_documents end in
  0 < limit →
  (∀ row, row ∈ rows → compare_with_query row.2 ≠ Malformed) →
  ∃ result left_out,
    _retrieve_context gt heappush heapreplace sorted_by_score compare_with_query
                      false (Some rows) top_k context_documents
    = Some result
    ∧ candidates compare_with_query rows
      ≡ₚ ((λ r : text * score, (r.2, r.1)) <$> result) ++ left_out
    ∧ length result
      = (Z.to_nat limit `min` length (candidates compare_with_query rows))%nat
    ∧ StronglySorted (λ a b : text * score, gt b.2 a.2 = false) result
    ∧ ∀ x r, x ∈ left_out → r ∈ result → gt x.1 r.2 = false.
Proof.
  cbv zeta. set (limit := match top_k with Some k => k | None => context_documents end).
  intros Hpos Hwell. unfold _retrieve_context. fold limit.
  rewrite (proj2 (Z.leb_gt _ _) Hpos).
  replace (Z.max limit 1) with (Z.of_nat (Z.to_nat limit)) by lia.
  set (k := Z.to_nat limit). assert (1 ≤ k)%nat as Hk by lia.
  destruct (rank_rows gt heappush heapreplace compare_with_query (Z.of_nat k) [] rows)
    as [heap|] eqn:Hrun.
  2:{ apply rank_rows_None in Hrun as (row & Hin & Hm). by destruct (Hwell row Hin). }
  destruct (rank_rows_keeps_best k rows [] [] [] heap Hk heap_nil (reflexivity _)
              (Nat.le_0_l _) (λ H, False_ind _ (H eq_refl))
              (λ x y Hx, False_ind _ (proj1 (elem_of_nil x) Hx)) Hrun)
    as (dropped & Hheap & Hseen & Hlen & Hfull & Hbest).
  rewrite app_nil_r in Hseen.
  assert (length heap = (k `min` length (candidates compare_with_query rows))%nat)
    as Hcount.
  { rewrite Hseen, length_app. destruct dropped as [|d dropped].
    - simpl. lia.
    - rewrite Hfull by done. lia. }
  destruct heap as [|h0 heap].
  { exists [], dropped. simpl in *. split; [done|]. split; [done|].
    split; [done|]. split; [constructor|]. intros x r _ Hr. by apply elem_of_nil in Hr. }
  destruct (sorted_by_score_sorted (h0 :: heap)) as [Hperm Hsorted].
  set (ranked := sorted_by_score (h0 :: heap)) in *.
  assert (take k ranked = ranked) as ->
    by (apply take_ge; rewrite Hperm; exact Hlen).
  exists ((λ it : item, (it.2, it.1)) <$> ranked), dropped.
  split; [done|].
  assert ((λ r : text * score, (r.2, r.1)) <$> ((λ it : item, (it.2, it.1)) <$> ranked)
          = ranked) as Hback.
  { rewrite <- list_fmap_compose. rewrite <- (list_fmap_id ranked) at 2.
    apply list_fmap_ext. now intros i [s p]. }
  split; [now rewrite Hback, Hperm|].
  split; [now rewrite length_fmap, Hperm|].
  split.
  - eapply StronglySorted_fmap; [|exact Hsorted]. now intros [s1 p1] [s2 p2].
  - intros x r Hx Hr. apply list_elem_of_fmap in Hr as ([s p] & -> & Hr). simpl.
    apply (Hbest x (s, p)); [done|]. now rewrite <- Hperm.
Qed.

End Heap.

(** ** The instance: integer scores, a sorted list as the queue *)

Lemma score_le_trans : Transitive score_le.
Proof. intros a b c. unfold score_le. lia. Qed.

Lemma score_le_total : Total score_le.
Proof. intros a b. unfold score_le. lia. Qed.

Lemma score_ge_trans : Transitive score_ge.
Proof. intros a b c. unfold score_ge. lia. Qed.

Lemma score_ge_total : Total score_ge.
Proof. intros a b. unfold score_ge. lia. Qed.

Lemma list_heap_contract :
  StronglySorted score_le []
  ∧ (∀ heap x, StronglySorted score_le heap →
       StronglySorted score_le (list_heappush heap x) ∧ list_heappush heap x ≡ₚ x :: heap)
  ∧ (∀ least heap x, StronglySorted score_le (least :: heap) →
       StronglySorted score_le (list_heapreplace (least :: heap) x)
       ∧ list_heapreplace (least :: heap) x ≡ₚ x :: heap)
  ∧ (∀ least heap y, StronglySorted score_le (least :: heap) → y ∈ heap →
       (least.1 >? y.1) = false)
  ∧ (∀ heap, list_sorted heap ≡ₚ heap
       ∧ StronglySorted (λ a b : Z * text, (b.1 >? a.1) = false) (list_sorted heap)).
Proof.
  pose proof score_le_trans. pose proof score_le_total.
  pose proof score_ge_trans. pose proof score_ge_total.
  split; [constructor|]. split; [|split; [|split]].
  - intros heap x _. unfold list_heappush.
    split; [now apply StronglySorted_merge_sort | apply merge_sort_Permutation].
  - intros least heap x _. unfold list_heapreplace. simpl tail.
    split; [now apply StronglySorted_merge_sort | apply merge_sort_Permutation].
  - intros least heap y Hs Hy. apply StronglySorted_inv in Hs as [_ Hall].
    rewrite Forall_forall in Hall. specialize (Hall y Hy). unfold score_le in Hall.
    rewrite Z.gtb_ltb. apply Z.ltb_ge. lia.
  - intros heap. unfold list_sorted. split; [apply merge_sort_Permutation|].
    rewrite <- (list_fmap_id (merge_sort score_ge heap)).
    eapply StronglySorted_fmap; [|now apply (StronglySorted_merge_sort score_ge)].
    intros a b Hab. simpl. unfold score_ge in Hab. rewrite Z.gtb_ltb. apply Z.ltb_ge. lia.
Qed.

Lemma gtb_weak_order :
  (∀ a b, (a >? b) = true → (b >? a) = false)
  ∧ (∀ a b c, (a >? b) = true → (b >? c) = true → (a >? c) = true)
  ∧ (∀ a b c, (a >? b) = false → (b >? c) = false → (a >? c) = false).
Proof.
  split; [|split]; intros *; rewrite !Z.gtb_ltb, ?Z.ltb_lt, ?Z.ltb_ge; lia.
Qed.

(** The theorem on a store of five rows, one of norm zero, asked for the
    best two. *)
Lemma retrieve_top_k_witness :
  let rows := [(of_string "a", [Byte.x03]); (of_string "b", [Byte.x09]);
               (of_string "z", []); (of_string "c", [Byte.x05]);
               (of_string "d", [Byte.x07])] in
  _retrieve_context Z.gtb list_heappush list_heapreplace list_sorted byte_score
                    false (Some rows) (Some 2) 5
  = Some [(of_string "b", 9); (of_string "d", 7)]
  ∧ ∃ result left_out,
      _retrieve_context Z.gtb list_heappush list_heapreplace list_sorted byte_score
                        false (Some rows) (Some 2) 5
      = Some result
      ∧ candidates byte_score rows
        ≡ₚ ((λ r : text * Z, (r.2, r.1)) <$> result) ++ left_out
      ∧ length result = (Z.to_nat 2 `min` length (candidates byte_score rows))%nat
      ∧ StronglySorted (λ a b : text * Z, (b.2 >? a.2) = false) result
      ∧ ∀ x r, x ∈ left_out → r ∈ result → (x.1 >? r.2) = false.
Proof.
  cbv zeta. split; [vm_compute; reflexivity|].
  destruct list_heap_contract as (Hnil & Hpush & Hreplace & Hleast & Hsorted).
  destruct gtb_weak_order as (Hasym & Htrans & Hcotrans).
  apply (retrieve_top_k Z.gtb list_heappush list_heapreplace list_sorted byte_score
           Hasym Htrans Hcotrans (StronglySorted score_le) Hnil Hpush Hreplace Hleast
           Hsorted _ (Some 2) 5).
  - reflexivity.
  - intros row Hin.
    repeat (apply elem_of_cons in Hin as [->|Hin]; [discriminate|]).
    by apply elem_of_nil in Hin.
Defined.

End RetrievalFacts.

(* ===================================================================== *)
(** * Configuration dictionary against arguments *)
(* ===================================================================== *)

Module ConfigFacts.
Import PyStr Scan Config ScanFacts.

Section Parsing.

Variable int_of_str : text → option Z.

Lemma missing_from_config (config : gmap string value) (key : string) :
  missing (py_str (get config key)) = true
  ↔ ∃ v, config !! key = Some v ∧ (py_str v = None ∨ py_str v = Some []).
Proof.
  unfold get. destruct (config !! key) as [v|]; simpl.
  - split.
    + intros H. exists v. split; [done|].
      destruct (py_str v) as [[|c s]|]; auto. done.
    + intros (v' & [= <-] & [->| ->]); reflexivity.
  - split; [done|]. now intros (v & ? & _).
Qed.

(** With a configuration dictionary that is not empty, the arguments of
    [reindex] play no part: every parameter is what the dictionary gives,
    and a key that is absent reads as the string ["None"], not as the
    argument of that name. So the [ValueError] for missing parameters is
    raised exactly when one of the three paths is present with an empty
    string (or a value whose [str()] raises); an absent path never raises
    it. *)
Theorem reindex_config_validation (config : gmap string value) (given : parameters) :
  config ≠ ∅ →
  (reindex_parameters int_of_str (Some config) given = None
   ↔ ∃ key v, key ∈ ["root_path"; "temp_path"; "embeddings_path"]
              ∧ config !! key = Some v
              ∧ (py_str v = None ∨ py_str v = Some []))
  ∧ (∀ p, reindex_parameters int_of_str (Some config) given = Some p →
          p = from_config int_of_str config)
  ∧ (∀ key, config !! key = None → py_str (get config key) = Some (of_string "None")).
Proof.
  intros Hne. unfold reindex_parameters. rewrite decide_False by done. cbv zeta.
  split; [|split].
  - cbn [root_path temp_path embeddings_path from_config].
    destruct (_ || _) eqn:E.
    + split; [intros _|done].
      apply orb_true_iff in E as [E|E]; [apply orb_true_iff in E as [E|E]|];
        destruct (proj1 (missing_from_config _ _) E) as (v & Hv & Hstr);
        [exists "root_path", v | exists "temp_path", v | exists "embeddings_path", v];
        (split; [repeat constructor | done]).
    + split; [done|]. intros (key & v & Hkey & Hv & Hs).
      assert (missing (py_str (get config key)) = true) as Hm
        by (apply missing_from_config; eauto).
      apply orb_false_iff in E as [E E3]. apply orb_false_iff in E as [E1 E2].
      repeat (apply elem_of_cons in Hkey as [->|Hkey]; [congruence|]).
      by apply elem_of_nil in Hkey.
  - intros p. destruct (_ || _); [done|]. now intros [= <-].
  - intros key Hkey. unfold get. now rewrite Hkey.
Qed.

End Parsing.

(** The theorem on a dictionary that holds the temp path only, called with
    all three paths as arguments: the call is accepted, and the root it
    goes on with is the string ["None"]. *)
Lemma reindex_config_validation_witness :
  let config : gmap string value := {[ "temp_path" := VStr (of_string "/t") ]} in
  let given := mkParameters (Some (of_string "/r")) (Some (of_string "/t"))
                            (Some (of_string "/e")) 5 None None false in
  let p := mkParameters (Some (of_string "None")) (Some (of_string "/t"))
                        (Some (of_string "None")) 5 (Some (of_string "None")) None
                        false in
  reindex_parameters digits_only (Some config) given = Some p
  ∧ p = from_config digits_only config.
Proof.
  cbv zeta.
  assert (reindex_parameters digits_only
            (Some {[ "temp_path" := VStr (of_string "/t") ]})
            (mkParameters (Some (of_string "/r")) (Some (of_string "/t"))
                          (Some (of_string "/e")) 5 None None false)
          = Some (mkParameters (Some (of_string "None")) (Some (of_string "/t"))
                               (Some (of_string "None")) 5 (Some (of_string "None"))
                               None false)) as Hrun
    by (vm_compute; reflexivity).
  split; [exact Hrun|].
  refine (proj1 (proj2 (reindex_config_validation digits_only _ _ _)) _ Hrun).
  intros H. apply (f_equal (λ m : gmap string value, m !! "temp_path")) in H.
  by rewrite lookup_singleton_eq, lookup_empty in H.
Defined.

(** Where the two ways of calling [reindex] part on the extensions. Given
    a dictionary without the key [supported_extensions], the string
    ["None"] is parsed and the scan looks for files with the extension
    [.none]; given as arguments without [supported_extensions], the call
    ends in the [ValueError] of [_parse_supported_extensions]. *)
Theorem absent_extensions (int_of_str : text → option Z) (lower : text → text)
    (config : gmap string value) (given p : parameters) :
  config ≠ ∅ → config !! "supported_extensions" = None →
  reindex_parameters int_of_str (Some config) given = Some p →
  _parse_supported_extensions lower (supported_extensions p)
  = Some {[ dotted (lower (of_string "None")) ]}
  ∧ ∀ given' p', reindex_parameters int_of_str None given' = Some p' →
                 supported_extensions given' = None →
                 _parse_supported_extensions lower (supported_extensions p') = None.
Proof.
  intros Hne Hkey Hp. split.
  - revert Hp. unfold reindex_parameters. rewrite decide_False by done.
    cbv zeta. destruct (_ || _); [done|]. intros [= <-].
    cbn [supported_extensions from_config]. unfold get. rewrite Hkey. simpl py_str.
    rewrite parse_unfold. cbv zeta.
    assert (filter (λ token : text, token ≠ [] ∧ strip token ≠ [])
                   (split comma (of_string "None")) = [of_string "None"]) as ->
      by (vm_compute; reflexivity).
    assert (strip (of_string "None") = of_string "None") as Hs by reflexivity.
    cbn [fmap list_fmap]. rewrite Hs. cbn [list_to_set foldr].
    rewrite decide_False; [f_equal; apply union_empty_r_L|].
    intros H.
    assert (dotted (lower (of_string "None")) ∈ (∅ : gset text)) as Hin
      by (rewrite <- H; set_solver).
    by apply elem_of_empty in Hin.
  - intros given' p'. unfold reindex_parameters. cbv zeta.
    destruct (_ || _); [done|]. now intros [= <-] ->.
Qed.

(** The theorem on a dictionary with the three paths and nothing else. *)
Lemma absent_extensions_witness :
  let config : gmap string value :=
    {[ "root_path" := VStr (of_string "/r"); "temp_path" := VStr (of_string "/t");
       "embeddings_path" := VStr (of_string "/e") ]} in
  let p := mkParameters (Some (of_string "/r")) (Some (of_string "/t"))
                        (Some (of_string "/e")) 5 (Some (of_string "None")) None
                        false in
  reindex_parameters digits_only (Some config) no_arguments = Some p
  ∧ _parse_supported_extensions ascii_lower (supported_extensions p)
    = Some {[ of_string ".none" ]}.
Proof.
  cbv zeta.
  assert (reindex_parameters digits_only
            (Some {[ "root_path" := VStr (of_string "/r");
                     "temp_path" := VStr (of_string "/t");
                     "embeddings_path" := VStr (of_string "/e") ]})
            no_arguments
          = Some (mkParameters (Some (of_string "/r")) (Some (of_string "/t"))
                               (Some (of_string "/e")) 5 (Some (of_string "None"))
                               None false)) as Hp
    by (vm_compute; reflexivity).
  split; [exact Hp|].
  refine (proj1 (absent_extensions digits_only ascii_lower _ no_arguments _ _ _ Hp)).
  - intros H. apply (f_equal (λ m : gmap string value, m !! "root_path")) in H.
    by rewrite lookup_insert_eq, lookup_empty in H.
  - vm_compute. reflexivity.
Defined.

End ConfigFacts.

(* ===================================================================== *)
(** * Without timeouts a pass makes each pool once *)
(* ===================================================================== *)

Module ObserveFacts.
Import Pathlib FS Indexer Trace Worlds Observe PassFacts.

Lemma pools_created_app (k : pool) (evs1 evs2 : list event) :
  pools_created k (evs1 ++ evs2)
  = (pools_created k evs1 + pools_created k evs2)%nat.
Proof. unfold pools_created. now rewrite filter_app, length_app. Qed.

Lemma keeps_pools_refl (ix : DocIndexer) : keeps_pools ix ix.
Proof. exists []. rewrite app_nil_r. split; [done|]. now intros k. Qed.

Lemma keeps_pools_trans (ix1 ix2 ix3 : DocIndexer) :
  keeps_pools ix1 ix2 → keeps_pools ix2 ix3 → keeps_pools ix1 ix3.
Proof.
  intros (n1 & H1 & K1) (n2 & H2 & K2). exists (n1 ++ n2).
  rewrite H2, H1, app_assoc. split; [done|]. intros k.
  rewrite pools_created_app, <- K2, <- K1. lia.
Qed.

Lemma keeps_pools_log (e : event) (ix : DocIndexer) :
  (∀ k, creates k e = false) → keeps_pools ix (log e ix).
Proof.
  intros He. exists [e]. split; [done|]. intros k. unfold pools_created.
  rewrite filter_cons, decide_False by (rewrite He; done). now destruct k.
Qed.

Lemma keeps_pools_same (ix ix' : DocIndexer) :
  events ix' = events ix →
  _conversion_executor ix' = _conversion_executor ix →
  _embedding_executor ix' = _embedding_executor ix →
  keeps_pools ix ix'.
Proof.
  intros He Hc Hm. exists []. rewrite app_nil_r. split; [done|].
  intros []; unfold has_pool; now rewrite ?Hc, ?Hm.
Qed.

Lemma ensure_conversion_keeps (ix : DocIndexer) :
  keeps_pools ix (_ensure_conversion_executor ix).1
  ∧ is_Some (_conversion_executor (_ensure_conversion_executor ix).1).
Proof.
  unfold _ensure_conversion_executor.
  destruct (_conversion_executor ix) as [ex|] eqn:E; simpl.
  - split; [apply keeps_pools_refl | rewrite E; eauto].
  - split; [|eauto]. eexists. split; [reflexivity|].
    intros []; unfold has_pool; simpl; now rewrite ?E.
Qed.

Lemma ensure_embedding_keeps (ix : DocIndexer) :
  keeps_pools ix (_ensure_embedding_executor ix).1
  ∧ is_Some (_embedding_executor (_ensure_embedding_executor ix).1).
Proof.
  unfold _ensure_embedding_executor.
  destruct (_embedding_executor ix) as [ex|] eqn:E; simpl.
  - split; [apply keeps_pools_refl | rewrite E; eauto].
  - split; [|eauto]. eexists. split; [reflexivity|].
    intros []; unfold has_pool; simpl; now rewrite ?E.
Qed.

(** The warm-up keeps the pool whatever the answer is. *)
Lemma warmup_keeps (W : World) (ix : DocIndexer) :
  keeps_pools ix (_warmup_process_pools W ix).
Proof.
  unfold _warmup_process_pools.
  destruct (ensure_embedding_keeps ix) as [Hk _].
  destruct (_ensure_embedding_executor ix) as [ix0 ex]. cbn [fst] in Hk.
  eapply keeps_pools_trans; [exact Hk|].
  eapply keeps_pools_trans; [apply (keeps_pools_log
    (Submitted EmbeddingPool ex (Encode warmup_text (_embedding_model_name ix0))
               _EMBEDDING_STARTUP_BUFFER)); by intros []|].
  destruct (pool_encode W _ _ _ _ _); [|apply keeps_pools_refl..].
  now apply keeps_pools_same.
Qed.

Section NoTimeout.

Variable W : World.
Hypothesis conversions_answer : ∀ evs ex file t, pool_convert W evs ex file t ≠ Timeout.
Hypothesis encodings_answer : ∀ evs ex txt model t, pool_encode W evs ex txt model t ≠ Timeout.

Lemma convert_keeps (ix : DocIndexer) (file : path) (timeout : Z) :
  keeps_pools ix (_convert_to_markdown W ix file timeout).1.
Proof.
  unfold _convert_to_markdown.
  destruct (ensure_conversion_keeps ix) as [Hk _].
  destruct (_ensure_conversion_executor ix) as [ix0 ex]. cbn [fst] in Hk.
  eapply keeps_pools_trans; [exact Hk|].
  set (t := if _conversion_warmup_used ix0 then _ else _).
  pose proof (conversions_answer (events ix0) ex file t) as Hno.
  eapply keeps_pools_trans;
    [apply (keeps_pools_log (Submitted ConversionPool ex (Convert file) t));
     by intros []|].
  destruct (pool_convert W (events ix0) ex file t) as [[data|msg|msg]| |];
    cbn [fst]; try apply keeps_pools_refl; [|done].
  now apply keeps_pools_same.
Qed.

Lemma encode_keeps (ix : DocIndexer) (text_content : text) (timeout : Z) :
  keeps_pools ix (_encode_with_timeout W ix text_content timeout).1.
Proof.
  unfold _encode_with_timeout.
  destruct (ensure_embedding_keeps ix) as [Hk _].
  destruct (_ensure_embedding_executor ix) as [ix0 ex]. cbn [fst] in Hk.
  eapply keeps_pools_trans; [exact Hk|].
  set (t := if _embedding_warmup_used ix0 then _ else _).
  pose proof (encodings_answer (events ix0) ex text_content
                (_embedding_model_name ix0) t) as Hno.
  eapply keeps_pools_trans;
    [apply (keeps_pools_log
       (Submitted EmbeddingPool ex (Encode text_content (_embedding_model_name ix0)) t));
     by intros []|].
  destruct (pool_encode W (events ix0) ex text_content _ t) as [[data|msg]| |];
    cbn [fst]; try apply keeps_pools_refl; [|done].
  now apply keeps_pools_same.
Qed.

Lemma generate_embedding_keeps (ix : DocIndexer) (m : fs)
    (file markdown_dir root : path) (timeout : Z) :
  keeps_pools ix (_generate_embedding W ix m file markdown_dir root timeout).1.1.
Proof.
  unfold _generate_embedding.
  destruct (snapshot_write_path _ _ _); [|apply keeps_pools_refl].
  destruct (mkdir_parents _ _); [|apply keeps_pools_refl].
  destruct (oversized_archive W file); [apply keeps_pools_refl|].
  assert (keeps_pools ix (convert_file W ix file timeout).1) as Hc.
  { unfold convert_file. destruct (bool_decide _); [|apply convert_keeps].
    destruct (markitdown_convert W file); apply keeps_pools_refl. }
  destruct (convert_file W ix file timeout) as [ix1 [text_content|]];
    cbn [fst] in *; [|done].
  destruct (PyStr.strip text_content); [done|].
  pose proof (encode_keeps ix1 text_content timeout) as He.
  destruct (_encode_with_timeout W ix1 text_content timeout) as [ix2 [e|]];
    cbn [fst] in *; by eapply keeps_pools_trans.
Qed.

Lemma process_file_keeps (hashes : gmap path string) (markdown_dir root : path)
    (timeout : Z) (callback : bool) (st : state) (entry : scanned) :
  keeps_pools (indexer st)
    (indexer (process_file W hashes markdown_dir root timeout callback st entry).1).
Proof.
  destruct entry as [[file h] x]. rewrite process_file_unfold.
  destruct (needs hashes file h) as [k|]; [|apply keeps_pools_refl]. cbv zeta.
  pose proof (generate_embedding_keeps (indexer st) (disk st) file markdown_dir root
                timeout) as Hg.
  destruct (_generate_embedding _ _ _ _ _ _ _) as [[ix m] [e| |]];
    cbn [fst snd] in *; [|done|done].
  set (ix' := if callback then log (Progress file) ix else ix).
  assert (keeps_pools (indexer st) ix') as Hcb.
  { unfold ix'. destruct callback; [|done].
    eapply keeps_pools_trans; [exact Hg|]. apply keeps_pools_log. by intros []. }
  destruct k.
  - destruct (sql_insert _ _ _); cbn [fst indexer]; [|done].
    eapply keeps_pools_trans; [exact Hcb|]. apply keeps_pools_log. by intros [].
  - cbn [fst indexer].
    eapply keeps_pools_trans; [exact Hcb|]. apply keeps_pools_log. by intros [].
Qed.

Lemma process_files_keeps (hashes : gmap path string) (markdown_dir root : path)
    (timeout : Z) (callback : bool) (st : state) (file_list : list scanned) :
  keeps_pools (indexer st)
    (indexer (process_files W hashes markdown_dir root timeout callback st
                file_list).1).
Proof.
  revert st. induction file_list as [|entry file_list IH]; intros st;
    [apply keeps_pools_refl|].
  rewrite process_files_cons.
  pose proof (process_file_keeps hashes markdown_dir root timeout callback st entry)
    as H1.
  destruct (process_file _ _ _ _ _ _ st entry) as [st1 ok]. cbn [fst] in H1.
  destruct ok; [|done]. eapply keeps_pools_trans; [exact H1 | apply IH].
Qed.

Lemma remove_files_keeps (markdown_dir root : path) (st : state) (files : list path) :
  keeps_pools (indexer st) (indexer (remove_files markdown_dir root st files).1).
Proof.
  revert st. induction files as [|file files IH]; intros st; [apply keeps_pools_refl|].
  simpl. unfold remove_file. cbn [disk indexer conn].
  destruct (_delete_markdown_snapshot _ _ _ _) as [m|]; [|apply keeps_pools_refl].
  eapply keeps_pools_trans; [|apply IH]. cbn [indexer].
  apply keeps_pools_log. by intros [].
Qed.

(** In a world whose pools answer every task in time, a pass creates each
    pool at most once, and none of a kind the indexer already holds: all
    files of the pass are converted by one conversion pool and embedded by
    one embedding pool. *)
Theorem pools_made_once (ix : DocIndexer) (m : fs) (table : gmap path row)
    (file_list : list scanned) (markdown_dir root : path) (timeout : Z)
    (callback : bool) :
  let fin := _update_database W ix m table file_list markdown_dir root timeout
                              callback in
  let new := since (length (events ix)) (events (indexer fin.1)) in
  ∀ k, (pools_created k new ≤ 1)%nat
       ∧ (has_pool k ix = 1%nat → pools_created k new = 0%nat).
Proof.
  cbv zeta.
  assert (keeps_pools ix
            (indexer (_update_database W ix m table file_list markdown_dir root
                                       timeout callback).1)) as (new & Hev & Hk).
  { unfold _update_database.
    set (st0 := mkState ix m (connect table)).
    pose proof (remove_files_keeps markdown_dir root st0
                  (files_to_remove W (file_hash <$> staged (conn st0)) file_list))
      as H1.
    destruct (remove_files _ _ st0 _) as [st1 ok1]. cbn [fst] in H1.
    destruct ok1; [|exact H1].
    set (st2 := mkState (_warmup_process_pools W (indexer st1)) (disk st1) (conn st1)).
    pose proof (process_files_keeps (file_hash <$> staged (conn st0)) markdown_dir
                  root timeout callback st2 file_list) as H2.
    destruct (process_files _ _ _ _ _ _ st2 _) as [st3 ok3]. cbn [fst] in H2.
    assert (keeps_pools ix (indexer st3)) as H3.
    { eapply keeps_pools_trans; [exact H1|].
      eapply keeps_pools_trans; [apply warmup_keeps | exact H2]. }
    destruct ok3; [|exact H3].
    unfold commit. destruct (commit_succeeds W _); cbn [fst indexer];
      (eapply keeps_pools_trans; [exact H3|]; apply keeps_pools_log; by intros []). }
  rewrite Hev, since_app. intros k. specialize (Hk k).
  assert (has_pool k (indexer (_update_database W ix m table file_list markdown_dir
                                 root timeout callback).1) ≤ 1)%nat as Hle.
  { unfold has_pool. destruct k; destruct (_ : option nat); lia. }
  lia.
Qed.

End NoTimeout.

(** The theorem on a pass that converts two PDF files with a new indexer:
    one conversion pool, one embedding pool. *)
Lemma pools_made_once_witness :
  let fin := _update_database quiet_world __init__ ∅ ∅
               [(["r"; "a.pdf"], "h1", ".pdf"); (["r"; "b.pdf"], "h2", ".pdf")]
               ["t"; "m"] ["r"] 5 false in
  pools_created ConversionPool (events (indexer fin.1)) = 1%nat
  ∧ ∀ k, (pools_created k (since 0 (events (indexer fin.1))) ≤ 1)%nat
         ∧ (has_pool k __init__ = 1%nat
            → pools_created k (since 0 (events (indexer fin.1))) = 0%nat).
Proof.
  cbv zeta. split; [vm_compute; reflexivity|].
  apply (pools_made_once quiet_world (λ _ _ _ _, ltac:(discriminate))
           (λ _ _ _ _ _, ltac:(discriminate)) __init__ ∅ ∅
           [(["r"; "a.pdf"], "h1", ".pdf"); (["r"; "b.pdf"], "h2", ".pdf")]
           ["t"; "m"] ["r"] 5 false).
Defined.

End ObserveFacts.

(* ===================================================================== *)
(** * What the debug log holds *)
(* ===================================================================== *)

Module DebugLogFacts.
Import PyStr Scan DebugLog.

Lemma join_log_name (log_directory : text) : join log_directory log_name ≠ [].
Proof.
  unfold join. change (startswith [sep] log_name) with false. cbv iota.
  destruct (_ || _); destruct log_directory; done.
Qed.

Lemma log_messages (host : Host) (path content : text) (messages : list text)
    (st : state) :
  path ≠ [] → open_ok host path = true →
  _enabled (cls st) = true → _log_path (cls st) = Some path →
  files st !! path = Some content →
  let st' := foldl (log host) st messages in
  cls st' = cls st
  ∧ clock st' = (clock st + length messages)%nat
  ∧ files st' !! path = Some (content ++ transcript host (clock st) messages)
  ∧ ∀ other, other ≠ path → files st' !! other = files st !! other.
Proof.
  intros Hne Hopen. cbv zeta. revert st content.
  induction messages as [|message messages IH]; intros st content Hon Hpath Hfile.
  - simpl. rewrite app_nil_r, Nat.add_0_r. auto.
  - cbn [foldl transcript].
    assert (log host st message
            = mkState (cls st)
                (<[path := content ++ entry (isoformat host (clock st)) message]>
                   (files st))
                (S (clock st))) as ->.
    { unfold log. rewrite Hon, Hpath. destruct path as [|c p]; [done|].
      now rewrite Hopen, Hfile. }
    set (st1 := mkState _ _ _).
    destruct (IH st1 (content ++ entry (isoformat host (clock st)) message))
      as (Hcls & Hclock & Hcontent & Hother); [done|done|apply lookup_insert_eq|].
    unfold st1 in *. cbn [cls clock files] in *. rewrite Hcls, Hclock, Hcontent, <- app_assoc.
    split; [done|]. split; [simpl; lia|]. split; [done|].
    intros other Ho. rewrite Hother by done. now apply lookup_insert_ne.
Qed.

Lemma log_disabled (host : Host) (messages : list text) (st : state) :
  _enabled (cls st) = false → foldl (log host) st messages = st.
Proof.
  intros Hoff. induction messages as [|message messages IH]; [done|].
  cbn [foldl]. unfold log at 2. now rewrite Hoff.
Qed.

(** After [initialize(True, d)] on a directory that can be written, the
    log file holds the start line and then one line for each call of
    [log], in the order of the calls, each stamped with the clock read at
    that call; what the file held before is gone and no other file is
    touched. After [initialize(False, d)], or after an [initialize(True,
    d)] that could not write, calls of [log] do nothing: no file changes
    and the clock is not read. *)
Theorem log_transcript (host : Host) (st : state) (log_directory : text)
    (messages : list text) :
  makedirs_ok host log_directory = true →
  open_ok host (join log_directory log_name) = true →
  let path := join log_directory log_name in
  let on := foldl (log host) (initialize host st true log_directory) messages in
  files on !! path
  = Some (header (isoformat host (clock st)) ++ transcript host (S (clock st)) messages)
  ∧ (∀ other, other ≠ path → files on !! other = files st !! other)
  ∧ (∀ d, let off := foldl (log host) (initialize host st false d) messages in
          files off = files st ∧ clock off = clock st)
  ∧ (∀ d, makedirs_ok host d && open_ok host (join d log_name) = false →
          let failed := foldl (log host) (initialize host st true d) messages in
          files failed = files st ∧ clock failed = clock st
          ∧ _log_path (cls failed) = None).
Proof.
  intros Hmk Hopen. cbv zeta. split; [|split; [|split]].
  - unfold initialize. rewrite Hmk, Hopen. simpl andb. cbv iota.
    destruct (log_messages host (join log_directory log_name)
                (header (isoformat host (clock st))) messages
                (mkState (mkLogger true (Some (join log_directory log_name)) true)
                   (<[join log_directory log_name
                      := header (isoformat host (clock st))]> (files st))
                   (S (clock st))))
      as (_ & _ & H & _);
      [apply join_log_name | done | done | done | apply lookup_insert_eq | exact H].
  - intros other Ho. unfold initialize. rewrite Hmk, Hopen. simpl andb. cbv iota.
    destruct (log_messages host (join log_directory log_name)
                (header (isoformat host (clock st))) messages
                (mkState (mkLogger true (Some (join log_directory log_name)) true)
                   (<[join log_directory log_name
                      := header (isoformat host (clock st))]> (files st))
                   (S (clock st))))
      as (_ & _ & _ & H);
      [apply join_log_name | done | done | done | apply lookup_insert_eq |].
    rewrite H by done. cbn [files]. now apply lookup_insert_ne.
  - intros d. unfold initialize. now rewrite log_disabled.
  - intros d Hfail. unfold initialize. rewrite Hfail. now rewrite log_disabled.
Qed.

(** The theorem on a log of two messages that replaces an old one. *)
Lemma log_transcript_witness :
  let st := mkState loaded {[ of_string "/t/program_debug.log" := of_string "old" ]}
                    O in
  let on := foldl (log plain_host) (initialize plain_host st true (of_string "/t"))
                  [of_string "a"; of_string "b"] in
  files on !! of_string "/t/program_debug.log"
  = Some (of_string "=== Debug Log Started: Z ===" ++ [10%N]
          ++ of_string "[1Z] a" ++ [10%N] ++ of_string "[11Z] b" ++ [10%N]).
Proof.
  cbv zeta.
  destruct (log_transcript plain_host
              (mkState loaded {[ of_string "/t/program_debug.log" := of_string "old" ]}
                       O)
              (of_string "/t") [of_string "a"; of_string "b"] eq_refl eq_refl)
    as (H & _).
  etrans; [exact H|]. reflexivity.
Defined.

End DebugLogFacts.
